(** * sbom-scan: a shallow embedding of [sbom-scan.mjs]

    The scanner reads a watch list of [name@version] lines, asks the hosting
    provider for the SBOM of every repository of an organisation through a
    bounded promise pool, and reports the repositories that carry a watched
    package at or below the listed version.

    Modelling conventions.
    - A JavaScript string is a Rocq [string]; the text the scanner handles
      (package names, versions, purls, repository names) is ASCII, and the
      string primitives below ([trim], [toLowerCase]) are the ASCII part of
      their ECMAScript definitions.  [decodeURIComponent] works on the UTF-8
      octets, so a decoded non-ASCII character is the run of its octets.
    - An exception is a value of [completion]; [Throw] aborts the enclosing
      computation up to the nearest [try].
    - A [Map] or [Set] is a list in insertion order, as ECMAScript iterates it.
    - The [semver] package is an interface ([SemverLib]); [NodeSemver] is an
      implementation of its documented grammar and precedence.
    - [String.prototype.localeCompare] is a parameter of the report builder.
    - The promise pool is a transition system over the program points of
      [pool], with one transition per resumption of an asynchronous worker. *)

From Stdlib Require Import String Ascii List Bool Arith ZArith NArith Lia.
From Stdlib Require Import QArith Permutation Sorted Relations Wellfounded.
From Stdlib Require Import DecimalString.
Import ListNotations.
Local Open Scope string_scope.
Local Open Scope Z_scope.

(** ** Completions: values and exceptions *)

Inductive JsError : Type :=
| HttpError (status : option N) (message : string) (retry_after : bool)
| URIError
| TypeError (message : string).

Inductive completion (A : Type) : Type :=
| Normal (a : A)
| Throw (e : JsError).
Arguments Normal {A} a.
Arguments Throw {A} e.

Definition bind {A B : Type} (c : completion A) (k : A -> completion B)
  : completion B :=
  match c with
  | Normal a => k a
  | Throw e => Throw e
  end.

Notation "x <- c ;; k" := (bind c (fun x => k))
  (at level 61, c at next level, right associativity).

(** ** String primitives *)

(** The ASCII members of WhiteSpace and LineTerminator: TAB, LF, VT, FF, CR, SP. *)
Definition is_ws (c : ascii) : bool :=
  let n := nat_of_ascii c in
  ((9 <=? n) && (n <=? 13))%nat || (n =? 32)%nat.

Fixpoint trimStart (s : string) : string :=
  match s with
  | String c s' => if is_ws c then trimStart s' else s
  | EmptyString => EmptyString
  end.

(** [trimEnd] drops a suffix of white space: a character is kept when
    something is kept after it or when it is not white space. *)
Fixpoint trimEnd (s : string) : string :=
  match s with
  | String c s' =>
      match trimEnd s' with
      | EmptyString => if is_ws c then EmptyString else String c EmptyString
      | t => String c t
      end
  | EmptyString => EmptyString
  end.

Definition trim (s : string) : string := trimEnd (trimStart s).

Definition startsWith (s p : string) : bool := prefix p s.

Fixpoint contains_char (c : ascii) (s : string) : bool :=
  match s with
  | String d s' => Ascii.eqb d c || contains_char c s'
  | EmptyString => false
  end.

Fixpoint lastIndexOf_from (c : ascii) (s : string) (i acc : Z) : Z :=
  match s with
  | String d s' => lastIndexOf_from c s' (i + 1) (if Ascii.eqb d c then i else acc)
  | EmptyString => acc
  end.

(** [s.lastIndexOf(c)] for a one-character needle: [-1] when absent. *)
Definition lastIndexOf (c : ascii) (s : string) : Z :=
  lastIndexOf_from c s 0 (-1).

Definition strlen (s : string) : Z := Z.of_nat (String.length s).

(** Relative index of [slice]: negative counts from the end, then clamped. *)
Definition rel_index (len k : Z) : Z :=
  if k <? 0 then Z.max (len + k) 0 else Z.min k len.

(** [s.slice(a, b)]. *)
Definition slice (s : string) (a b : Z) : string :=
  let len := strlen s in
  let from := rel_index len a in
  let to := rel_index len b in
  substring (Z.to_nat from) (Z.to_nat (to - from)) s.

(** [s.slice(a)]. *)
Definition slice_from (s : string) (a : Z) : string :=
  slice s a (strlen s).

Definition lower_char (c : ascii) : ascii :=
  let n := nat_of_ascii c in
  if ((65 <=? n) && (n <=? 90))%nat then ascii_of_nat (n + 32) else c.

Fixpoint toLowerCase (s : string) : string :=
  match s with
  | String c s' => String (lower_char c) (toLowerCase s')
  | EmptyString => EmptyString
  end.

(** Truthiness of a string: the empty string is falsy. *)
Definition truthy (s : string) : bool :=
  match s with
  | EmptyString => false
  | _ => true
  end.

(** *** [decodeURIComponent]

    The Decode operation of ECMAScript with an empty reserved set.  A [%]
    must be followed by two hexadecimal digits.  An octet below 0x80 is the
    character itself; a lead octet opens a UTF-8 sequence whose continuation
    octets must each be percent-escaped and well formed (no overlong form,
    no surrogate, nothing above U+10FFFF).  Anything else is a [URIError]. *)

Definition hexval (c : ascii) : option N :=
  let n := N_of_ascii c in
  (if (48 <=? n) && (n <=? 57) then Some (n - 48)
   else if (65 <=? n) && (n <=? 70) then Some (n - 55)
   else if (97 <=? n) && (n <=? 102) then Some (n - 87)
   else None)%N.

Definition percent : ascii := "%"%char.

(** After a lead octet: how many continuation octets follow, and the range
    allowed for the first of them. *)
Definition utf8_lead (b : N) : option (nat * N * N) :=
  (if (194 <=? b) && (b <=? 223) then Some (1%nat, 128, 191)
   else if b =? 224 then Some (2%nat, 160, 191)
   else if (225 <=? b) && (b <=? 236) then Some (2%nat, 128, 191)
   else if b =? 237 then Some (2%nat, 128, 159)
   else if (238 <=? b) && (b <=? 239) then Some (2%nat, 128, 191)
   else if b =? 240 then Some (3%nat, 144, 191)
   else if (241 <=? b) && (b <=? 243) then Some (3%nat, 128, 191)
   else if b =? 244 then Some (3%nat, 128, 143)
   else None)%N.

(** [decodeFrom pend lo hi s]: [pend] continuation octets are still owed,
    the next one within [lo..hi]. *)
Fixpoint decodeFrom (pend : nat) (lo hi : N) (s : string) : completion string :=
  match pend, s with
  | O, EmptyString => Normal EmptyString
  | O, String c rest =>
      if Ascii.eqb c percent then
        match rest with
        | String h1 (String h2 rest') =>
            match hexval h1, hexval h2 with
            | Some a, Some b =>
                let o := (16 * a + b)%N in
                if (o <? 128)%N then
                  r <- decodeFrom O 0 0 rest' ;; Normal (String (ascii_of_N o) r)
                else
                  match utf8_lead o with
                  | Some (n, lo', hi') =>
                      r <- decodeFrom n lo' hi' rest' ;;
                      Normal (String (ascii_of_N o) r)
                  | None => Throw URIError
                  end
            | _, _ => Throw URIError
            end
        | _ => Throw URIError
        end
      else
        r <- decodeFrom O 0 0 rest ;; Normal (String c r)
  | S n, String c (String h1 (String h2 rest')) =>
      if Ascii.eqb c percent then
        match hexval h1, hexval h2 with
        | Some a, Some b =>
            let o := (16 * a + b)%N in
            if ((lo <=? o) && (o <=? hi))%N then
              r <- decodeFrom n 128 191 rest' ;; Normal (String (ascii_of_N o) r)
            else Throw URIError
        | _, _ => Throw URIError
        end
      else Throw URIError
  | S _, _ => Throw URIError
  end.

Definition decodeURIComponent (s : string) : completion string :=
  decodeFrom O 0 0 s.

(** ** The [semver] package

    [semver_parse v] is [new SemVer(v)] in strict mode ([None] when the
    constructor throws, which is when [semver.valid(v)] is [null]);
    [semver_compare] is [SemVer.prototype.compare].  The laws are the ones
    the package documents: the empty string is no version, a version string
    holds no [@], and precedence is a total preorder. *)

Class SemverLib : Type := {
  SemVer : Type;
  semver_parse : string -> option SemVer;
  semver_compare : SemVer -> SemVer -> comparison;
  semver_parse_empty : semver_parse EmptyString = None;
  semver_parse_no_at : forall v x,
    semver_parse v = Some x -> contains_char "@"%char v = false;
  semver_compare_antisym : forall x y,
    semver_compare y x = CompOpp (semver_compare x y);
  semver_compare_trans : forall x y z,
    semver_compare x y <> Gt -> semver_compare y z <> Gt ->
    semver_compare x z <> Gt
}.

(** ** Data *)

(** [{ name, version }], both for a watch-list entry and for a normalised
    SBOM package. *)
Record NameVersion : Type := { name : string; version : string }.

(** One element of [externalRefs]; a missing or non-string field is [None]. *)
Record ExternalRef : Type := {
  referenceType : option string;
  referenceLocator : option string
}.

(** One element of [sbom.packages]; a missing field is [None], a value of
    [externalRefs] that is not an array is the empty list. *)
Record SpdxPackage : Type := {
  p_name : option string;
  p_versionInfo : option string;
  p_externalRefs : list ExternalRef
}.

(** A repository descriptor of the listing. *)
Record Repo : Type := {
  repo_name : string;
  full_name : option string;
  fork : bool;
  archived : bool
}.

(** ** [Map] and [Set] in insertion order *)

Definition JsMap (V : Type) : Type := list (string * V).
Definition JsSet : Type := list string.

Fixpoint map_get {V : Type} (m : JsMap V) (k : string) : option V :=
  match m with
  | (k', v) :: m' => if String.eqb k' k then Some v else map_get m' k
  | [] => None
  end.

Definition map_has {V : Type} (m : JsMap V) (k : string) : bool :=
  match map_get m k with
  | Some _ => true
  | None => false
  end.

(** [m.set(k, v)]: an existing key keeps its position. *)
Fixpoint map_set {V : Type} (m : JsMap V) (k : string) (v : V) : JsMap V :=
  match m with
  | (k', v') :: m' =>
      if String.eqb k' k then (k', v) :: m' else (k', v') :: map_set m' k v
  | [] => [(k, v)]
  end.

Definition set_has (s : JsSet) (x : string) : bool := existsb (String.eqb x) s.

Definition set_add (s : JsSet) (x : string) : JsSet :=
  if set_has s x then s else (s ++ [x])%list.

(** ** Helpers of the scanner *)

Definition or_empty (o : option string) : string :=
  match o with
  | Some s => s
  | None => EmptyString
  end.

Definition is_lf (c : ascii) : bool := (nat_of_ascii c =? 10)%nat.
Definition is_cr (c : ascii) : bool := (nat_of_ascii c =? 13)%nat.

(** A character that [.] does not match: LF, CR, and U+2028, U+2029 (the
    octets E2 80 A8 and E2 80 A9). *)
Fixpoint has_line_terminator (s : string) : bool :=
  match s with
  | String c s' =>
      is_lf c || is_cr c ||
      (match s' with
       | String d (String e _) =>
           (nat_of_ascii c =? 226)%nat && (nat_of_ascii d =? 128)%nat &&
           ((nat_of_ascii e =? 168)%nat || (nat_of_ascii e =? 169)%nat)
       | _ => false
       end) ||
      has_line_terminator s'
  | EmptyString => false
  end.

(** [purl.match(/^pkg:npm\/(.+)@(.+)$/)]: the two groups.  The first group is
    greedy, so the split is at the last [@] that still leaves one character
    for the second group. *)
Definition match_npm_purl (purl : string) : option (string * string) :=
  if prefix "pkg:npm/" purl then
    let rest := slice_from purl 8 in
    if has_line_terminator rest then None
    else
      let at_ := lastIndexOf "@"%char (slice rest 0 (strlen rest - 1)) in
      if at_ <=? 0 then None
      else Some (slice rest 0 at_, slice_from rest (at_ + 1))
  else None.

(** [text.split(/\r?\n/)]. *)
Fixpoint splitLines (s : string) : list string :=
  match s with
  | EmptyString => [EmptyString]
  | String c s' =>
      if is_lf c then EmptyString :: splitLines s'
      else
        match s' with
        | String d s'' =>
            if is_cr c && is_lf d then EmptyString :: splitLines s''
            else
              match splitLines s' with
              | l :: ls => String c l :: ls
              | [] => [String c EmptyString]
              end
        | EmptyString => [String c EmptyString]
        end
  end.

Definition parseLine (line : string) : option NameVersion :=
  let s := trim line in
  if negb (truthy s) || startsWith s "#" then None
  else
    let at_ := lastIndexOf "@"%char s in
    if at_ <=? 0 then None
    else
      let name := trim (slice s 0 at_) in
      let version := trim (slice_from s (at_ + 1)) in
      if negb (truthy name) || negb (truthy version) then None
      else Some {| name := name; version := version |}.

Definition keyNameVersion (name version : string) : string :=
  toLowerCase name ++ "@" ++ version.

(** [lines.map(parseLine).filter(Boolean)]. *)
Fixpoint filter_some {A : Type} (l : list (option A)) : list A :=
  match l with
  | Some a :: l' => a :: filter_some l'
  | None :: l' => filter_some l'
  | [] => []
  end.

Definition entries_of_lines (lines : list string) : list NameVersion :=
  filter_some (map parseLine lines).

Definition entries (text : string) : list NameVersion :=
  entries_of_lines (splitLines text).

Section Scanner.

Context {SV : SemverLib}.

(** [semver.valid(v)] as a condition. *)
Definition semver_valid (v : string) : bool :=
  match semver_parse v with
  | Some _ => true
  | None => false
  end.

(** The [TypeError] of [new SemVer(v)] for a string that is no version. *)
Definition invalid_version (v : string) : JsError :=
  TypeError ("Invalid Version: " ++ v).

(** [semver.gt(a, b)]: both arguments are parsed, which throws on a string
    that is no version. *)
Definition semver_gt (a b : string) : completion bool :=
  match semver_parse a, semver_parse b with
  | Some x, Some y =>
      Normal (match semver_compare x y with Gt => true | _ => false end)
  | None, _ => Throw (invalid_version a)
  | _, None => Throw (invalid_version b)
  end.

(** [semver.lte(a, b)]. *)
Definition semver_lte (a b : string) : completion bool :=
  match semver_parse a, semver_parse b with
  | Some x, Some y =>
      Normal (match semver_compare x y with Gt => false | _ => true end)
  | None, _ => Throw (invalid_version a)
  | _, None => Throw (invalid_version b)
  end.

Definition is_purl_ref (e : ExternalRef) : bool :=
  match referenceType e with
  | Some t => String.eqb t "purl"
  | None => false
  end.

Definition parsePkgNameVersionFromSpdx (p : SpdxPackage)
  : completion (option NameVersion) :=
  let n := or_empty (p_name p) in
  let v := or_empty (p_versionInfo p) in
  if truthy n && semver_valid v then Normal (Some {| name := n; version := v |})
  else
    match find is_purl_ref (p_externalRefs p) with
    | Some {| referenceLocator := Some purl |} =>
        if startsWith purl "pkg:npm/" then
          match match_npm_purl purl with
          | Some (m1, m2) =>
              pathPart <- decodeURIComponent m1 ;;
              if semver_valid m2
              then Normal (Some {| name := pathPart; version := m2 |})
              else Normal None
          | None => Normal None
          end
        else Normal None
    | _ => Normal None
    end.

(** *** The watch index *)

(** One turn of the loop that fills [wantedMaxVersion]. *)
Definition wanted_step (m : JsMap string) (e : NameVersion)
  : completion (JsMap string) :=
  if negb (semver_valid (version e)) then Normal m
  else
    let key := toLowerCase (name e) in
    replace <-
      match map_get m key with
      | Some prev =>
          if negb (truthy prev) then Normal true
          else semver_gt (version e) prev
      | None => Normal true
      end ;;
    Normal (if replace then map_set m key (version e) else m).

Fixpoint wanted_loop (m : JsMap string) (es : list NameVersion)
  : completion (JsMap string) :=
  match es with
  | e :: es' => m' <- wanted_step m e ;; wanted_loop m' es'
  | [] => Normal m
  end.

Definition wantedMaxVersion (es : list NameVersion) : completion (JsMap string) :=
  wanted_loop [] es.

(** *** The version matcher (the test of the worker's inner loop) *)

Definition isAffected (wanted : JsMap string) (nv : NameVersion)
  : completion bool :=
  let nameLower := toLowerCase (name nv) in
  match map_get wanted nameLower with
  | Some maxAllowed =>
      if negb (truthy maxAllowed) then Normal false
      else semver_lte (version nv) maxAllowed
  | None => Normal false
  end.

(** One turn of [for (const p of pkgs)]. *)
Definition scan_package (wanted : JsMap string) (foundPairs : JsSet)
  (p : SpdxPackage) : completion JsSet :=
  onv <- parsePkgNameVersionFromSpdx p ;;
  match onv with
  | None => Normal foundPairs
  | Some nv =>
      hit <- isAffected wanted nv ;;
      Normal (if hit
              then set_add foundPairs (keyNameVersion (name nv) (version nv))
              else foundPairs)
  end.

Fixpoint scan_packages (wanted : JsMap string) (foundPairs : JsSet)
  (pkgs : list SpdxPackage) : completion JsSet :=
  match pkgs with
  | p :: pkgs' =>
      f <- scan_package wanted foundPairs p ;; scan_packages wanted f pkgs'
  | [] => Normal foundPairs
  end.

End Scanner.

(** ** An implementation of the [semver] interface

    The strict grammar of the package,
    [v?MAJOR.MINOR.PATCH(-PRERELEASE)?(+BUILD)?] after trimming, with its
    limits on length and on the size of the three numbers, and the precedence
    of [SemVer.prototype.compare], which ignores the build.  Numeric
    identifiers are compared exactly here; the package rounds a prerelease
    number of 2^53 and above to a double first. *)

Module NodeSemver.

Inductive ident : Type :=
| INum (n : N)
| IStr (s : string).

Record t : Type := {
  major : N;
  minor : N;
  patch : N;
  prerelease : list ident;
  build : list string
}.

Definition MAX_LENGTH : Z := 256.
Definition MAX_SAFE_INTEGER : N := 9007199254740991%N.

Definition is_digit (c : ascii) : bool :=
  let n := nat_of_ascii c in ((48 <=? n) && (n <=? 57))%nat.

Definition is_letter_dash (c : ascii) : bool :=
  let n := nat_of_ascii c in
  (((65 <=? n) && (n <=? 90)) || ((97 <=? n) && (n <=? 122)) || (n =? 45))%nat.

Definition is_idchar (c : ascii) : bool := is_digit c || is_letter_dash c.

(** The alphabet of a version: identifier characters, [.] and [+]. *)
Definition is_semver_char (c : ascii) : bool :=
  is_idchar c || (nat_of_ascii c =? 46)%nat || (nat_of_ascii c =? 43)%nat.

Fixpoint forall_chars (f : ascii -> bool) (s : string) : bool :=
  match s with
  | String c s' => f c && forall_chars f s'
  | EmptyString => true
  end.

Fixpoint digits_value (s : string) (acc : N) : N :=
  match s with
  | String c s' => digits_value s' (10 * acc + (N_of_ascii c - 48))%N
  | EmptyString => acc
  end.

(** [0|[1-9]\d*]. *)
Definition numeric_identifier (s : string) : bool :=
  match s with
  | String c s' =>
      forall_chars is_digit s &&
      (negb (nat_of_ascii c =? 48)%nat || negb (truthy s'))
  | EmptyString => false
  end.

(** [s.split(c)]. *)
Fixpoint split_on (c : ascii) (s : string) : list string :=
  match s with
  | String d s' =>
      if Ascii.eqb d c then EmptyString :: split_on c s'
      else
        match split_on c s' with
        | l :: ls => String d l :: ls
        | [] => [String d EmptyString]
        end
  | EmptyString => [EmptyString]
  end.

(** The text before the first [c], and the text after it when there is one. *)
Fixpoint split_first (c : ascii) (s : string) : string * option string :=
  match s with
  | String d s' =>
      if Ascii.eqb d c then (EmptyString, Some s')
      else let (a, b) := split_first c s' in (String d a, b)
  | EmptyString => (EmptyString, None)
  end.

Definition parse_number (s : string) : option N :=
  if numeric_identifier s then
    let n := digits_value s 0 in
    if (n <=? MAX_SAFE_INTEGER)%N then Some n else None
  else None.

(** A prerelease identifier: numeric, or made of identifier characters with
    one that is no digit. *)
Definition parse_ident (s : string) : option ident :=
  if negb (truthy s) || negb (forall_chars is_idchar s) then None
  else if forall_chars is_digit s then
    if numeric_identifier s then Some (INum (digits_value s 0)) else None
  else Some (IStr s).

Fixpoint parse_idents (l : list string) : option (list ident) :=
  match l with
  | s :: l' =>
      match parse_ident s, parse_idents l' with
      | Some i, Some r => Some (i :: r)
      | _, _ => None
      end
  | [] => Some []
  end.

Definition build_ident (s : string) : bool :=
  truthy s && forall_chars is_idchar s.

Definition strip_v (s : string) : string :=
  match s with
  | String c s' => if (nat_of_ascii c =? 118)%nat then s' else s
  | EmptyString => s
  end.

Definition parse (v : string) : option t :=
  if MAX_LENGTH <? strlen v then None
  else
    let s := trim v in
    if negb (forall_chars is_semver_char s) then None
    else
      let (mp, b) := split_first "+"%char (strip_v s) in
      let (m, p) := split_first "-"%char mp in
      match split_on "."%char m with
      | [s1; s2; s3] =>
          match parse_number s1, parse_number s2, parse_number s3 with
          | Some n1, Some n2, Some n3 =>
              let pre :=
                match p with
                | Some ps => parse_idents (split_on "."%char ps)
                | None => Some []
                end in
              let bld :=
                match b with
                | Some bs =>
                    let ids := split_on "."%char bs in
                    if forallb build_ident ids then Some ids else None
                | None => Some []
                end in
              match pre, bld with
              | Some pr, Some bl =>
                  Some {| major := n1; minor := n2; patch := n3;
                          prerelease := pr; build := bl |}
              | _, _ => None
              end
          | _, _, _ => None
          end
      | _ => None
      end.

(** [compareIdentifiers]: numbers before strings, numbers by value, strings
    by code unit. *)
Definition cmp_ident (a b : ident) : comparison :=
  match a, b with
  | INum x, INum y => N.compare x y
  | INum _, IStr _ => Lt
  | IStr _, INum _ => Gt
  | IStr x, IStr y => String.compare x y
  end.

Fixpoint cmp_idents (l1 l2 : list ident) : comparison :=
  match l1, l2 with
  | [], [] => Eq
  | [], _ :: _ => Lt
  | _ :: _, [] => Gt
  | a :: l1', b :: l2' =>
      match cmp_ident a b with
      | Eq => cmp_idents l1' l2'
      | c => c
      end
  end.

(** [comparePre]: a version without prerelease is the greater one. *)
Definition cmp_pre (l1 l2 : list ident) : comparison :=
  match l1, l2 with
  | [], [] => Eq
  | [], _ :: _ => Gt
  | _ :: _, [] => Lt
  | _, _ => cmp_idents l1 l2
  end.

Definition lex (c : comparison) (d : comparison) : comparison :=
  match c with
  | Eq => d
  | _ => c
  end.

(** [compareMain] then [comparePre]. *)
Definition compare (x y : t) : comparison :=
  lex (N.compare (major x) (major y))
    (lex (N.compare (minor x) (minor y))
       (lex (N.compare (patch x) (patch y))
          (cmp_pre (prerelease x) (prerelease y)))).

End NodeSemver.

(** ** The promise pool

    [pool(items, limit, worker)] as a transition system.  A worker is a
    coroutine: [start] runs it up to its first [await]; each later resumption
    ([resume]) runs it, without interleaving, up to its next [await]
    ([Pending]) or to the settlement of its promise.  The main coroutine of
    [pool] moves between the program points [Pc]; it runs without
    interruption between two [await]s, so workers are resumed only while it
    is suspended in one.  The last resumption of a worker stands for the
    settlement of its promise together with the continuation of [runOne]
    that follows it ([results[idx] = r], [active.delete(p)]); the main
    coroutine reads nothing a worker writes but [active]. *)

(** The value of [limit]: any ECMAScript number. *)
Inductive JsNumber : Type :=
| NaN
| PosInf
| NegInf
| Finite (q : Q).

(** [n < limit] for a size [n]. *)
Definition size_lt (n : nat) (limit : JsNumber) : bool :=
  match limit with
  | NaN => false
  | PosInf => true
  | NegInf => false
  | Finite q => negb (Qle_bool q (inject_Z (Z.of_nat n)))
  end.

Inductive Wake : Type :=
| Asleep
| WokenOk
| WokenErr (e : JsError).

Inductive Pc : Type :=
| OuterTest                (* while (i < items.length) *)
| InnerTest                (* while (active.size < limit && i < items.length) *)
| IfActive                 (* if (active.size) *)
| AwaitRace (w : Wake)     (* await Promise.race(active), main loop *)
| DrainTest                (* while (active.size) *)
| AwaitDrain (w : Wake)    (* await Promise.race(active), drain *)
| Returned                 (* return results *)
| Failed (e : JsError).    (* the promise of pool is rejected *)

Section Pool.

Variables Item W R Sh : Type.

Inductive Outcome : Type :=
| Pending (w : W)
| Fulfilled (r : R)
| Rejected (e : JsError).

Variable start : Item -> nat -> W.
Variable resume : nat -> W -> Sh -> Sh * Outcome.

Record PoolState : Type := {
  pc : Pc;
  next : nat;                   (* i *)
  active : list (nat * W);      (* the pending promises, by index *)
  results : list (nat * R);     (* results[idx] = r *)
  shared : Sh
}.

Variable items : list Item.
Variable limit : JsNumber.

Definition pool_init (sh : Sh) : PoolState :=
  {| pc := OuterTest; next := 0; active := []; results := []; shared := sh |}.

Definition set_pc (p : Pc) (s : PoolState) : PoolState :=
  {| pc := p; next := next s; active := active s; results := results s;
     shared := shared s |}.

(** [void runOne(i++)]: the worker starts and its promise joins [active]. *)
Definition runOne (it : Item) (s : PoolState) : PoolState :=
  {| pc := pc s; next := S (next s);
     active := (active s ++ [(next s, start it (next s))])%list;
     results := results s; shared := shared s |}.

Definition after_await (w : Wake) (back : Pc) (s : PoolState)
  : option PoolState :=
  match w with
  | Asleep => None
  | WokenOk => Some (set_pc back s)
  | WokenErr e => Some (set_pc (Failed e) s)
  end.

(** One move of the main coroutine. *)
Definition main_step (s : PoolState) : option PoolState :=
  match pc s with
  | OuterTest =>
      if (next s <? length items)%nat then Some (set_pc InnerTest s)
      else Some (set_pc DrainTest s)
  | InnerTest =>
      if size_lt (length (active s)) limit && (next s <? length items)%nat then
        match nth_error items (next s) with
        | Some it => Some (runOne it s)
        | None => None
        end
      else Some (set_pc IfActive s)
  | IfActive =>
      if (length (active s) =? 0)%nat then Some (set_pc OuterTest s)
      else Some (set_pc (AwaitRace Asleep) s)
  | AwaitRace w => after_await w OuterTest s
  | DrainTest =>
      if (length (active s) =? 0)%nat then Some (set_pc Returned s)
      else Some (set_pc (AwaitDrain Asleep) s)
  | AwaitDrain w => after_await w DrainTest s
  | Returned => None
  | Failed _ => None
  end.

Fixpoint remove_nth {A : Type} (k : nat) (l : list A) : list A :=
  match k, l with
  | O, _ :: l' => l'
  | S k', a :: l' => a :: remove_nth k' l'
  | _, [] => []
  end.

Fixpoint replace_nth {A : Type} (k : nat) (a : A) (l : list A) : list A :=
  match k, l with
  | O, _ :: l' => a :: l'
  | S k', b :: l' => b :: replace_nth k' a l'
  | _, [] => []
  end.

(** The first settlement wakes the main coroutine and decides how the race
    settles. *)
Definition wake_with (w new : Wake) : Wake :=
  match w with
  | Asleep => new
  | _ => w
  end.

Definition wake_pc (p : Pc) (new : Wake) : Pc :=
  match p with
  | AwaitRace w => AwaitRace (wake_with w new)
  | AwaitDrain w => AwaitDrain (wake_with w new)
  | _ => p
  end.

Definition awaiting (p : Pc) : bool :=
  match p with
  | AwaitRace _ | AwaitDrain _ => true
  | _ => false
  end.

(** The [k]-th pending worker is resumed.  When its promise settles,
    [runOne] stores the result and deletes the promise from [active]. *)
Definition event_step (k : nat) (s : PoolState) : option PoolState :=
  if awaiting (pc s) then
    match nth_error (active s) k with
    | Some (idx, w) =>
        let (sh, o) := resume idx w (shared s) in
        match o with
        | Pending w' =>
            Some {| pc := pc s; next := next s;
                    active := replace_nth k (idx, w') (active s);
                    results := results s; shared := sh |}
        | Fulfilled r =>
            Some {| pc := wake_pc (pc s) WokenOk; next := next s;
                    active := remove_nth k (active s);
                    results := (results s ++ [(idx, r)])%list; shared := sh |}
        | Rejected e =>
            Some {| pc := wake_pc (pc s) (WokenErr e); next := next s;
                    active := remove_nth k (active s);
                    results := results s; shared := sh |}
        end
    | None => None
    end
  else None.

Definition pool_step (s s' : PoolState) : Prop :=
  main_step s = Some s' \/ exists k, event_step k s = Some s'.

Definition pool_reaches : PoolState -> PoolState -> Prop :=
  clos_refl_trans_n1 PoolState pool_step.

(** A run of the pool following a schedule: [None] moves the main
    coroutine, [Some k] resumes the [k]-th pending worker. *)
Fixpoint pool_run (sched : list (option nat)) (s : PoolState)
  : option PoolState :=
  match sched with
  | None :: sched' =>
      match main_step s with
      | Some s' => pool_run sched' s'
      | None => None
      end
  | Some k :: sched' =>
      match event_step k s with
      | Some s' => pool_run sched' s'
      | None => None
      end
  | [] => Some s
  end.

End Pool.

Arguments Pending {W R} w.
Arguments Fulfilled {W R} r.
Arguments Rejected {W R} e.
Arguments pc {W R Sh} p.
Arguments next {W R Sh} p.
Arguments active {W R Sh} p.
Arguments results {W R Sh} p.
Arguments shared {W R Sh} p.
Arguments pool_init {W R Sh} sh.
Arguments set_pc {W R Sh} p s.
Arguments runOne {Item W R Sh} start it s.
Arguments main_step {Item W R Sh} start items limit s.
Arguments event_step {W R Sh} resume k s.
Arguments pool_step {Item W R Sh} start resume items limit s s'.
Arguments pool_reaches {Item W R Sh} start resume items limit _ _.
Arguments pool_run {Item W R Sh} start resume items limit sched s.

(** ** The worker of the scan *)

Inductive Response : Type :=
| SbomOk (packages : list SpdxPackage)   (* res.data.sbom.packages *)
| SbomError (e : JsError).               (* the request throws *)

(** What the workers share: [affectedMap] and the error stream. *)
Record Shared : Type := {
  affectedMap : JsMap JsSet;
  console : list string
}.

Inductive WorkerState : Type :=
| AwaitRequest (repo : Repo)   (* await octokit.request(...) *)
| AwaitSleep.                  (* await sleep(1000) *)

(** [if (!affectedMap.has(pair)) affectedMap.set(pair, new Set());
    affectedMap.get(pair).add(full)]. *)
Definition add_affected (m : JsMap JsSet) (pr full : string) : JsMap JsSet :=
  let m' := if map_has m pr then m else map_set m pr [] in
  match map_get m' pr with
  | Some repos => map_set m' pr (set_add repos full)
  | None => m'
  end.

Fixpoint merge_found (m : JsMap JsSet) (foundPairs : JsSet) (full : string)
  : JsMap JsSet :=
  match foundPairs with
  | pr :: rest => merge_found (add_affected m pr full) rest full
  | [] => m
  end.

Definition decimal (n : N) : string := NilEmpty.string_of_uint (N.to_uint n).

(** [e?.status ? `${e.status}` : e?.message || "error"]. *)
Definition error_msg (e : JsError) : string :=
  match e with
  | HttpError (Some n) message _ =>
      if (n =? 0)%N then (if truthy message then message else "error")
      else decimal n
  | HttpError None message _ => if truthy message then message else "error"
  | URIError => "URI malformed"
  | TypeError message => if truthy message then message else "error"
  end.

(** [e?.status === 429 || (e?.response && e.response.headers?.["retry-after"])]. *)
Definition wants_backoff (e : JsError) : bool :=
  match e with
  | HttpError status _ retry_after =>
      match status with
      | Some n => (n =? 429)%N || retry_after
      | None => retry_after
      end
  | _ => false
  end.

Section Worker.

Context {SV : SemverLib}.
Variable ORG : string.
Variable wanted : JsMap string.
Variable responses : nat -> Response.

(** [repo.full_name || `${ORG}/${repo.name}`]. *)
Definition full_of (repo : Repo) : string :=
  match full_name repo with
  | Some f => if truthy f then f else ORG ++ "/" ++ repo_name repo
  | None => ORG ++ "/" ++ repo_name repo
  end.

(** The body of [try]. *)
Definition try_block (resp : Response) (full : string) (m : JsMap JsSet)
  : completion (JsMap JsSet) :=
  match resp with
  | SbomError e => Throw e
  | SbomOk pkgs =>
      foundPairs <- scan_packages wanted [] pkgs ;;
      Normal (merge_found m foundPairs full)
  end.

Definition worker_start (repo : Repo) (idx : nat) : WorkerState :=
  AwaitRequest repo.

Definition worker_resume (idx : nat) (w : WorkerState) (sh : Shared)
  : Shared * Outcome WorkerState unit :=
  match w with
  | AwaitRequest repo =>
      let full := full_of repo in
      match try_block (responses idx) full (affectedMap sh) with
      | Normal m =>
          ({| affectedMap := m; console := console sh |}, Fulfilled tt)
      | Throw e =>
          let sh' :=
            {| affectedMap := affectedMap sh;
               console := app (console sh)
                 ["SBOM fetch failed for " ++ full ++ ": " ++ error_msg e] |} in
          if wants_backoff e then (sh', Pending AwaitSleep)
          else (sh', Fulfilled tt)
      end
  | AwaitSleep => (sh, Fulfilled tt)
  end.

End Worker.

(** ** The report *)

Module MatchRecord.
Record t : Type := {
  package : string;
  version : string;
  repositories : list string
}.
End MatchRecord.

Record Output : Type := {
  org : string;
  input_entries : nat;
  repos_scanned : nat;
  matches : list MatchRecord.t
}.

(** [Array.prototype.sort] with a comparator.  The sort is stable; for a
    consistent comparator its result is the stable ordering, which the
    insertion below computes. *)
Fixpoint insert_by {A : Type} (cmp : A -> A -> comparison) (x : A) (l : list A)
  : list A :=
  match l with
  | y :: l' =>
      match cmp x y with
      | Gt => y :: insert_by cmp x l'
      | _ => x :: l
      end
  | [] => [x]
  end.

Fixpoint sortBy {A : Type} (cmp : A -> A -> comparison) (l : list A) : list A :=
  match l with
  | x :: l' => insert_by cmp x (sortBy cmp l')
  | [] => []
  end.

(** [Array.from(setRepos).sort()]: the default order, by code unit. *)
Definition sort_default (l : list string) : list string :=
  sortBy String.compare l.

(** One turn of [for (const [pair, setRepos] of affectedMap.entries())]. *)
Definition record_of (entry : string * JsSet) : MatchRecord.t :=
  let pr := fst entry in
  let at_ := lastIndexOf "@"%char pr in
  {| MatchRecord.package := slice pr 0 at_;
     MatchRecord.version := slice_from pr (at_ + 1);
     MatchRecord.repositories := sort_default (snd entry) |}.

Section Report.

Variable localeCompare : string -> string -> comparison.

(** The comparator of [matches.sort]. *)
Definition compare_matches (a b : MatchRecord.t) : comparison :=
  if String.eqb (MatchRecord.package a) (MatchRecord.package b)
  then localeCompare (MatchRecord.version a) (MatchRecord.version b)
  else localeCompare (MatchRecord.package a) (MatchRecord.package b).

Definition build_matches (affected : JsMap JsSet) : list MatchRecord.t :=
  sortBy compare_matches (map record_of affected).

End Report.

(** ** The whole program *)

Record Config : Type := {
  ORG : string;
  INCLUDE_FORKS : bool;
  INCLUDE_ARCHIVED : bool;
  CONCURRENCY : JsNumber
}.

Definition reposToScan (cfg : Config) (repos : list Repo) : list Repo :=
  filter (fun r =>
    if negb (INCLUDE_FORKS cfg) && fork r then false
    else if negb (INCLUDE_ARCHIVED cfg) && archived r then false
    else true) repos.

Section Program.

Context {SV : SemverLib}.
Variable localeCompare : string -> string -> comparison.
Variable cfg : Config.
Variable text : string.                 (* readFileSync(IN, "utf8") *)
Variable repos : list Repo.             (* the paginated listing *)
Variable responses : nat -> Response.   (* the SBOM answer per scanned index *)

Definition ScanState : Type := PoolState WorkerState unit Shared.

Definition scan_init : ScanState :=
  pool_init {| affectedMap := []; console := [] |}.

Definition scan_step (wanted : JsMap string) : ScanState -> ScanState -> Prop :=
  pool_step worker_start (worker_resume (ORG cfg) wanted responses)
    (reposToScan cfg repos) (CONCURRENCY cfg).

Definition scan_reaches (wanted : JsMap string) : ScanState -> ScanState -> Prop :=
  clos_refl_trans_n1 ScanState (scan_step wanted).

Definition scan_run (wanted : JsMap string) (sched : list (option nat))
  : option ScanState :=
  pool_run worker_start (worker_resume (ORG cfg) wanted responses)
    (reposToScan cfg repos) (CONCURRENCY cfg) sched scan_init.

(** The object handed to [writeFileSync], without the time stamp and the
    host name. *)
Definition build_out (affected : JsMap JsSet) : Output :=
  {| org := ORG cfg;
     input_entries := length (entries text);
     repos_scanned := length (reposToScan cfg repos);
     matches := build_matches localeCompare affected |}.

(** The program writes [out]: the index is built, the pool returns, the
    report is assembled from the accumulated map. *)
Definition writes (out : Output) : Prop :=
  exists wanted final,
    wantedMaxVersion (entries text) = Normal wanted /\
    scan_reaches wanted scan_init final /\
    pc final = Returned /\
    out = build_out (affectedMap (shared final)).

End Program.

(** ** The purl builder *)

(** [s.split(c)] for a one-character separator. *)
Definition split (c : ascii) (s : string) : list string :=
  NodeSemver.split_on c s.

(** [npmPurl(name, version)]: [None] is [null].  The destructuring
    [[scope, pkg]] takes the first two pieces of the split and drops the
    others. *)
Definition npmPurl (name version : string) : option string :=
  if startsWith name "@" then
    match split "/"%char (slice_from name 1) with
    | scope :: pkg :: _ =>
        if negb (truthy scope) || negb (truthy pkg) then None
        else Some ("pkg:npm/%40" ++ scope ++ "/" ++ pkg ++ "@" ++ version)
    | _ => None
    end
  else Some ("pkg:npm/" ++ name ++ "@" ++ version).

(** ** The command line and the start-up checks *)

(** The value of a property of [args]: a string, or [true] for an argument
    without [=]. *)
Inductive ArgValue : Type :=
| ArgStr (s : string)
| ArgTrue.

Fixpoint indexOf_from (c : ascii) (s : string) (i : Z) : Z :=
  match s with
  | String d s' => if Ascii.eqb d c then i else indexOf_from c s' (i + 1)
  | EmptyString => -1
  end.

(** [s.indexOf(c)] for a one-character needle: [-1] when absent. *)
Definition indexOf (c : ascii) (s : string) : Z := indexOf_from c s 0.

(** The match of line 47 and its two groups: two dashes, a key that is not
    empty and ends at the first [=], the [=], and a value that is the rest
    and holds no line terminator. *)
Definition match_arg (a : string) : option (string * string) :=
  if prefix "--" a then
    let body := slice_from a 2 in
    let eq_ := indexOf "="%char body in
    if eq_ <=? 0 then None
    else
      let v := slice_from body (eq_ + 1) in
      if has_line_terminator v then None
      else Some (slice body 0 eq_, v)
  else None.

(** [a.replace(/^--/, "")]. *)
Definition strip_dashes (a : string) : string :=
  if prefix "--" a then slice_from a 2 else a.

(** The pair that one argument contributes to [args]. *)
Definition parse_arg (a : string) : string * ArgValue :=
  match match_arg a with
  | Some (k, v) => (k, ArgStr v)
  | None => (strip_dashes a, ArgTrue)
  end.

(** [Object.fromEntries(argv.map(...))]: a later pair replaces an earlier
    one of the same key. *)
Definition args_of (argv : list string) : JsMap ArgValue :=
  fold_left (fun m a => map_set m (fst (parse_arg a)) (snd (parse_arg a)))
    argv [].

Definition truthy_arg (v : ArgValue) : bool :=
  match v with
  | ArgStr s => truthy s
  | ArgTrue => true
  end.

(** [Boolean(args[key])]. *)
Definition flag (args : JsMap ArgValue) (key : string) : bool :=
  match map_get args key with
  | Some v => truthy_arg v
  | None => false
  end.

(** [args[key] || fallback]. *)
Definition arg_or {A : Type} (args : JsMap ArgValue) (key : string)
  (inj : ArgValue -> A) (fallback : A) : A :=
  match map_get args key with
  | Some v => if truthy_arg v then inj v else fallback
  | None => fallback
  end.

(** The string a template literal makes of the value. *)
Definition arg_string (v : ArgValue) : string :=
  match v with
  | ArgStr s => s
  | ArgTrue => "true"
  end.

(** The part of [process.env] the script reads. *)
Record Env : Type := {
  env_ORG : option string;
  env_GITHUB_TOKEN : option string
}.

(** How the script leaves its start-up: it exits with a message on the error
    stream, or goes on with its settings.  [ORG] is kept as the string the
    worker makes of it. *)
Inductive Startup : Type :=
| Exit (code : Z) (message : string)
| Start (cfg : Config) (IN OUT : ArgValue).

Section CommandLine.

(** [Number(s)] for a string. *)
Variable Number_of_string : string -> JsNumber.

(** [Number(args.concurrency ?? 6)]. *)
Definition concurrency_of (args : JsMap ArgValue) : JsNumber :=
  match map_get args "concurrency" with
  | Some (ArgStr s) => Number_of_string s
  | Some ArgTrue => Finite 1
  | None => Finite 6
  end.

(** Lines 45 to 65 of the script. *)
Definition startup (argv : list string) (env : Env) : Startup :=
  let args := args_of argv in
  let ORG := arg_or args "org" Some (option_map ArgStr (env_ORG env)) in
  let IN := arg_or args "in" id (ArgStr "affected.txt") in
  let OUT := arg_or args "out" id (ArgStr "matches.json") in
  match ORG with
  | Some org_ =>
      if negb (truthy_arg org_) then Exit 1 "Missing --org or environment ORG"
      else if negb (truthy (or_empty (env_GITHUB_TOKEN env)))
      then Exit 1 "Missing GITHUB_TOKEN env"
      else Start {| ORG := arg_string org_;
                    INCLUDE_FORKS := flag args "include-forks";
                    INCLUDE_ARCHIVED := flag args "include-archived";
                    CONCURRENCY := concurrency_of args |} IN OUT
  | None => Exit 1 "Missing --org or environment ORG"
  end.

End CommandLine.


(** ** The record parser on an element that may be [null]

    The packages come from a JSON document.  An [SpdxPackage] stands for an
    element whose properties can be read and whose name and version are
    strings or missing; on the element [null] the parser throws at its first
    line, where it reads [p.name]. *)
Definition null_element_error : JsError :=
  TypeError "Cannot read properties of null (reading 'name')".

Section Elements.

Context {SV : SemverLib}.

(** [parsePkgNameVersionFromSpdx(p)] for [p] an element or [null]. *)
Definition parseElement (p : option SpdxPackage)
  : completion (option NameVersion) :=
  match p with
  | Some q => parsePkgNameVersionFromSpdx q
  | None => Throw null_element_error
  end.

End Elements.
(** * The vocabulary of the properties *)

(** ** Comparators *)

(** A comparator that is a total preorder. *)
Record cmp_ok {A : Type} (cmp : A -> A -> comparison) : Prop := {
  cmp_antisym : forall x y, cmp y x = CompOpp (cmp x y);
  cmp_trans : forall c x y z, cmp x y = c -> cmp y z = c -> cmp x z = c
}.

Definition lex_pair {A B : Type} (ca : A -> A -> comparison)
  (cb : B -> B -> comparison) (p q : A * B) : comparison :=
  NodeSemver.lex (ca (fst p) (fst q)) (cb (snd p) (snd q)).

(** What [NodeSemver.compare] looks at. *)
Definition semver_key (x : NodeSemver.t) : N * (N * (N * list NodeSemver.ident)) :=
  (NodeSemver.major x,
   (NodeSemver.minor x, (NodeSemver.patch x, NodeSemver.prerelease x))).

(** The order of a comparator: [x] is not after [y]. *)
Definition le_by {A : Type} (cmp : A -> A -> comparison) (x y : A) : Prop :=
  cmp x y <> Gt.

(** ** The watch list and the watch index *)

Section IndexVocabulary.

Context {SV : SemverLib}.

(** [a] is at most [b] in semantic-version precedence. *)
Definition semver_le (a b : string) : Prop :=
  exists x y, semver_parse a = Some x /\ semver_parse b = Some y /\
              semver_compare x y <> Gt.

(** Equal precedence. *)
Definition semver_equiv (a b : string) : Prop :=
  semver_le a b /\ semver_le b a.

(** The entries of the watch list that count for the key [k]. *)
Definition listed (es : list NameVersion) (k v : string) : Prop :=
  exists e, In e es /\ toLowerCase (name e) = k /\ version e = v /\
            semver_valid v = true.

(** Every ceiling of the index is a valid version. *)
Definition all_valid (m : JsMap string) : Prop :=
  forall k v, map_get m k = Some v -> semver_valid v = true.

(** The invariant of the loop, after the entries [es]. *)
Record index_of (es : list NameVersion) (m : JsMap string) : Prop := {
  idx_valid : all_valid m;
  idx_nodup : NoDup (map fst m);
  idx_listed : forall k v, map_get m k = Some v -> listed es k v;
  idx_ceiling : forall k u, listed es k u ->
    exists v, map_get m k = Some v /\ semver_le u v
}.

End IndexVocabulary.

(** The line is accepted by [parseLine]. *)
Definition parses (line : string) : bool :=
  match parseLine line with
  | Some _ => true
  | None => false
  end.

(** An external reference of type [purl]. *)
Definition purl_ref (locator : string) : ExternalRef :=
  {| referenceType := Some "purl"; referenceLocator := Some locator |}.

(** ** The pool *)

(** The limit is 0, negative or NaN. *)
Definition no_capacity (limit : JsNumber) : Prop :=
  match limit with
  | NaN => True
  | NegInf => True
  | PosInf => False
  | Finite q => (q <= 0)%Q
  end.

(** Nothing has been rejected so far. *)
Definition no_failure (p : Pc) : Prop :=
  match p with
  | Failed _ | AwaitRace (WokenErr _) | AwaitDrain (WokenErr _) => False
  | _ => True
  end.

(** The pool has returned or failed. *)
Definition final (p : Pc) : Prop :=
  p = Returned \/ exists e, p = Failed e.

(** The place of a program point in one round of the main coroutine. *)
Definition rank (p : Pc) : nat :=
  match p with
  | OuterTest => 4
  | InnerTest => 3
  | IfActive => 2
  | AwaitRace Asleep => 1
  | AwaitRace _ => 5
  | DrainTest => 3
  | AwaitDrain Asleep => 1
  | AwaitDrain _ => 5
  | Returned => 0
  | Failed _ => 0
  end.

Section PoolVocabulary.

Variables Item W R Sh : Type.
Variable start : Item -> nat -> W.
Variable resume : nat -> W -> Sh -> Sh * Outcome W R.
Variable items : list Item.
Variable limit : JsNumber.

Local Abbreviation State := (PoolState W R Sh).

(** The shapes a transition can take. *)
Inductive step_kind (s s' : State) : Prop :=
| KJump (p : Pc) (Hs : s' = set_pc p s)
    (Hm : main_step start items limit s = Some s')
| KSpawn (it : Item)
    (Hpc : pc s = InnerTest)
    (Hcap : size_lt (length (active s)) limit = true)
    (Hit : nth_error items (next s) = Some it)
    (Hs : s' = runOne start it s)
| KEvent (k idx : nat) (w : W) (sh : Sh) (o : Outcome W R)
    (Hpc : awaiting (pc s) = true)
    (Hk : nth_error (active s) k = Some (idx, w))
    (Hr : resume idx w (shared s) = (sh, o))
    (Hs : s' =
          match o with
          | Pending w' =>
              {| pc := pc s; next := next s;
                 active := replace_nth k (idx, w') (active s);
                 results := results s; shared := sh |}
          | Fulfilled r =>
              {| pc := wake_pc (pc s) WokenOk; next := next s;
                 active := remove_nth k (active s);
                 results := (results s ++ [(idx, r)])%list; shared := sh |}
          | Rejected e =>
              {| pc := wake_pc (pc s) (WokenErr e); next := next s;
                 active := remove_nth k (active s);
                 results := results s; shared := sh |}
          end).

(** Where the main coroutine can be, given the queue and the pending set. *)
Definition main_inv (s : State) : Prop :=
  (next s <= length items)%nat /\
  match pc s with
  | IfActive =>
      (next s < length items)%nat -> size_lt (length (active s)) limit = false
  | AwaitRace Asleep =>
      active s <> [] /\
      ((next s < length items)%nat -> size_lt (length (active s)) limit = false)
  | AwaitDrain Asleep => active s <> [] /\ next s = length items
  | DrainTest | AwaitDrain _ => next s = length items
  | Returned => next s = length items /\ active s = []
  | _ => True
  end.

(** No worker has been started and the main coroutine is at a test. *)
Definition spinning (sh0 : Sh) (s : State) : Prop :=
  next s = 0%nat /\ active s = [] /\ results s = [] /\ shared s = sh0 /\
  (pc s = OuterTest \/ pc s = InnerTest \/ pc s = IfActive).

(** The started indices are the fulfilled and the pending ones. *)
Definition settled_inv (s : State) : Prop :=
  Permutation (map fst (results s) ++ map fst (active s)) (seq 0 (next s)) /\
  no_failure (pc s).

(** The main coroutine never tests an empty pending set with work left. *)
Definition live_inv (s : State) : Prop :=
  match pc s with
  | InnerTest => (next s < length items)%nat \/ active s <> []
  | IfActive => active s <> []
  | _ => True
  end.

(** The size of a worker bounds the resumptions it still needs. *)
Variable wsize : W -> nat.

(** The work left in the queue from index [j] on. *)
Fixpoint qweight (j : nat) (l : list Item) : nat :=
  match l with
  | it :: l' => 2 + wsize (start it j) + qweight (S j) l'
  | [] => 0
  end.

(** The work left in the pending workers. *)
Definition aweight (l : list (nat * W)) : nat :=
  list_sum (map (fun x => S (wsize (snd x))) l).

(** A measure that every transition decreases. *)
Definition measure (s : State) : nat :=
  6 * (qweight (next s) (skipn (next s) items) + aweight (active s))
  + rank (pc s).

End PoolVocabulary.

Arguments step_kind {Item W R Sh} start resume items limit s s'.
Arguments main_inv {Item W R Sh} items limit s.
Arguments spinning {W R Sh} sh0 s.
Arguments settled_inv {W R Sh} s.
Arguments live_inv {Item W R Sh} items s.
Arguments qweight {Item W} start wsize j l.
Arguments aweight {W} wsize l.
Arguments measure {Item W R Sh} start items wsize s.

(** ** The scan *)

(** [full] is in the set stored under [key]. *)
Definition member (m : JsMap JsSet) (key full : string) : Prop :=
  exists repos, map_get m key = Some repos /\ In full repos.

(** The keys are distinct and every set is duplicate-free and non-empty. *)
Definition wf_affected (m : JsMap JsSet) : Prop :=
  NoDup (map fst m) /\
  forall k repos, map_get m k = Some repos -> NoDup repos /\ repos <> [].

Definition worker_size (w : WorkerState) : nat :=
  match w with
  | AwaitRequest _ => 1
  | AwaitSleep => 0
  end.

(** Some pending worker of index [i] still awaits its request. *)
Definition requesting (act : list (nat * WorkerState)) (i : nat) : Prop :=
  exists repo, In (i, AwaitRequest repo) act.

(** The worker of index [i] has been started and its request has been
    answered. *)
Definition processed (s : ScanState) (i : nat) : Prop :=
  (i < next s)%nat /\ ~ requesting (active s) i.

Section ScanVocabulary.

Context {SV : SemverLib}.
Variable cfg : Config.
Variable repos : list Repo.
Variable responses : nat -> Response.
Variable wanted : JsMap string.

(** What the [try] block finds for a response, before the merge. *)
Definition found_of (resp : Response) : completion JsSet :=
  match resp with
  | SbomError e => Throw e
  | SbomOk pkgs => scan_packages wanted [] pkgs
  end.

(** The pair [nv] is discovered in [pkgs] and matches the watch index. *)
Definition discovered (pkgs : list SpdxPackage) (nv : NameVersion) : Prop :=
  exists p, In p pkgs /\
    parsePkgNameVersionFromSpdx p = Normal (Some nv) /\
    isAffected wanted nv = Normal true.

(** The line written to the error stream for a failed repository. *)
Definition failure_line (repo : Repo) (e : JsError) : string :=
  "SBOM fetch failed for " ++ full_of (ORG cfg) repo ++ ": " ++ error_msg e.

(** Repository [idx] answered, the scan of its packages found [key]. *)
Definition hit (s : ScanState) (key full : string) : Prop :=
  exists idx repo found,
    processed s idx /\ nth_error (reposToScan cfg repos) idx = Some repo /\
    found_of (responses idx) = Normal found /\
    In key found /\ full = full_of (ORG cfg) repo.

(** The invariant of the scan. *)
Record scan_inv (s : ScanState) : Prop := {
  inv_wf : wf_affected (affectedMap (shared s));
  inv_active : forall idx repo,
    In (idx, AwaitRequest repo) (active s) -> nth_error (reposToScan cfg repos) idx = Some repo;
  inv_member : forall key full,
    member (affectedMap (shared s)) key full <-> hit s key full;
  inv_console : forall idx repo e,
    processed s idx -> nth_error (reposToScan cfg repos) idx = Some repo ->
    found_of (responses idx) = Throw e ->
    In (failure_line repo e) (console (shared s))
}.

End ScanVocabulary.

(** ** A concrete run *)

Definition cfg0 : Config :=
  {| ORG := "org"; INCLUDE_FORKS := false; INCLUDE_ARCHIVED := false;
     CONCURRENCY := Finite 6 |}.

Definition left_pad_130 : NameVersion :=
  {| name := "left-pad"; version := "1.3.0" |}.

Definition pkg_build_1 : NameVersion :=
  {| name := "pkg"; version := "1.0.0+build.1" |}.
Definition pkg_build_2 : NameVersion :=
  {| name := "pkg"; version := "1.0.0+build.2" |}.

Definition repoA : Repo :=
  {| repo_name := "repoA"; full_name := Some "org/repoA";
     fork := false; archived := false |}.

Definition pkg_Left_Pad : SpdxPackage :=
  {| p_name := Some "Left-Pad"; p_versionInfo := Some "1.1.0";
     p_externalRefs := [] |}.

Definition text0 : string := "left-pad@1.3.0".
Definition wanted0 : JsMap string := [("left-pad", "1.3.0")].
Definition responses0 (idx : nat) : Response := SbomOk [pkg_Left_Pad].

(** The main coroutine starts the one worker and goes to sleep; the worker
    is resumed with its response; the main coroutine wakes, drains and
    returns. *)
Definition sched0 : list (option nat) :=
  [None; None; None; None; Some 0%nat; None; None; None].

(** The state in which the pool returns on [sched0]. *)
Definition final0 : ScanState :=
  {| pc := Returned; next := 1; active := []; results := [(0%nat, tt)];
     shared := {| affectedMap := [("left-pad@1.1.0", ["org/repoA"])];
                  console := [] |} |}.

(** The report written from [final0]. *)
Definition out0 : Output :=
  {| org := "org"; input_entries := 1; repos_scanned := 1;
     matches := [ {| MatchRecord.package := "left-pad";
                     MatchRecord.version := "1.1.0";
                     MatchRecord.repositories := ["org/repoA"] |} ] |}.

(** Three turns of the main loop with the limit NaN. *)
Definition spin3 : PoolState WorkerState unit Shared :=
  {| pc := OuterTest; next := 0; active := []; results := [];
     shared := {| affectedMap := []; console := [] |} |}.


(** ** Further vocabulary *)

Section FirstKept.

Context {SV : SemverLib}.

(** Every ceiling of the index is the version of an entry of the list
    before which no valid version of the same name is at least as high: of
    the entries of highest precedence the first one is kept. *)
Definition first_kept (es : list NameVersion) (m : JsMap string) : Prop :=
  forall k v, map_get m k = Some v ->
    exists pre e post,
      es = (pre ++ e :: post)%list /\
      toLowerCase (name e) = k /\ version e = v /\
      forall u, listed pre k u -> ~ semver_le v u.

End FirstKept.

(** ** The scan of one SBOM *)

Section ScanSpecVocabulary.

Context {SV : SemverLib}.

(** No record of the list makes the parser throw. *)
Definition parsed_cleanly (pkgs : list SpdxPackage) : Prop :=
  forall p, In p pkgs -> forall e, parsePkgNameVersionFromSpdx p <> Throw e.

(** The purl that the fallback would read, if there is one, holds no
    percent sign. *)
Definition no_escape (p : SpdxPackage) : Prop :=
  forall r purl,
    find is_purl_ref (p_externalRefs p) = Some r ->
    referenceLocator r = Some purl ->
    contains_char percent purl = false.

(** The pair [nv] is what the parser makes of a record of [pkgs], its
    lowercased name has a ceiling in the index and its version is at most
    that ceiling. *)
Definition expected (wanted : JsMap string) (pkgs : list SpdxPackage)
  (nv : NameVersion) : Prop :=
  exists p, In p pkgs /\
    parsePkgNameVersionFromSpdx p = Normal (Some nv) /\
    exists V, map_get wanted (toLowerCase (name nv)) = Some V /\
              semver_le (version nv) V.

End ScanSpecVocabulary.

(** Every octet of the text is below 128. *)
Definition ascii_only (s : string) : bool :=
  NodeSemver.forall_chars (fun c => (nat_of_ascii c <? 128)%nat) s.

(** A string of white space only. *)
Definition blank (w : string) : bool := NodeSemver.forall_chars is_ws w.

(** No white space in front. *)
Definition lead_ok (s : string) : bool :=
  match s with
  | String c _ => negb (is_ws c)
  | EmptyString => true
  end.

(** The entries [parseLine] can return: both fields trimmed and not empty,
    no [#] in front of the name, no [@] in the version. *)
Definition canonical_entry (e : NameVersion) : Prop :=
  name e <> EmptyString /\ trim (name e) = name e /\
  startsWith (name e) "#" = false /\
  version e <> EmptyString /\ trim (version e) = version e /\
  contains_char "@"%char (version e) = false.

(** A watch-list line: a name, an [@] and a version, with white space around
    each of them. *)
Definition line_of (w1 n w2 w3 v w4 : string) : string :=
  w1 ++ n ++ w2 ++ "@" ++ w3 ++ v ++ w4.

(** The line [l] is made of the name [n], an [@] and the version [v], with
    white space around each of them, and the two form a canonical entry. *)
Definition watch_line (l n v : string) : Prop :=
  canonical_entry {| name := n; version := v |} /\
  exists w1 w2 w3 w4,
    blank w1 = true /\ blank w2 = true /\ blank w3 = true /\
    blank w4 = true /\ l = line_of w1 n w2 w3 v w4.

Definition LF : string := String "010"%char EmptyString.
Definition CR : string := String "013"%char EmptyString.
Definition CRLF : string := String "013"%char LF.

(** Two lines that differ by at most one carriage return at the end. *)
Definition cr_rel (l l' : string) : Prop := l' = l \/ l' = l ++ CR.

(** A worker is started only below the limit: the pending set is empty or
    its size less one is below the limit; and when the main coroutine has
    been woken in its first loop, the size itself is below the limit. *)
Section Capacity.

Variables W R Sh : Type.
Variable limit : JsNumber.

Definition cap_inv (s : PoolState W R Sh) : Prop :=
  (active s = [] \/ size_lt (pred (length (active s))) limit = true) /\
  match pc s with
  | AwaitRace WokenOk | AwaitRace (WokenErr _) =>
      size_lt (length (active s)) limit = true
  | _ => True
  end.

End Capacity.

Arguments cap_inv {W R Sh} limit s.

(** Nothing is pending that was not started, and the pool waits in its
    first loop only when the queue is used up. *)
Section FanOut.

Variables Item W R Sh : Type.
Variable items : list Item.

Definition fan_out_inv (s : PoolState W R Sh) : Prop :=
  (length (active s) <= next s)%nat /\
  match pc s with
  | IfActive | AwaitRace _ => next s = length items
  | _ => True
  end.

End FanOut.

Arguments fan_out_inv {Item W R Sh} items s.

(** ** Further concrete runs *)

Definition two_repos : list Repo :=
  [repoA; {| repo_name := "repoB"; full_name := None;
             fork := false; archived := false |}].

Definition waiting2 : ScanState :=
  {| pc := AwaitRace Asleep; next := 2;
     active := [(0%nat, AwaitRequest repoA);
                (1%nat, AwaitRequest
                   {| repo_name := "repoB"; full_name := None;
                      fork := false; archived := false |})];
     results := []; shared := {| affectedMap := []; console := [] |} |}.

(** A run whose only request is answered with 404. *)
Definition responses_404 (idx : nat) : Response :=
  SbomError (HttpError (Some 404%N) "Not Found" false).

Definition failed0 : ScanState :=
  {| pc := Returned; next := 1; active := []; results := [(0%nat, tt)];
     shared := {| affectedMap := [];
                  console := ["SBOM fetch failed for org/repoA: 404"] |} |}.

Definition repoB : Repo :=
  {| repo_name := "repoB"; full_name := None;
     fork := false; archived := false |}.

(** An SBOM that lists the same package and version twice. *)
Definition responses_dup (idx : nat) : Response :=
  SbomOk [pkg_Left_Pad; pkg_Left_Pad].

(** A record without a declared pair whose purl has a malformed escape. *)
Definition pkg_bad_purl : SpdxPackage :=
  {| p_name := None; p_versionInfo := None;
     p_externalRefs := [purl_ref "pkg:npm/%@1.0.0"] |}.

(** The same SBOM with such a record after the two. *)
Definition responses_dup_bad (idx : nat) : Response :=
  SbomOk [pkg_Left_Pad; pkg_Left_Pad; pkg_bad_purl].

(** The state in which the pool returns on [sched0] for that SBOM, and the
    report written from it. *)
Definition final_lost : ScanState :=
  {| pc := Returned; next := 1; active := []; results := [(0%nat, tt)];
     shared := {| affectedMap := [];
                  console :=
                    ["SBOM fetch failed for org/repoA: URI malformed"] |} |}.

Definition out_lost : Output :=
  {| org := "org"; input_entries := 1; repos_scanned := 1; matches := [] |}.


(** Three repositories and room for two operations: the state in which the
    main coroutine sleeps with two requests pending and one repository left
    in the queue. *)
Definition repoC : Repo :=
  {| repo_name := "repoC"; full_name := None;
     fork := false; archived := false |}.

Definition cfg2 : Config :=
  {| ORG := "org"; INCLUDE_FORKS := false; INCLUDE_ARCHIVED := false;
     CONCURRENCY := Finite 2 |}.

Definition full2 : ScanState :=
  {| pc := AwaitRace Asleep; next := 2;
     active := [(0%nat, AwaitRequest repoA); (1%nat, AwaitRequest repoB)];
     results := []; shared := {| affectedMap := []; console := [] |} |}.
(** * Properties *)

(** ** Comparisons that are total preorders *)

Lemma cmp_ok_eq_l {A : Type} (cmp : A -> A -> comparison) (x y z : A) :
  cmp_ok cmp -> cmp x y = Eq -> cmp x z = cmp y z.
Proof.
  intros [Ha Ht] Hxy.
  assert (Hyx : cmp y x = Eq) by (rewrite Ha, Hxy; reflexivity).
  destruct (cmp y z) eqn:Hyz.
  - apply (Ht Eq x y z); assumption.
  - destruct (cmp x z) eqn:Hxz; trivial.
    + rewrite (Ht Eq y x z Hyx Hxz) in Hyz. discriminate.
    + assert (Hzx : cmp z x = Lt) by (rewrite Ha, Hxz; reflexivity).
      rewrite (Ht Lt y z x Hyz Hzx) in Hyx. discriminate.
  - destruct (cmp x z) eqn:Hxz; trivial.
    + rewrite (Ht Eq y x z Hyx Hxz) in Hyz. discriminate.
    + assert (Hzy : cmp z y = Lt) by (rewrite Ha, Hyz; reflexivity).
      rewrite (Ht Lt x z y Hxz Hzy) in Hxy. discriminate.
Qed.

Lemma cmp_ok_eq_r {A : Type} (cmp : A -> A -> comparison) (x y z : A) :
  cmp_ok cmp -> cmp y z = Eq -> cmp x y = cmp x z.
Proof.
  intros Hok Hyz.
  assert (H : cmp y x = cmp z x) by (apply cmp_ok_eq_l; assumption).
  rewrite (cmp_antisym cmp Hok y x), (cmp_antisym cmp Hok z x), H.
  reflexivity.
Qed.

Lemma cmp_ok_le_trans {A : Type} (cmp : A -> A -> comparison) (x y z : A) :
  cmp_ok cmp -> cmp x y <> Gt -> cmp y z <> Gt -> cmp x z <> Gt.
Proof.
  intros Hok Hxy Hyz.
  destruct (cmp x y) eqn:E1; try congruence.
  - rewrite (cmp_ok_eq_l cmp x y z Hok E1). assumption.
  - destruct (cmp y z) eqn:E2; try congruence.
    + rewrite <- (cmp_ok_eq_r cmp x y z Hok E2), E1. discriminate.
    + rewrite (cmp_trans cmp Hok Lt x y z E1 E2). discriminate.
Qed.

Lemma lex_pair_ok {A B : Type} (ca : A -> A -> comparison)
  (cb : B -> B -> comparison) :
  cmp_ok ca -> cmp_ok cb -> cmp_ok (lex_pair ca cb).
Proof.
  intros Ha Hb. split.
  - intros [a b] [a' b']. unfold lex_pair; simpl.
    rewrite (cmp_antisym ca Ha a a').
    destruct (ca a a'); simpl; trivial. apply (cmp_antisym cb Hb).
  - intros c [a b] [a' b'] [a'' b'']. unfold lex_pair; simpl.
    destruct (ca a a') eqn:E1; simpl.
    + rewrite (cmp_ok_eq_l ca a a' a'' Ha E1).
      destruct (ca a' a''); simpl; intros; subst; try congruence.
      eapply (cmp_trans cb Hb); eauto.
    + intros <-. destruct (ca a' a'') eqn:E2; simpl; intros H.
      * rewrite <- (cmp_ok_eq_r ca a a' a'' Ha E2), E1. reflexivity.
      * rewrite (cmp_trans ca Ha Lt a a' a'' E1 E2). reflexivity.
      * discriminate.
    + intros <-. destruct (ca a' a'') eqn:E2; simpl; intros H.
      * rewrite <- (cmp_ok_eq_r ca a a' a'' Ha E2), E1. reflexivity.
      * discriminate.
      * rewrite (cmp_trans ca Ha Gt a a' a'' E1 E2). reflexivity.
Qed.

Lemma cmp_ok_map {A B : Type} (f : A -> B) (cmp : B -> B -> comparison) :
  cmp_ok cmp -> cmp_ok (fun x y => cmp (f x) (f y)).
Proof.
  intros [Ha Ht]. split; intros; eauto.
Qed.

Lemma N_compare_ok : cmp_ok N.compare.
Proof.
  split.
  - intros x y. apply N.compare_antisym.
  - intros [] x y z H1 H2.
    + apply N.compare_eq_iff in H1, H2. subst. apply N.compare_refl.
    + rewrite N.compare_lt_iff in *. lia.
    + rewrite N.compare_gt_iff in *. lia.
Qed.

Lemma Ascii_compare_ok : cmp_ok Ascii.compare.
Proof.
  exact (cmp_ok_map N_of_ascii N.compare N_compare_ok).
Qed.

Lemma String_compare_ok : cmp_ok String.compare.
Proof.
  split.
  - intros x y. apply String.compare_antisym.
  - intros c x. induction x as [|a x IH]; intros [|b y] [|d z]; simpl;
      try congruence.
    destruct (Ascii.compare a b) eqn:E1.
    + rewrite (cmp_ok_eq_l Ascii.compare a b d Ascii_compare_ok E1).
      destruct (Ascii.compare b d); try congruence. apply IH.
    + intros <-. destruct (Ascii.compare b d) eqn:E2; intros H.
      * rewrite <- (cmp_ok_eq_r Ascii.compare a b d Ascii_compare_ok E2), E1.
        reflexivity.
      * rewrite (cmp_trans _ Ascii_compare_ok Lt a b d E1 E2). reflexivity.
      * discriminate.
    + intros <-. destruct (Ascii.compare b d) eqn:E2; intros H.
      * rewrite <- (cmp_ok_eq_r Ascii.compare a b d Ascii_compare_ok E2), E1.
        reflexivity.
      * discriminate.
      * rewrite (cmp_trans _ Ascii_compare_ok Gt a b d E1 E2). reflexivity.
Qed.

(** ** The implementation satisfies the interface *)

Lemma cmp_ident_ok : cmp_ok NodeSemver.cmp_ident.
Proof.
  split.
  - intros [x|x] [y|y]; simpl; trivial.
    + apply (cmp_antisym _ N_compare_ok).
    + apply (cmp_antisym _ String_compare_ok).
  - intros c [x|x] [y|y] [z|z]; simpl; try congruence.
    + apply (cmp_trans _ N_compare_ok).
    + apply (cmp_trans _ String_compare_ok).
Qed.

Lemma cmp_idents_ok : cmp_ok NodeSemver.cmp_idents.
Proof.
  pose proof cmp_ident_ok as Hi. split.
  - intros x. induction x as [|a x IH]; intros [|b y]; simpl; trivial.
    rewrite (cmp_antisym _ Hi a b).
    destruct (NodeSemver.cmp_ident a b); simpl; trivial.
  - intros c x. induction x as [|a x IH]; intros [|b y] [|d z]; simpl;
      try congruence.
    destruct (NodeSemver.cmp_ident a b) eqn:E1.
    + rewrite (cmp_ok_eq_l _ a b d Hi E1).
      destruct (NodeSemver.cmp_ident b d); try congruence. apply IH.
    + intros <-. destruct (NodeSemver.cmp_ident b d) eqn:E2; intros H.
      * rewrite <- (cmp_ok_eq_r _ a b d Hi E2), E1. reflexivity.
      * rewrite (cmp_trans _ Hi Lt a b d E1 E2). reflexivity.
      * discriminate.
    + intros <-. destruct (NodeSemver.cmp_ident b d) eqn:E2; intros H.
      * rewrite <- (cmp_ok_eq_r _ a b d Hi E2), E1. reflexivity.
      * discriminate.
      * rewrite (cmp_trans _ Hi Gt a b d E1 E2). reflexivity.
Qed.

Lemma cmp_pre_ok : cmp_ok NodeSemver.cmp_pre.
Proof.
  pose proof cmp_idents_ok as Hl. split.
  - intros [|a x] [|b y]; trivial.
    apply (cmp_antisym _ Hl (a :: x) (b :: y)).
  - intros c [|a x] [|b y] [|d z]; try (simpl; congruence).
    apply (cmp_trans _ Hl c (a :: x) (b :: y) (d :: z)).
Qed.

Lemma NodeSemver_compare_ok : cmp_ok NodeSemver.compare.
Proof.
  apply (cmp_ok_map semver_key
           (lex_pair N.compare
              (lex_pair N.compare (lex_pair N.compare NodeSemver.cmp_pre)))).
  repeat apply lex_pair_ok; auto using N_compare_ok, cmp_pre_ok.
Qed.

Lemma contains_trimStart (c : ascii) (s : string) :
  is_ws c = false -> contains_char c (trimStart s) = contains_char c s.
Proof.
  intros Hc. induction s as [|a s IH]; simpl; trivial.
  destruct (is_ws a) eqn:Ha; simpl; trivial.
  rewrite IH. destruct (Ascii.eqb_spec a c); subst; simpl; congruence.
Qed.

Lemma contains_trimEnd (c : ascii) (s : string) :
  is_ws c = false -> contains_char c (trimEnd s) = contains_char c s.
Proof.
  intros Hc. induction s as [|a s IH]; simpl; trivial.
  destruct (trimEnd s) eqn:Et; simpl in *.
  - rewrite <- IH.
    destruct (is_ws a) eqn:Ha; simpl; trivial.
    destruct (Ascii.eqb_spec a c); subst; simpl; congruence.
  - rewrite <- IH. reflexivity.
Qed.

Lemma contains_trim (c : ascii) (s : string) :
  is_ws c = false -> contains_char c (trim s) = contains_char c s.
Proof.
  intros Hc. unfold trim.
  rewrite contains_trimEnd, contains_trimStart; trivial.
Qed.

Lemma semver_chars_no_at (s : string) :
  NodeSemver.forall_chars NodeSemver.is_semver_char s = true ->
  contains_char "@"%char s = false.
Proof.
  induction s as [|a s IH]; simpl; trivial.
  intros H. apply andb_true_iff in H as [Ha Hs].
  rewrite (IH Hs), orb_false_r.
  destruct (Ascii.eqb_spec a "@"%char); subst; trivial. discriminate.
Qed.

Lemma NodeSemver_parse_no_at (v : string) (x : NodeSemver.t) :
  NodeSemver.parse v = Some x -> contains_char "@"%char v = false.
Proof.
  unfold NodeSemver.parse.
  destruct (NodeSemver.MAX_LENGTH <? strlen v); try discriminate.
  destruct (NodeSemver.forall_chars NodeSemver.is_semver_char (trim v)) eqn:Hc;
    simpl; try discriminate.
  intros _. rewrite <- (contains_trim "@"%char v) by reflexivity.
  apply semver_chars_no_at, Hc.
Qed.

#[export] Instance node_semver : SemverLib := {
  SemVer := NodeSemver.t;
  semver_parse := NodeSemver.parse;
  semver_compare := NodeSemver.compare;
  semver_parse_empty := eq_refl;
  semver_parse_no_at := NodeSemver_parse_no_at;
  semver_compare_antisym := cmp_antisym _ NodeSemver_compare_ok;
  semver_compare_trans := fun x y z =>
    cmp_ok_le_trans NodeSemver.compare x y z NodeSemver_compare_ok
}.

(** ** Maps and sets *)

Lemma map_get_set {V : Type} (m : JsMap V) (k k' : string) (v : V) :
  map_get (map_set m k v) k' = if String.eqb k k' then Some v else map_get m k'.
Proof.
  induction m as [|[k0 v0] m IH]; simpl.
  - reflexivity.
  - destruct (String.eqb_spec k0 k) as [->|Hk]; simpl.
    + destruct (String.eqb k k'); reflexivity.
    + rewrite IH. destruct (String.eqb_spec k0 k') as [->|Hk']; trivial.
      destruct (String.eqb_spec k k'); congruence.
Qed.

Lemma map_get_In {V : Type} (m : JsMap V) (k : string) (v : V) :
  map_get m k = Some v -> In (k, v) m.
Proof.
  induction m as [|[k0 v0] m IH]; simpl; try discriminate.
  destruct (String.eqb_spec k0 k) as [->|Hk]; intros H.
  - left. congruence.
  - right. auto.
Qed.

Lemma map_set_keys {V : Type} (m : JsMap V) (k : string) (v : V) :
  map fst (map_set m k v) =
  if map_has m k then map fst m else (map fst m ++ [k])%list.
Proof.
  unfold map_has. induction m as [|[k0 v0] m IH]; simpl; trivial.
  destruct (String.eqb_spec k0 k) as [->|Hk]; simpl; trivial.
  rewrite IH. destruct (map_get m k); reflexivity.
Qed.

Lemma map_get_None_keys {V : Type} (m : JsMap V) (k : string) :
  map_get m k = None -> ~ In k (map fst m).
Proof.
  induction m as [|[k0 v0] m IH]; simpl; auto.
  destruct (String.eqb_spec k0 k) as [->|Hk]; try discriminate.
  intros H [E|E]; [congruence | exact (IH H E)].
Qed.

Lemma map_set_NoDup {V : Type} (m : JsMap V) (k : string) (v : V) :
  NoDup (map fst m) -> NoDup (map fst (map_set m k v)).
Proof.
  intros Hm. rewrite map_set_keys. unfold map_has.
  destruct (map_get m k) eqn:E; trivial.
  apply NoDup_app_remove_l with (l := []). simpl.
  apply Permutation_NoDup with (l := k :: map fst m).
  - apply Permutation_cons_append.
  - constructor; auto using map_get_None_keys.
Qed.

Lemma In_map_get {V : Type} (m : JsMap V) (k : string) (v : V) :
  NoDup (map fst m) -> In (k, v) m -> map_get m k = Some v.
Proof.
  induction m as [|[k0 v0] m IH]; simpl; try tauto.
  intros Hnd [E|Hin].
  - inversion E; subst. rewrite String.eqb_refl. reflexivity.
  - inversion Hnd as [|? ? Hk0 Hnd']; subst.
    destruct (String.eqb_spec k0 k) as [->|Hk]; auto.
    exfalso. apply Hk0. change k with (fst (k, v)). apply in_map, Hin.
Qed.

Lemma set_has_In (s : JsSet) (x : string) : set_has s x = true <-> In x s.
Proof.
  unfold set_has. rewrite existsb_exists. split.
  - intros [y [Hy E]]. apply String.eqb_eq in E. congruence.
  - intros H. exists x. split; trivial. apply String.eqb_refl.
Qed.

Lemma set_add_In (s : JsSet) (x y : string) :
  In y (set_add s x) <-> In y s \/ y = x.
Proof.
  unfold set_add. destruct (set_has s x) eqn:E.
  - apply set_has_In in E. split; auto. intros [H| ->]; trivial.
  - rewrite in_app_iff. simpl. intuition.
Qed.

Lemma set_add_NoDup (s : JsSet) (x : string) : NoDup s -> NoDup (set_add s x).
Proof.
  intros Hs. unfold set_add. destruct (set_has s x) eqn:E; trivial.
  apply Permutation_NoDup with (l := x :: s).
  - apply Permutation_cons_append.
  - constructor; trivial. intros Hin. apply set_has_In in Hin. congruence.
Qed.

(** ** The watch index and the version matcher *)

Section WatchIndex.

Context {SV : SemverLib}.

Lemma semver_valid_parse (v : string) :
  semver_valid v = true <-> exists x, semver_parse v = Some x.
Proof.
  unfold semver_valid. destruct (semver_parse v).
  - split; eauto.
  - split; [discriminate | intros [x Hx]; discriminate].
Qed.

Lemma semver_valid_truthy (v : string) : semver_valid v = true -> truthy v = true.
Proof.
  destruct v; trivial. unfold semver_valid. rewrite semver_parse_empty.
  discriminate.
Qed.

Lemma semver_le_trans (a b c : string) :
  semver_le a b -> semver_le b c -> semver_le a c.
Proof.
  intros (x & y & Hx & Hy & Hxy) (y' & z & Hy' & Hz & Hyz).
  assert (y' = y) by congruence. subst.
  exists x, z. repeat split; trivial.
  eapply semver_compare_trans; eauto.
Qed.

Lemma semver_le_refl (a : string) : semver_valid a = true -> semver_le a a.
Proof.
  intros H. apply semver_valid_parse in H as [x Hx].
  exists x, x. repeat split; trivial.
  pose proof (semver_compare_antisym x x) as E.
  destruct (semver_compare x x); simpl in E; congruence.
Qed.

Lemma semver_gt_spec (a b : string) :
  semver_valid a = true -> semver_valid b = true ->
  (semver_gt a b = Normal true /\ semver_le b a) \/
  (semver_gt a b = Normal false /\ semver_le a b).
Proof.
  intros Ha Hb. apply semver_valid_parse in Ha as [x Hx], Hb as [y Hy].
  unfold semver_gt, semver_le. rewrite Hx, Hy.
  destruct (semver_compare x y) eqn:E.
  - right. split; trivial. exists x, y. rewrite E. repeat split; congruence.
  - right. split; trivial. exists x, y. rewrite E. repeat split; congruence.
  - left. split; trivial. exists y, x. rewrite semver_compare_antisym, E.
    repeat split; simpl; congruence.
Qed.

Lemma semver_lte_spec (a b : string) :
  semver_valid a = true -> semver_valid b = true ->
  exists r, semver_lte a b = Normal r /\ (r = true <-> semver_le a b).
Proof.
  intros Ha Hb. apply semver_valid_parse in Ha as [x Hx], Hb as [y Hy].
  unfold semver_lte, semver_le. rewrite Hx, Hy.
  eexists. split; [reflexivity|].
  split.
  - intros H. exists x, y. repeat split; trivial.
    destruct (semver_compare x y); congruence.
  - intros (x' & y' & Hx' & Hy' & Hc).
    assert (x' = x) by congruence. assert (y' = y) by congruence. subst.
    destruct (semver_compare x y); congruence.
Qed.

(** What one turn of the loop does to a map with valid ceilings. *)
Lemma wanted_step_spec (m : JsMap string) (e : NameVersion) :
  all_valid m ->
  exists m', wanted_step m e = Normal m' /\
    all_valid m' /\
    (NoDup (map fst m) -> NoDup (map fst m')) /\
    (semver_valid (version e) = false -> m' = m) /\
    (semver_valid (version e) = true ->
       (forall k, k <> toLowerCase (name e) -> map_get m' k = map_get m k) /\
       match map_get m (toLowerCase (name e)) with
       | None => map_get m' (toLowerCase (name e)) = Some (version e)
       | Some prev =>
           (map_get m' (toLowerCase (name e)) = Some (version e) /\
            semver_le prev (version e)) \/
           (m' = m /\ semver_le (version e) prev)
       end).
Proof.
  intros Hm. unfold wanted_step.
  destruct (semver_valid (version e)) eqn:Hv; simpl;
    [| exists m; repeat split; auto; discriminate].
  set (key := toLowerCase (name e)).
  assert (Hset : all_valid (map_set m key (version e))).
  { intros k v. rewrite map_get_set.
    destruct (String.eqb key k); [congruence | apply Hm]. }
  assert (Hother : forall k, k <> key ->
            map_get (map_set m key (version e)) k = map_get m k).
  { intros k Hk. rewrite map_get_set.
    destruct (String.eqb_spec key k); congruence. }
  assert (Hkey : map_get (map_set m key (version e)) key = Some (version e)).
  { rewrite map_get_set, String.eqb_refl. reflexivity. }
  destruct (map_get m key) as [prev|] eqn:Hprev.
  - pose proof (Hm _ _ Hprev) as Hp.
    rewrite (semver_valid_truthy _ Hp). simpl.
    destruct (semver_gt_spec (version e) prev Hv Hp) as [[-> Hle]|[-> Hle]];
      simpl.
    + exists (map_set m key (version e)).
      repeat split; auto using map_set_NoDup; discriminate.
    + exists m. repeat split; auto; discriminate.
  - simpl. exists (map_set m key (version e)).
    repeat split; auto using map_set_NoDup; discriminate.
Qed.

Lemma wanted_loop_app (m : JsMap string) (es es' : list NameVersion) :
  wanted_loop m (es ++ es') = (m' <- wanted_loop m es ;; wanted_loop m' es').
Proof.
  revert m. induction es as [|e es IH]; intros m; simpl; trivial.
  destruct (wanted_step m e); simpl; auto.
Qed.

Lemma index_of_nil : index_of [] [].
Proof.
  split.
  - intros k v; discriminate.
  - constructor.
  - intros k v; discriminate.
  - intros k u (e & [] & _).
Qed.

Lemma listed_snoc (es : list NameVersion) (e : NameVersion) (k v : string) :
  listed (es ++ [e]) k v <->
  listed es k v \/
  (toLowerCase (name e) = k /\ version e = v /\ semver_valid v = true).
Proof.
  unfold listed. split.
  - intros (e' & Hin & H). apply in_app_iff in Hin as [Hin|[<-|[]]]; eauto.
  - intros [(e' & Hin & H)|H].
    + exists e'. split; trivial. apply in_app_iff; auto.
    + exists e. split; trivial. apply in_app_iff; simpl; auto.
Qed.

Lemma index_of_snoc (es : list NameVersion) (m : JsMap string) (e : NameVersion) :
  index_of es m ->
  exists m', wanted_step m e = Normal m' /\ index_of (es ++ [e]) m'.
Proof.
  intros [Hv Hnd Hl Hc].
  destruct (wanted_step_spec m e Hv) as (m' & Hstep & Hv' & Hnd' & Hinv & Hval).
  exists m'. split; trivial.
  destruct (semver_valid (version e)) eqn:He.
  - destruct (Hval eq_refl) as [Hother Hkey]. clear Hinv Hval.
    set (key := toLowerCase (name e)) in *.
    split; auto.
    + intros k v Hk. apply listed_snoc.
      destruct (string_dec k key) as [->|Hne].
      * destruct (map_get m key) as [prev|] eqn:Hprev.
        -- destruct Hkey as [[Hk' _]|[-> _]].
           ++ right. rewrite Hk' in Hk. inversion Hk; subst. auto.
           ++ left. auto.
        -- right. rewrite Hkey in Hk. inversion Hk; subst. auto.
      * left. apply Hl. rewrite <- Hother; trivial.
    + intros k u Hu. apply listed_snoc in Hu as [Hu|(Hk & Hu & Hvu)].
      * destruct (Hc k u Hu) as (v & Hget & Hle).
        destruct (string_dec k key) as [->|Hne].
        -- rewrite Hget in Hkey. destruct Hkey as [[Hk' Hle']|[-> _]].
           ++ exists (version e). split; trivial.
              eapply semver_le_trans; eauto.
           ++ eauto.
        -- exists v. rewrite Hother; auto.
      * subst k u. fold key.
        destruct (map_get m key) as [prev|] eqn:Hprev.
        -- destruct Hkey as [[Hk' _]|[-> Hle]].
           ++ exists (version e). split; trivial. apply semver_le_refl, Hvu.
           ++ eauto.
        -- exists (version e). split; trivial. apply semver_le_refl, Hvu.
  - rewrite (Hinv eq_refl). split; auto.
    + intros k v Hk. apply listed_snoc. left. auto.
    + intros k u Hu. apply listed_snoc in Hu as [Hu|(_ & <- & Hvu)]; auto.
      congruence.
Qed.

(** The loop never throws, and its result is the index of the entries. *)
Lemma wantedMaxVersion_index (es : list NameVersion) :
  exists m, wantedMaxVersion es = Normal m /\ index_of es m.
Proof.
  unfold wantedMaxVersion. induction es as [|e es IH] using rev_ind.
  - exists []. split; trivial. apply index_of_nil.
  - destruct IH as (m & Hm & Hi).
    destruct (index_of_snoc es m e Hi) as (m' & Hstep & Hi').
    exists m'. split; trivial.
    rewrite wanted_loop_app, Hm. simpl. rewrite Hstep. reflexivity.
Qed.

(** Entries whose versions the index already dominates leave it untouched. *)
Lemma wanted_loop_absorb (m : JsMap string) (es : list NameVersion) :
  all_valid m ->
  (forall e, In e es -> semver_valid (version e) = true ->
     exists v, map_get m (toLowerCase (name e)) = Some v /\
               semver_gt (version e) v = Normal false) ->
  wanted_loop m es = Normal m.
Proof.
  intros Hm. induction es as [|e es IH]; intros H; simpl; trivial.
  assert (Hstep : wanted_step m e = Normal m).
  { unfold wanted_step. destruct (semver_valid (version e)) eqn:Hv; trivial.
    simpl. destruct (H e (or_introl eq_refl) Hv) as (v & Hget & Hgt).
    rewrite Hget, (semver_valid_truthy v (Hm _ _ Hget)). simpl.
    rewrite Hgt. reflexivity. }
  rewrite Hstep. simpl. apply IH. intros e' Hin. apply H. right. exact Hin.
Qed.

(** What one turn does for a valid entry, with the strict comparison of
    line 157. *)
Lemma wanted_step_cases (m : JsMap string) (e : NameVersion) :
  all_valid m -> semver_valid (version e) = true ->
  match map_get m (toLowerCase (name e)) with
  | None =>
      wanted_step m e = Normal (map_set m (toLowerCase (name e)) (version e))
  | Some prev =>
      (wanted_step m e = Normal (map_set m (toLowerCase (name e)) (version e))
       /\ ~ semver_le (version e) prev) \/
      (wanted_step m e = Normal m /\ semver_le (version e) prev)
  end.
Proof.
  intros Hm Hv. unfold wanted_step. rewrite Hv. simpl.
  destruct (map_get m (toLowerCase (name e))) as [prev|] eqn:Hprev; trivial.
  pose proof (Hm _ _ Hprev) as Hp.
  rewrite (semver_valid_truthy _ Hp). simpl.
  apply semver_valid_parse in Hv as [x Hx], Hp as [y Hy].
  unfold semver_gt, semver_le. rewrite Hx, Hy. simpl.
  destruct (semver_compare x y) eqn:E.
  - right. split; trivial. exists x, y. rewrite E. repeat split; congruence.
  - right. split; trivial. exists x, y. rewrite E. repeat split; congruence.
  - left. split; trivial. intros (x' & y' & Hx' & Hy' & Hc).
    assert (x' = x) by congruence. assert (y' = y) by congruence. subst.
    congruence.
Qed.

Lemma first_kept_later (es : list NameVersion) (m : JsMap string)
  (e : NameVersion) (k v : string) :
  first_kept es m -> map_get m k = Some v ->
  exists pre e0 post,
    (es ++ [e])%list = (pre ++ e0 :: post)%list /\
    toLowerCase (name e0) = k /\ version e0 = v /\
    forall u, listed pre k u -> ~ semver_le v u.
Proof.
  intros Hf Hk. destruct (Hf k v Hk) as (pre & e0 & post & -> & H).
  exists pre, e0, (post ++ [e])%list. split; trivial.
  rewrite <- app_assoc. reflexivity.
Qed.

Lemma first_kept_snoc (es : list NameVersion) (m m' : JsMap string)
  (e : NameVersion) :
  index_of es m -> first_kept es m -> wanted_step m e = Normal m' ->
  first_kept (es ++ [e]) m'.
Proof.
  intros Hi Hf Hstep.
  destruct (semver_valid (version e)) eqn:Hv.
  2:{ unfold wanted_step in Hstep. rewrite Hv in Hstep. simpl in Hstep.
      injection Hstep as <-. intros k v Hk.
      apply (first_kept_later es m e k v Hf Hk). }
  pose proof (wanted_step_cases m e (idx_valid _ _ Hi) Hv) as Hc.
  set (key := toLowerCase (name e)) in *.
  assert (Hset : (forall u, listed es key u -> ~ semver_le (version e) u) ->
            first_kept (es ++ [e]) (map_set m key (version e))).
  { intros Hlow k v. rewrite map_get_set.
    destruct (String.eqb_spec key k) as [<-|Hne].
    - intros H. injection H as <-. exists es, e, []. repeat split; trivial.
    - intros Hk. apply (first_kept_later es m e k v Hf Hk). }
  destruct (map_get m key) as [prev|] eqn:Hprev.
  - destruct Hc as [[Hc Hgt]|[Hc Hle]]; rewrite Hc in Hstep;
      injection Hstep as <-.
    + apply Hset. intros u Hu Hle.
      destruct (idx_ceiling _ _ Hi key u Hu) as (v & Hget & Huv).
      assert (v = prev) by congruence. subst v.
      apply Hgt. eapply semver_le_trans; eauto.
    + intros k v Hk. apply (first_kept_later es m e k v Hf Hk).
  - rewrite Hc in Hstep. injection Hstep as <-.
    apply Hset. intros u Hu _.
    destruct (idx_ceiling _ _ Hi key u Hu) as (v & Hget & _). congruence.
Qed.

(** The loop never throws; its result is the index of the entries, and it
    keeps the first of the entries of highest precedence. *)
Lemma wantedMaxVersion_first (es : list NameVersion) :
  exists m, wantedMaxVersion es = Normal m /\ index_of es m /\ first_kept es m.
Proof.
  unfold wantedMaxVersion. induction es as [|e es IH] using rev_ind.
  - exists []. split; trivial. split; [apply index_of_nil|].
    intros k v; discriminate.
  - destruct IH as (m & Hm & Hi & Hf).
    destruct (index_of_snoc es m e Hi) as (m' & Hstep & Hi').
    exists m'. split; [|split; trivial].
    + rewrite wanted_loop_app, Hm. simpl. rewrite Hstep. reflexivity.
    + eapply first_kept_snoc; eauto.
Qed.

End WatchIndex.

Section WatchIndexClaims.

Context {SV : SemverLib}.

Lemma semver_le_not_gt (a b : string) :
  semver_le a b -> semver_gt a b = Normal false.
Proof.
  intros (x & y & Hx & Hy & Hc). unfold semver_gt. rewrite Hx, Hy.
  destruct (semver_compare x y); congruence.
Qed.

(** C1.  For a watch index built from a watch list and a discovered pair
    with a valid version, the matcher returns a boolean (it does not throw);
    it reports a match exactly when the lowercased name has a ceiling [V] in
    the index and the discovered version is at most [V] in semantic-version
    precedence; a name that is absent from the index is never a match. *)
Theorem version_matcher_spec
  (es : list NameVersion) (wanted : JsMap string) (nv : NameVersion) :
  wantedMaxVersion es = Normal wanted ->
  semver_valid (version nv) = true ->
  exists hit, isAffected wanted nv = Normal hit /\
    (hit = true <->
       exists V, map_get wanted (toLowerCase (name nv)) = Some V /\
                 semver_le (version nv) V) /\
    (map_get wanted (toLowerCase (name nv)) = None -> hit = false).
Proof.
  intros Hw Hv.
  destruct (wantedMaxVersion_index es) as (m & Hm & Hi).
  assert (m = wanted) by congruence. subst m.
  unfold isAffected.
  destruct (map_get wanted (toLowerCase (name nv))) as [V|] eqn:Hget.
  - pose proof (idx_valid _ _ Hi _ _ Hget) as HV.
    rewrite (semver_valid_truthy V HV). simpl.
    destruct (semver_lte_spec (version nv) V Hv HV) as (r & Hr & Hiff).
    exists r. split; trivial. split; [|discriminate].
    rewrite Hiff. split.
    + intros Hle. exists V. auto.
    + intros (V' & E & Hle). congruence.
  - exists false. split; trivial. split; trivial.
    split; [discriminate | intros (V & E & _); discriminate].
Qed.

(** C4, amended.  Building the watch index never throws and holds one
    ceiling per lowercased name: every name with a valid listed version has
    a ceiling, and the ceiling is a listed valid version of that name that
    is at least every valid version listed for it; of the entries with that
    highest precedence the first one listed is kept.  Reordering the watch
    list gives an index with the same names and, per name, a ceiling of
    equal precedence (the retained string may differ when two listed strings
    have equal precedence).  Loading the list twice gives the index of
    loading it once. *)
Theorem watch_index_order_independent (es es' : list NameVersion) :
  Permutation es es' ->
  exists m m',
    wantedMaxVersion es = Normal m /\ wantedMaxVersion es' = Normal m' /\
    NoDup (map fst m) /\
    (forall k v, map_get m k = Some v ->
       listed es k v /\ forall u, listed es k u -> semver_le u v) /\
    (forall k u, listed es k u -> exists v, map_get m k = Some v) /\
    first_kept es m /\
    (forall k, match map_get m k, map_get m' k with
               | Some v, Some v' => semver_equiv v v'
               | None, None => True
               | _, _ => False
               end) /\
    wantedMaxVersion (es ++ es) = Normal m.
Proof.
  intros Hp.
  destruct (wantedMaxVersion_first es) as (m & Hm & Hi & Hfirst).
  destruct (wantedMaxVersion_index es') as (m' & Hm' & Hi').
  assert (Hmax : forall k v, map_get m k = Some v ->
            forall u, listed es k u -> semver_le u v).
  { intros k v Hk u Hu. destruct (idx_ceiling _ _ Hi k u Hu) as (v' & E & Hle).
    congruence. }
  assert (Hmax' : forall k v, map_get m' k = Some v ->
            forall u, listed es' k u -> semver_le u v).
  { intros k v Hk u Hu. destruct (idx_ceiling _ _ Hi' k u Hu) as (v' & E & Hle).
    congruence. }
  assert (Hperm : forall k v, listed es k v <-> listed es' k v).
  { intros k v. unfold listed. split; intros (e & Hin & H); exists e;
      (split; [|exact H]).
    - eapply Permutation_in; eauto.
    - eapply Permutation_in; [apply Permutation_sym|]; eauto. }
  exists m, m'.
  split; [exact Hm|]. split; [exact Hm'|].
  split; [apply (idx_nodup _ _ Hi)|].
  split; [intros k v Hk; split; [apply (idx_listed _ _ Hi), Hk | eauto]|].
  split.
  { intros k u Hu. destruct (idx_ceiling _ _ Hi k u Hu) as (v & E & _). eauto. }
  split; [exact Hfirst|]. split.
  - intros k.
    destruct (map_get m k) as [v|] eqn:E; destruct (map_get m' k) as [v'|] eqn:E'.
    + pose proof (idx_listed _ _ Hi _ _ E) as Hl.
      pose proof (idx_listed _ _ Hi' _ _ E') as Hl'.
      split.
      * apply (Hmax' k v' E'), Hperm, Hl.
      * apply (Hmax k v E), Hperm, Hl'.
    + pose proof (idx_listed _ _ Hi _ _ E) as Hl. apply Hperm in Hl.
      destruct (idx_ceiling _ _ Hi' _ _ Hl) as (w & E2 & _). congruence.
    + pose proof (idx_listed _ _ Hi' _ _ E') as Hl. apply Hperm in Hl.
      destruct (idx_ceiling _ _ Hi _ _ Hl) as (w & E2 & _). congruence.
    + trivial.
  - unfold wantedMaxVersion in *. rewrite wanted_loop_app, Hm. simpl.
    apply wanted_loop_absorb; [apply (idx_valid _ _ Hi)|].
    intros e Hin Hv.
    destruct (idx_ceiling _ _ Hi (toLowerCase (name e)) (version e))
      as (v & Hget & Hle).
    { exists e. auto. }
    exists v. split; trivial. apply semver_le_not_gt, Hle.
Qed.

End WatchIndexClaims.

Lemma version_matcher_spec_witness :
  exists hit,
    isAffected [("left-pad", "1.3.0")]
      {| name := "Left-Pad"; version := "1.1.0" |} = Normal hit /\
    (hit = true <->
       exists V, map_get [("left-pad", "1.3.0")] "left-pad" = Some V /\
                 semver_le "1.1.0" V) /\
    (map_get [("left-pad", "1.3.0")] "left-pad" = None -> hit = false).
Proof.
  apply (version_matcher_spec [left_pad_130] [("left-pad", "1.3.0")]
           {| name := "Left-Pad"; version := "1.1.0" |}); reflexivity.
Defined.

Lemma watch_index_order_independent_witness :
  exists m m',
    wantedMaxVersion [pkg_build_1; pkg_build_2] = Normal m /\
    wantedMaxVersion [pkg_build_2; pkg_build_1] = Normal m' /\
    NoDup (map fst m) /\
    (forall k v, map_get m k = Some v ->
       listed [pkg_build_1; pkg_build_2] k v /\
       forall u, listed [pkg_build_1; pkg_build_2] k u -> semver_le u v) /\
    (forall k u, listed [pkg_build_1; pkg_build_2] k u ->
       exists v, map_get m k = Some v) /\
    first_kept [pkg_build_1; pkg_build_2] m /\
    (forall k, match map_get m k, map_get m' k with
               | Some v, Some v' => semver_equiv v v'
               | None, None => True
               | _, _ => False
               end) /\
    wantedMaxVersion ([pkg_build_1; pkg_build_2] ++ [pkg_build_1; pkg_build_2])
      = Normal m.
Proof.
  apply (watch_index_order_independent
           [pkg_build_1; pkg_build_2] [pkg_build_2; pkg_build_1]).
  apply perm_swap.
Defined.

(** C4 as stated fails: two listed versions that differ only in their build
    metadata have equal precedence, and the index keeps whichever came
    first. *)
Lemma watch_index_order_dependent :
  ~ (forall es es' m m' k,
       Permutation es es' ->
       wantedMaxVersion es = Normal m -> wantedMaxVersion es' = Normal m' ->
       map_get m k = map_get m' k).
Proof.
  intros H.
  specialize (H [pkg_build_1; pkg_build_2] [pkg_build_2; pkg_build_1]
                [("pkg", "1.0.0+build.1")] [("pkg", "1.0.0+build.2")] "pkg"
                (perm_swap _ _ _) eq_refl eq_refl).
  discriminate H.
Qed.

(** ** The parsers *)

Lemma parseLine_nonempty (line : string) (e : NameVersion) :
  parseLine line = Some e -> name e <> EmptyString /\ version e <> EmptyString.
Proof.
  unfold parseLine.
  destruct (negb (truthy (trim line)) || startsWith (trim line) "#");
    try discriminate.
  destruct (lastIndexOf "@" (trim line) <=? 0); try discriminate.
  set (n := trim (slice _ _ _)). set (v := trim (slice_from _ _)).
  destruct n, v; simpl; try discriminate; intros H; inversion H; simpl;
    split; discriminate.
Qed.

Lemma filter_some_In {A : Type} (l : list (option A)) (a : A) :
  In a (filter_some l) <-> In (Some a) l.
Proof.
  induction l as [|[b|] l IH]; simpl; try tauto.
  - rewrite IH. split; intros [H|H]; auto; left; congruence.
  - rewrite IH. split; auto. intros [H|H]; [discriminate | trivial].
Qed.

Lemma filter_some_length (lines : list string) :
  length (filter_some (map parseLine lines)) = length (filter parses lines).
Proof.
  induction lines as [|l lines IH]; simpl; trivial.
  unfold parses at 1. destruct (parseLine l); simpl; auto.
Qed.

Section ParserClaims.

Context {SV : SemverLib}.
Variable localeCompare : string -> string -> comparison.

(** C5.  When [1.2.3] is a valid version: the watch-list line
    [@scope/name@1.2.3] and a package record that falls back to the purl
    [pkg:npm/%40scope/name@1.2.3] both normalise to the name [@scope/name]
    and the version [1.2.3], and the record matches the index built from
    that line. *)
Theorem scoped_name_round_trip
  (n v : option string) (rest : list ExternalRef) :
  semver_valid "1.2.3" = true ->
  truthy (or_empty n) && semver_valid (or_empty v) = false ->
  let entry := {| name := "@scope/name"; version := "1.2.3" |} in
  let p := {| p_name := n; p_versionInfo := v;
              p_externalRefs := purl_ref "pkg:npm/%40scope/name@1.2.3" :: rest |} in
  parseLine "@scope/name@1.2.3" = Some entry /\
  parsePkgNameVersionFromSpdx p = Normal (Some entry) /\
  exists wanted,
    wantedMaxVersion (entries "@scope/name@1.2.3") = Normal wanted /\
    isAffected wanted entry = Normal true.
Proof.
  intros Hv Hprim entry p.
  assert (Hparse : exists x, semver_parse "1.2.3" = Some x)
    by (apply semver_valid_parse, Hv).
  destruct Hparse as [x Hx].
  split; [reflexivity|]. split.
  - unfold parsePkgNameVersionFromSpdx. simpl p_name. simpl p_versionInfo.
    rewrite Hprim. cbv -[semver_valid]. rewrite Hv. reflexivity.
  - exists [("@scope/name", "1.2.3")]. split.
    + change (entries "@scope/name@1.2.3") with [entry].
      unfold wantedMaxVersion, wanted_loop, wanted_step, entry.
      cbn [version name]. rewrite Hv. reflexivity.
    + unfold isAffected. simpl. unfold semver_lte. rewrite Hx.
      pose proof (semver_compare_antisym x x) as E.
      destruct (semver_compare x x); simpl in E; congruence.
Qed.

End ParserClaims.

(** C6 as stated fails: the line [foo@latest] is counted although its
    version is no semantic version. *)
Lemma input_entries_counts_invalid_version :
  input_entries (build_out String.compare cfg0 "foo@latest" [] []) = 1%nat /\
  length (filter (fun e => semver_valid (version e)) (entries "foo@latest"))
    = 0%nat.
Proof.
  split; reflexivity.
Qed.

Lemma scoped_name_round_trip_witness :
  let entry := {| name := "@scope/name"; version := "1.2.3" |} in
  let p := {| p_name := None; p_versionInfo := None;
              p_externalRefs := [purl_ref "pkg:npm/%40scope/name@1.2.3"] |} in
  parseLine "@scope/name@1.2.3" = Some entry /\
  parsePkgNameVersionFromSpdx p = Normal (Some entry) /\
  exists wanted,
    wantedMaxVersion (entries "@scope/name@1.2.3") = Normal wanted /\
    isAffected wanted entry = Normal true.
Proof.
  apply (scoped_name_round_trip None None []); reflexivity.
Defined.

(** ** The promise pool: invariants *)

Lemma no_capacity_size_lt (limit : JsNumber) (n : nat) :
  no_capacity limit -> size_lt n limit = false.
Proof.
  destruct limit as [| | |q]; simpl; try tauto.
  intros Hq. apply negb_false_iff, Qle_bool_iff.
  apply Qle_trans with (y := 0%Q); trivial.
  change 0%Q with (inject_Z 0). rewrite <- Zle_Qle. lia.
Qed.

Lemma size_lt_nat (n N : nat) :
  size_lt n (Finite (inject_Z (Z.of_nat N))) = (n <? N)%nat.
Proof.
  simpl. destruct (n <? N)%nat eqn:E.
  - apply negb_true_iff. apply Nat.ltb_lt in E.
    destruct (Qle_bool _ _) eqn:Hq; trivial.
    apply Qle_bool_iff in Hq. rewrite <- Zle_Qle in Hq. lia.
  - apply negb_false_iff, Qle_bool_iff. apply Nat.ltb_ge in E.
    rewrite <- Zle_Qle. lia.
Qed.

Lemma remove_nth_length {A : Type} (k : nat) (l : list A) (a : A) :
  nth_error l k = Some a -> length l = S (length (remove_nth k l)).
Proof.
  revert l. induction k as [|k IH]; intros [|b l]; simpl; try discriminate.
  - reflexivity.
  - intros H. f_equal. auto.
Qed.

Lemma replace_nth_length {A : Type} (k : nat) (l : list A) (a : A) :
  length (replace_nth k a l) = length l.
Proof.
  revert l. induction k as [|k IH]; intros [|b l]; simpl; auto.
Qed.

Lemma remove_nth_split {A : Type} (k : nat) (l : list A) (a : A) :
  nth_error l k = Some a ->
  exists l1 l2, l = (l1 ++ a :: l2)%list /\ remove_nth k l = (l1 ++ l2)%list /\
                forall b, replace_nth k b l = (l1 ++ b :: l2)%list.
Proof.
  revert l. induction k as [|k IH]; intros [|b l]; simpl; try discriminate.
  - intros H. inversion H; subst. exists [], l. auto.
  - intros H. destruct (IH _ H) as (l1 & l2 & -> & E & Hr).
    exists (b :: l1), l2. simpl. rewrite E. repeat split; trivial.
    intros c. rewrite Hr. reflexivity.
Qed.

Section PoolProps.

Variables Item W R Sh : Type.
Variable start : Item -> nat -> W.
Variable resume : nat -> W -> Sh -> Sh * Outcome W R.
Variable items : list Item.
Variable limit : JsNumber.

Local Abbreviation State := (PoolState W R Sh).
Local Abbreviation step := (pool_step start resume items limit).
Local Abbreviation reaches := (pool_reaches start resume items limit).
Local Abbreviation init := (@pool_init W R Sh).

Lemma step_inv (s s' : State) :
  step s s' -> step_kind start resume items limit s s'.
Proof.
  intros [Hm|[k Hk]].
  - pose proof Hm as Hm'. unfold main_step in Hm.
    destruct (pc s) eqn:Hpc.
    + destruct (next s <? length items)%nat; inversion Hm; subst;
        eapply KJump; eauto.
    + destruct (size_lt (length (active s)) limit) eqn:Hcap; simpl in Hm.
      * destruct (next s <? length items)%nat; simpl in Hm.
        -- destruct (nth_error items (next s)) as [it|] eqn:Hit;
             inversion Hm; subst. eapply KSpawn; eauto.
        -- inversion Hm; subst. eapply KJump; eauto.
      * inversion Hm; subst. eapply KJump; eauto.
    + destruct (length (active s) =? 0)%nat; inversion Hm; subst;
        eapply KJump; eauto.
    + destruct w; simpl in Hm; inversion Hm; subst; eapply KJump; eauto.
    + destruct (length (active s) =? 0)%nat; inversion Hm; subst;
        eapply KJump; eauto.
    + destruct w; simpl in Hm; inversion Hm; subst; eapply KJump; eauto.
    + discriminate.
    + discriminate.
  - unfold event_step in Hk.
    destruct (awaiting (pc s)) eqn:Hpc; try discriminate.
    destruct (nth_error (active s) k) as [[idx w]|] eqn:Hn; try discriminate.
    destruct (resume idx w (shared s)) as [sh o] eqn:Hr.
    eapply KEvent; eauto.
    destruct o; inversion Hk; reflexivity.
Qed.

(** *** At most [N] promises are pending *)

Lemma active_bounded (N : nat) (sh0 : Sh) (s : State) :
  (forall n, size_lt n limit = true -> (n < N)%nat) ->
  reaches (init sh0) s -> (length (active s) <= N)%nat.
Proof.
  intros HN Hr. induction Hr as [|s1 s2 Hst Hr IH].
  - simpl. lia.
  - destruct (step_inv _ _ Hst); subst.
    + exact IH.
    + simpl. rewrite length_app. simpl. specialize (HN _ Hcap). lia.
    + pose proof (remove_nth_length _ _ _ Hk) as Hlen.
      destruct o; simpl; rewrite ?replace_nth_length; lia.
Qed.

(** *** The main coroutine sleeps only with a pending promise, and with a full
    pool while the queue is not empty; it returns only when the queue is
    empty and nothing is pending *)

Lemma length_zero_nil {A : Type} (l : list A) :
  (length l =? 0)%nat = true <-> l = [].
Proof.
  destruct l; simpl; split; congruence.
Qed.

Lemma main_inv_reaches (sh0 : Sh) (s : State) :
  reaches (init sh0) s -> main_inv items limit s.
Proof.
  intros Hr. induction Hr as [|s1 s2 Hst Hr IH].
  - split; simpl; [lia | trivial].
  - destruct IH as [Hn IH]. destruct (step_inv _ _ Hst).
    + unfold main_step in Hm. destruct (pc s1) eqn:Hpc.
      * destruct (next s1 <? length items)%nat eqn:E; inversion Hm; subst;
          split; simpl; trivial.
        apply Nat.ltb_ge in E. lia.
      * destruct (size_lt (length (active s1)) limit) eqn:E1; simpl in Hm.
        -- destruct (next s1 <? length items)%nat eqn:E2; simpl in Hm.
           ++ destruct (nth_error items (next s1)); inversion Hm as [H0].
              rewrite Hs in H0. apply (f_equal next) in H0. simpl in H0. lia.
           ++ inversion Hm; subst. split; simpl; trivial.
              apply Nat.ltb_ge in E2. lia.
        -- inversion Hm; subst. split; simpl; trivial.
      * destruct (length (active s1) =? 0)%nat eqn:E; inversion Hm; subst;
          split; simpl; trivial.
        split; trivial. intros Hnil. apply length_zero_nil in Hnil. congruence.
      * destruct w; simpl in Hm; inversion Hm; subst; split; simpl; trivial.
      * destruct (length (active s1) =? 0)%nat eqn:E; inversion Hm; subst;
          split; simpl; trivial.
        -- apply length_zero_nil in E. auto.
        -- split; trivial. intros Hnil. apply length_zero_nil in Hnil.
           congruence.
      * destruct w; simpl in Hm; inversion Hm; subst; split; simpl; trivial;
          destruct IH; trivial.
      * discriminate.
      * discriminate.
    + subst. split; simpl.
      * change (next s1 < length items)%nat. apply nth_error_Some. congruence.
      * rewrite Hpc. trivial.
    + assert (Hnext : next s2 = next s1) by (subst; destruct o; reflexivity).
      split; [lia|]. rewrite Hnext.
      destruct (pc s1) eqn:Hpc1; try discriminate; subst; destruct o; simpl;
        rewrite ?Hpc1; simpl; trivial; destruct w0; simpl; trivial;
        try (destruct IH; trivial);
        rewrite ?replace_nth_length; split; trivial;
        destruct (remove_nth_split _ _ _ Hk) as (l1 & l2 & _ & _ & Hrep);
        rewrite Hrep; destruct l1; discriminate.
Qed.

(** *** With no capacity the main coroutine spins *)

Lemma spinning_reaches (sh0 : Sh) (s : State) :
  items <> [] -> no_capacity limit ->
  reaches (init sh0) s -> spinning sh0 s.
Proof.
  intros Hitems Hcap Hr. induction Hr as [|s1 s2 Hst Hr IH].
  - unfold spinning. simpl. repeat split; auto.
  - destruct IH as (Hn & Ha & Hres & Hsh & Hpc).
    destruct (step_inv _ _ Hst).
    + unfold main_step in Hm. rewrite Ha, Hn in Hm. simpl in Hm.
      rewrite (no_capacity_size_lt limit 0 Hcap) in Hm. simpl in Hm.
      destruct Hpc as [Hpc|[Hpc|Hpc]]; rewrite Hpc in Hm.
      * destruct items; [congruence|]. inversion Hm; subst.
        unfold spinning; simpl; repeat split; auto.
      * inversion Hm; subst. unfold spinning; simpl; repeat split; auto.
      * inversion Hm; subst. unfold spinning; simpl; repeat split; auto.
    + rewrite Ha in Hcap0. simpl in Hcap0.
      rewrite (no_capacity_size_lt limit 0 Hcap) in Hcap0. discriminate.
    + destruct Hpc as [Hpc|[Hpc|Hpc]]; rewrite Hpc in Hpc0; discriminate.
Qed.

Lemma spinning_steps (sh0 : Sh) (s : State) :
  items <> [] -> no_capacity limit -> spinning sh0 s -> exists s', step s s'.
Proof.
  intros Hitems Hcap (Hn & Ha & _ & _ & Hpc).
  assert (Hm : exists s', main_step start items limit s = Some s').
  { unfold main_step. rewrite Ha, Hn. simpl.
    rewrite (no_capacity_size_lt limit 0 Hcap). simpl.
    destruct Hpc as [->|[->| ->]]; eauto.
    destruct items; [congruence|]. simpl. eauto. }
  destruct Hm as [s' Hm]. exists s'. left. exact Hm.
Qed.

(** *** Workers that never reject: every started promise is pending or
    fulfilled, and the pool never fails *)

Section NeverRejects.

Hypothesis never_rejects :
  forall idx w sh sh' e, resume idx w sh <> (sh', Rejected e).

Lemma main_step_no_failure (s s' : State) :
  main_step start items limit s = Some s' ->
  no_failure (pc s) -> no_failure (pc s').
Proof.
  unfold main_step. intros Hm Hnf.
  destruct (pc s) as [| | |[]| |[]| |] eqn:E; simpl in *; try tauto;
    repeat match type of Hm with
           | context [if ?b then _ else _] => destruct b
           | context [match ?x with _ => _ end] => destruct x
           end;
    inversion Hm; subst; simpl; rewrite ?E; trivial.
Qed.

Lemma settled_inv_reaches (sh0 : Sh) (s : State) :
  reaches (init sh0) s -> settled_inv s.
Proof.
  intros Hr. induction Hr as [|s1 s2 Hst Hr IH].
  - split; simpl; auto.
  - destruct IH as [Hperm Hpc]. destruct (step_inv _ _ Hst).
    + split; [subst; exact Hperm|].
      eapply main_step_no_failure; eauto.
    + subst. split; [|simpl; rewrite Hpc0; exact I].
      cbn [runOne results active next].
      rewrite map_app, seq_S, app_assoc. cbn [map fst Nat.add].
      apply Permutation_app_tail. exact Hperm.
    + destruct (remove_nth_split _ _ _ Hk) as (l1 & l2 & Ha & Hrem & Hrep).
      destruct o as [w'|r|e].
      * subst s2. split; simpl; trivial.
        rewrite Hrep, map_app. rewrite Ha, map_app in Hperm. exact Hperm.
      * subst s2. split; simpl.
        -- rewrite Hrem, !map_app. rewrite Ha, map_app in Hperm. simpl in *.
           rewrite <- app_assoc. etransitivity; [|exact Hperm].
           apply Permutation_app_head. simpl. apply Permutation_middle.
        -- destruct (pc s1) as [| | |[]| |[]| |]; simpl in *; trivial.
      * exfalso. eapply never_rejects; eauto.
Qed.

End NeverRejects.

(** *** With capacity for one promise every run is finite and ends *)

Section Termination.

Variable wsize : W -> nat.
Hypothesis resume_decreases :
  forall idx w sh sh' w',
    resume idx w sh = (sh', Pending w') -> (wsize w' < wsize w)%nat.
Hypothesis capacity : size_lt 0 limit = true.

Lemma live_inv_reaches (sh0 : Sh) (s : State) :
  reaches (init sh0) s -> live_inv items s.
Proof.
  intros Hr. induction Hr as [|s1 s2 Hst Hr IH].
  - exact I.
  - destruct (step_inv _ _ Hst).
    + unfold main_step in Hm. unfold live_inv in *.
      destruct (pc s1) eqn:Hpc.
      * destruct (next s1 <? length items)%nat eqn:E; inversion Hm; subst;
          simpl; trivial.
        left. apply Nat.ltb_lt, E.
      * destruct (size_lt (length (active s1)) limit) eqn:E1; simpl in Hm.
        -- destruct (next s1 <? length items)%nat eqn:E2; simpl in Hm.
           ++ destruct (nth_error items (next s1)); inversion Hm as [H0].
              rewrite Hs in H0. apply (f_equal next) in H0. simpl in H0. lia.
           ++ inversion Hm; subst. simpl. apply Nat.ltb_ge in E2.
              destruct IH as [IH|IH]; [lia|trivial].
        -- inversion Hm; subst. simpl. intros Hnil. rewrite Hnil in E1.
           simpl in E1. congruence.
      * destruct (length (active s1) =? 0)%nat; inversion Hm; subst; simpl;
          trivial.
      * destruct w; simpl in Hm; inversion Hm; subst; simpl; trivial.
      * destruct (length (active s1) =? 0)%nat; inversion Hm; subst; simpl;
          trivial.
      * destruct w; simpl in Hm; inversion Hm; subst; simpl; trivial.
      * discriminate.
      * discriminate.
    + subst. unfold live_inv. simpl. rewrite Hpc. right.
      destruct (active s1); discriminate.
    + unfold live_inv.
      destruct (pc s1) eqn:Hpc1; try discriminate; subst; destruct o; simpl;
        rewrite ?Hpc1; simpl; trivial.
Qed.

Lemma skipn_nth_error {A : Type} (n : nat) (l : list A) (a : A) :
  nth_error l n = Some a -> skipn n l = a :: skipn (S n) l.
Proof.
  revert l. induction n as [|n IH]; intros [|b l]; simpl; try discriminate.
  - intros H. inversion H. reflexivity.
  - intros H. rewrite (IH _ H). reflexivity.
Qed.

Lemma aweight_app (l1 l2 : list (nat * W)) :
  aweight wsize (l1 ++ l2) = (aweight wsize l1 + aweight wsize l2)%nat.
Proof.
  unfold aweight. rewrite map_app, list_sum_app. reflexivity.
Qed.

Lemma aweight_cons (x : nat * W) (l : list (nat * W)) :
  aweight wsize (x :: l) = (S (wsize (snd x)) + aweight wsize l)%nat.
Proof. reflexivity. Qed.

Lemma rank_le (p : Pc) : (rank p <= 5)%nat.
Proof.
  destruct p as [| | |[]| |[]| |]; simpl; lia.
Qed.

Lemma jump_rank (s s' : State) (p : Pc) :
  main_step start items limit s = Some s' -> s' = set_pc p s ->
  live_inv items s -> (rank p < rank (pc s))%nat.
Proof.
  unfold main_step, live_inv. intros Hm -> Hlive.
  destruct (pc s) as [| | |w| |w| |] eqn:E.
  - destruct (next s <? length items)%nat; inversion Hm; simpl; lia.
  - destruct (size_lt (length (active s)) limit
              && (next s <? length items)%nat).
    + destruct (nth_error items (next s)); [|discriminate].
      apply (f_equal (option_map next)) in Hm. simpl in Hm.
      inversion Hm. lia.
    + inversion Hm. simpl. lia.
  - destruct (length (active s) =? 0)%nat eqn:E0; inversion Hm; simpl; try lia.
    apply length_zero_nil in E0. contradiction.
  - destruct w; simpl in Hm; inversion Hm; simpl; lia.
  - destruct (length (active s) =? 0)%nat; inversion Hm; simpl; lia.
  - destruct w; simpl in Hm; inversion Hm; simpl; lia.
  - discriminate.
  - discriminate.
Qed.

Lemma measure_decreases (s s' : State) :
  live_inv items s -> step s s' ->
  (measure start items wsize s' < measure start items wsize s)%nat.
Proof.
  intros Hlive Hst. destruct (step_inv _ _ Hst).
  - pose proof (jump_rank s s' p Hm Hs Hlive) as Hrk.
    subst s'. unfold measure. cbn [set_pc next active pc]. lia.
  - subst. unfold measure. cbn [runOne next active pc].
    rewrite (skipn_nth_error _ _ _ Hit), aweight_app, aweight_cons.
    cbn [qweight snd]. unfold aweight at 2. cbn [map list_sum fold_right]. lia.
  - destruct (remove_nth_split _ _ _ Hk) as (l1 & l2 & Ha & Hrem & Hrep).
    pose proof (rank_le (pc s')) as Hrk.
    assert (Hnext : next s' = next s) by (subst; destruct o; reflexivity).
    assert (Hw : (aweight wsize (active s') < aweight wsize (active s))%nat).
    { rewrite Ha, aweight_app, aweight_cons. subst s'.
      destruct o; cbn [active snd].
      - rewrite Hrep, aweight_app, aweight_cons. cbn [snd].
        pose proof (resume_decreases _ _ _ _ _ Hr) as Hdec. lia.
      - rewrite Hrem, aweight_app. lia.
      - rewrite Hrem, aweight_app. lia. }
    unfold measure. rewrite Hnext. lia.
Qed.

Lemma runs_finite (sh0 : Sh) (s : State) :
  reaches (init sh0) s -> Acc (fun s2 s1 => step s1 s2) s.
Proof.
  remember (measure start items wsize s) as n eqn:Hn. revert s Hn.
  induction n as [n IH] using lt_wf_ind. intros s Hn Hr.
  constructor. intros s' Hst. apply (IH (measure start items wsize s')); trivial.
  - subst n. apply measure_decreases; trivial.
    eapply live_inv_reaches; eauto.
  - econstructor; eauto.
Qed.

Lemma progress (sh0 : Sh) (s : State) :
  reaches (init sh0) s -> final (pc s) \/ exists s', step s s'.
Proof.
  intros Hr. pose proof (main_inv_reaches sh0 s Hr) as [Hn Hinv].
  assert (Hev : active s <> [] -> awaiting (pc s) = true ->
                exists s', step s s').
  { intros Ha Hw. destruct (active s) as [|[idx w] l] eqn:E; [congruence|].
    destruct (resume idx w (shared s)) as [sh o] eqn:Hres.
    assert (Hs : exists s', event_step resume 0 s = Some s').
    { unfold event_step. rewrite Hw, E. simpl. rewrite Hres.
      destruct o; eauto. }
    destruct Hs as [s' Hs]. exists s'. right. exists 0%nat. exact Hs. }
  assert (Hmain : forall s', main_step start items limit s = Some s' ->
                  exists s', step s s').
  { intros s' H. exists s'. left. exact H. }
  unfold main_step in Hmain. destruct (pc s) eqn:Hpc.
  - right. destruct (next s <? length items)%nat; eapply Hmain; eauto.
  - right. destruct (size_lt (length (active s)) limit); simpl in *.
    + destruct (next s <? length items)%nat eqn:E; simpl in *.
      * apply Nat.ltb_lt, nth_error_Some in E.
        destruct (nth_error items (next s)); [|congruence].
        eapply Hmain; eauto.
      * eapply Hmain; eauto.
    + eapply Hmain; eauto.
  - right. destruct (length (active s) =? 0)%nat; eapply Hmain; eauto.
  - right. destruct w; simpl in *; try (eapply Hmain; eauto; fail).
    apply Hev; tauto.
  - right. destruct (length (active s) =? 0)%nat; eapply Hmain; eauto.
  - right. destruct w; simpl in *; try (eapply Hmain; eauto; fail).
    apply Hev; tauto.
  - left. left. reflexivity.
  - left. right. eauto.
Qed.

Lemma reaches_trans (a b c : State) :
  pool_reaches start resume items limit a b ->
  pool_reaches start resume items limit b c ->
  pool_reaches start resume items limit a c.
Proof.
  intros Hab Hbc. induction Hbc; trivial. econstructor; eauto.
Qed.

(** From every reachable state the run can be carried on to its end. *)
Lemma run_completes (sh0 : Sh) (s : State) :
  reaches (init sh0) s ->
  exists s', pool_reaches start resume items limit s s' /\ final (pc s').
Proof.
  intros Hr. pose proof (runs_finite sh0 s Hr) as Hacc.
  induction Hacc as [s _ IH].
  destruct (progress sh0 s Hr) as [Hf|[s1 Hst]].
  - exists s. split; trivial. constructor.
  - destruct (IH s1 Hst) as (s' & Hr' & Hf).
    + econstructor; eauto.
    + exists s'. split; trivial.
      eapply reaches_trans; [|exact Hr'].
      econstructor; [exact Hst | constructor].
Qed.

End Termination.

End PoolProps.

(** *** A worker is started only below the limit, and a settlement is
    followed by a new start *)

Lemma size_lt_mono (n : nat) (limit : JsNumber) :
  size_lt (S n) limit = true -> size_lt n limit = true.
Proof.
  destruct limit as [| | |q]; trivial. unfold size_lt.
  intros H. apply negb_true_iff in H. apply negb_true_iff.
  destruct (Qle_bool q (inject_Z (Z.of_nat n))) eqn:E; trivial.
  apply Qle_bool_iff in E.
  assert (Hq : (q <= inject_Z (Z.of_nat (S n)))%Q).
  { eapply Qle_trans; [exact E|]. rewrite <- Zle_Qle. lia. }
  apply Qle_bool_iff in Hq. congruence.
Qed.

Lemma size_lt_zero (limit : JsNumber) :
  no_capacity limit <-> size_lt 0 limit = false.
Proof.
  destruct limit as [| | |q]; simpl.
  - tauto.
  - split; [contradiction | discriminate].
  - tauto.
  - rewrite negb_false_iff, Qle_bool_iff. reflexivity.
Qed.

Section PoolCapacity.

Variables Item W R Sh : Type.
Variable start : Item -> nat -> W.
Variable resume : nat -> W -> Sh -> Sh * Outcome W R.
Variable items : list Item.
Variable limit : JsNumber.

Local Abbreviation State := (PoolState W R Sh).

Lemma cap_inv_reaches (sh0 : Sh) (s : State) :
  pool_reaches start resume items limit (pool_init sh0) s -> cap_inv limit s.
Proof.
  intros Hr. induction Hr as [|s1 s2 Hst Hr IH].
  - split; simpl; auto.
  - pose proof (main_inv_reaches _ _ _ _ start resume items limit sh0 s1 Hr)
      as [_ Hmain].
    destruct IH as [Hb Hw]. destruct (step_inv _ _ _ _ _ _ _ _ _ _ Hst).
    + subst s2. unfold cap_inv. cbn [pc set_pc active]. split; [exact Hb|].
      unfold main_step in Hm. destruct (pc s1) as [| | |w| |w| |] eqn:Hpc.
      * destruct (next s1 <? length items)%nat; inversion Hm; exact I.
      * destruct (size_lt (length (active s1)) limit
                  && (next s1 <? length items)%nat).
        -- destruct (nth_error items (next s1)); [|discriminate].
           apply (f_equal (option_map next)) in Hm. simpl in Hm.
           inversion Hm. lia.
        -- inversion Hm. exact I.
      * destruct (length (active s1) =? 0)%nat; inversion Hm; exact I.
      * destruct w; simpl in Hm; inversion Hm; exact I.
      * destruct (length (active s1) =? 0)%nat; inversion Hm; exact I.
      * destruct w; simpl in Hm; inversion Hm; exact I.
      * discriminate.
      * discriminate.
    + subst s2. unfold cap_inv. cbn [runOne active pc]. split.
      * right. rewrite length_app. simpl.
        replace (pred (length (active s1) + 1)) with (length (active s1))
          by lia.
        exact Hcap.
      * rewrite Hpc. exact I.
    + pose proof (remove_nth_length _ _ _ Hk) as Hlen.
      assert (Hpred : size_lt (pred (length (active s1))) limit = true).
      { destruct Hb as [Hb|Hb]; trivial. rewrite Hb in Hk.
        destruct k; discriminate. }
      assert (Hrem : size_lt (length (remove_nth k (active s1))) limit = true).
      { rewrite Hlen in Hpred. exact Hpred. }
      assert (Hrem' : remove_nth k (active s1) = [] \/
                size_lt (pred (length (remove_nth k (active s1)))) limit = true).
      { destruct (remove_nth k (active s1)) as [|x l]; auto. right.
        apply size_lt_mono. exact Hrem. }
      subst s2. unfold cap_inv.
      destruct o as [w'|r|e]; cbn [active pc]; split.
      * right. rewrite replace_nth_length. exact Hpred.
      * rewrite replace_nth_length. exact Hw.
      * exact Hrem'.
      * destruct (pc s1) as [| | |[]| |[]| |]; simpl; trivial.
      * exact Hrem'.
      * destruct (pc s1) as [| | |[]| |[]| |]; simpl; trivial.
Qed.

(** Woken by a settlement with items left in the queue, the main coroutine
    goes round its loop and starts the next item. *)
Lemma refill (sh0 : Sh) (s : State) :
  pool_reaches start resume items limit (pool_init sh0) s ->
  pc s = AwaitRace WokenOk -> (next s < length items)%nat ->
  exists it,
    nth_error items (next s) = Some it /\
    pool_run start resume items limit [None; None; None] s =
      Some {| pc := InnerTest; next := S (next s);
              active := (active s ++ [(next s, start it (next s))])%list;
              results := results s; shared := shared s |}.
Proof.
  intros Hr Hpc Hq.
  destruct (cap_inv_reaches sh0 s Hr) as [_ Hw]. rewrite Hpc in Hw.
  destruct (nth_error items (next s)) as [it|] eqn:Hit.
  2:{ apply nth_error_None in Hit. lia. }
  exists it. split; trivial.
  apply Nat.ltb_lt in Hq.
  unfold pool_run, main_step. rewrite Hpc. cbn [after_await set_pc pc next active].
  rewrite Hq. cbn [set_pc pc next active]. rewrite Hw, Hq. simpl andb.
  cbv iota. rewrite Hit. reflexivity.
Qed.

End PoolCapacity.

(** ** Keys and records *)

Lemma string_length_app (a b : string) :
  String.length (a ++ b) = (String.length a + String.length b)%nat.
Proof.
  induction a as [|c a IH]; simpl; auto.
Qed.

Lemma substring_prefix (a b : string) :
  substring 0 (String.length a) (a ++ b) = a.
Proof.
  induction a as [|c a IH]; simpl.
  - destruct b; reflexivity.
  - rewrite IH. reflexivity.
Qed.

Lemma substring_suffix (a b : string) :
  substring (String.length a) (String.length b) (a ++ b) = b.
Proof.
  induction a as [|c a IH]; simpl; trivial.
  pose proof (substring_prefix b EmptyString) as H.
  rewrite <- H at 3. clear H. induction b; simpl; congruence.
Qed.

Lemma lastIndexOf_from_absent (c : ascii) (s : string) (i acc : Z) :
  contains_char c s = false -> lastIndexOf_from c s i acc = acc.
Proof.
  revert i acc. induction s as [|d s IH]; intros i acc; simpl; trivial.
  intros H. apply orb_false_iff in H as [Hd Hs]. rewrite Hd. auto.
Qed.

Lemma lastIndexOf_from_last (c : ascii) (a v : string) (i acc : Z) :
  contains_char c v = false ->
  lastIndexOf_from c (a ++ String c v) i acc = i + strlen a.
Proof.
  intros Hv. revert i acc. induction a as [|d a IH]; intros i acc; simpl.
  - rewrite Ascii.eqb_refl, lastIndexOf_from_absent by trivial.
    unfold strlen. simpl. lia.
  - rewrite IH. unfold strlen. simpl String.length. lia.
Qed.

(** The key of a match splits back into its two halves when the version
    holds no [@]. *)
Lemma key_split (a v : string) :
  contains_char "@"%char v = false ->
  let key := a ++ "@" ++ v in
  slice key 0 (lastIndexOf "@"%char key) = a /\
  slice_from key (lastIndexOf "@"%char key + 1) = v.
Proof.
  intros Hv key. unfold lastIndexOf. subst key.
  change ("@" ++ v) with (String "@"%char v).
  rewrite (lastIndexOf_from_last "@"%char a v 0 (-1) Hv).
  assert (Hlen : strlen (a ++ String "@"%char v) = strlen a + 1 + strlen v).
  { unfold strlen. rewrite string_length_app. simpl String.length. lia. }
  assert (Ha : 0 <= strlen a) by (unfold strlen; lia).
  assert (Hb : 0 <= strlen v) by (unfold strlen; lia).
  unfold slice_from, slice. rewrite Hlen. unfold rel_index.
  replace (0 <? 0) with false by reflexivity.
  replace (0 + strlen a <? 0) with false by (symmetry; apply Z.ltb_ge; lia).
  replace (0 + strlen a + 1 <? 0) with false by (symmetry; apply Z.ltb_ge; lia).
  replace (strlen a + 1 + strlen v <? 0) with false
    by (symmetry; apply Z.ltb_ge; lia).
  split.
  - replace (Z.to_nat (Z.min 0 (strlen a + 1 + strlen v))) with 0%nat by lia.
    replace (Z.to_nat (Z.min (0 + strlen a) (strlen a + 1 + strlen v)
                       - Z.min 0 (strlen a + 1 + strlen v)))
      with (String.length a) by (unfold strlen; lia).
    apply substring_prefix.
  - replace (Z.to_nat (Z.min (0 + strlen a + 1) (strlen a + 1 + strlen v)))
      with (String.length (a ++ "@")).
    2:{ rewrite string_length_app. unfold strlen. simpl. lia. }
    replace (Z.to_nat (Z.min (strlen a + 1 + strlen v) (strlen a + 1 + strlen v)
                       - Z.min (0 + strlen a + 1) (strlen a + 1 + strlen v)))
      with (String.length v) by (unfold strlen; lia).
    replace (a ++ String "@"%char v) with ((a ++ "@") ++ v).
    2:{ clear. induction a; simpl; congruence. }
    apply substring_suffix.
Qed.

Lemma record_of_key (n v : string) (repos : JsSet) :
  contains_char "@"%char v = false ->
  record_of (keyNameVersion n v, repos) =
  {| MatchRecord.package := toLowerCase n;
     MatchRecord.version := v;
     MatchRecord.repositories := sort_default repos |}.
Proof.
  intros Hv. unfold record_of, keyNameVersion. cbn [fst snd].
  destruct (key_split (toLowerCase n) v Hv) as [-> ->]. reflexivity.
Qed.

(** ** Sorting *)

Section Sorting.

Variable A : Type.
Variable cmp : A -> A -> comparison.

Lemma insert_by_perm (x : A) (l : list A) :
  Permutation (x :: l) (insert_by cmp x l).
Proof.
  induction l as [|y l IH]; simpl; trivial.
  destruct (cmp x y); trivial.
  etransitivity; [apply perm_swap|]. constructor. exact IH.
Qed.

Lemma sortBy_perm (l : list A) : Permutation l (sortBy cmp l).
Proof.
  induction l as [|x l IH]; simpl; trivial.
  etransitivity; [|apply insert_by_perm]. constructor. exact IH.
Qed.

Hypothesis cmp_anti : forall x y, cmp y x = CompOpp (cmp x y).

Lemma insert_by_sorted (x : A) (l : list A) :
  Sorted (le_by cmp) l -> Sorted (le_by cmp) (insert_by cmp x l).
Proof.
  induction l as [|y l IH]; simpl; intros Hs.
  - repeat constructor.
  - destruct (cmp x y) eqn:E.
    + constructor; trivial. constructor. unfold le_by. congruence.
    + constructor; trivial. constructor. unfold le_by. congruence.
    + apply Sorted_inv in Hs as [Hs Hhd]. constructor; auto.
      assert (Hyx : le_by cmp y x).
      { unfold le_by. rewrite cmp_anti, E. discriminate. }
      destruct l as [|z l]; simpl.
      * constructor. exact Hyx.
      * destruct (cmp x z); constructor; trivial;
          apply HdRel_inv in Hhd; exact Hhd.
Qed.

Lemma sortBy_sorted (l : list A) : Sorted (le_by cmp) (sortBy cmp l).
Proof.
  induction l as [|x l IH]; simpl.
  - constructor.
  - apply insert_by_sorted, IH.
Qed.

End Sorting.

Lemma sort_default_perm (l : list string) : Permutation l (sort_default l).
Proof. apply sortBy_perm. Qed.

Lemma sort_default_sorted (l : list string) :
  StronglySorted (le_by String.compare) (sort_default l).
Proof.
  apply Sorted_StronglySorted.
  - intros x y z. apply (cmp_ok_le_trans String.compare x y z String_compare_ok).
  - apply sortBy_sorted. apply (cmp_antisym _ String_compare_ok).
Qed.

(** ** The accumulated map *)

Lemma add_affected_get (m : JsMap JsSet) (pr full k : string) :
  map_get (add_affected m pr full) k =
  if String.eqb pr k
  then Some (set_add (match map_get m pr with Some r => r | None => [] end) full)
  else map_get m k.
Proof.
  unfold add_affected, map_has.
  destruct (map_get m pr) as [r|] eqn:E.
  - rewrite E, map_get_set. reflexivity.
  - rewrite map_get_set, String.eqb_refl, !map_get_set.
    destruct (String.eqb pr k); reflexivity.
Qed.

Lemma add_affected_keys (m : JsMap JsSet) (pr full : string) :
  NoDup (map fst m) -> NoDup (map fst (add_affected m pr full)).
Proof.
  intros H. unfold add_affected, map_has.
  destruct (map_get m pr) as [r|] eqn:E.
  - rewrite E. apply map_set_NoDup, H.
  - rewrite map_get_set, String.eqb_refl. apply map_set_NoDup, map_set_NoDup, H.
Qed.

Lemma set_add_nonempty (s : JsSet) (x : string) : set_add s x <> [].
Proof.
  unfold set_add. destruct (set_has s x) eqn:E.
  - apply set_has_In in E. destruct s; [contradiction | discriminate].
  - destruct s; discriminate.
Qed.

Lemma add_affected_wf (m : JsMap JsSet) (pr full : string) :
  wf_affected m -> wf_affected (add_affected m pr full).
Proof.
  intros [Hk Hs]. split; [apply add_affected_keys, Hk|].
  intros k repos. rewrite add_affected_get.
  destruct (String.eqb pr k); [|apply Hs].
  intros H. inversion H; subst. split; [|apply set_add_nonempty].
  apply set_add_NoDup. destruct (map_get m pr) as [r|] eqn:E.
  - apply (Hs _ _ E).
  - constructor.
Qed.

Lemma add_affected_member (m : JsMap JsSet) (pr full k f : string) :
  member (add_affected m pr full) k f <->
  member m k f \/ (k = pr /\ f = full).
Proof.
  unfold member. rewrite add_affected_get.
  destruct (String.eqb_spec pr k) as [->|Hne].
  - split.
    + intros (repos & H & Hin). inversion H; subst.
      apply set_add_In in Hin as [Hin| ->]; auto.
      destruct (map_get m k) as [r|]; [eauto | contradiction].
    + intros [(repos & H & Hin)|[_ ->]].
      * rewrite H. eexists. split; [reflexivity|]. apply set_add_In. auto.
      * eexists. split; [reflexivity|]. apply set_add_In. auto.
  - split; auto. intros [H|[-> _]]; [exact H | congruence].
Qed.

Lemma merge_found_wf (m : JsMap JsSet) (found : JsSet) (full : string) :
  wf_affected m -> wf_affected (merge_found m found full).
Proof.
  revert m. induction found as [|pr found IH]; intros m H; simpl; trivial.
  apply IH, add_affected_wf, H.
Qed.

Lemma merge_found_member (m : JsMap JsSet) (found : JsSet) (full k f : string) :
  member (merge_found m found full) k f <->
  member m k f \/ (In k found /\ f = full).
Proof.
  revert m. induction found as [|pr found IH]; intros m; simpl.
  - tauto.
  - rewrite IH, add_affected_member. intuition congruence.
Qed.

(** ** The worker *)

Section WorkerProps.

Context {SV : SemverLib}.
Variable ORG : string.
Variable wanted : JsMap string.
Variable responses : nat -> Response.

Lemma try_block_found (resp : Response) (full : string) (m : JsMap JsSet) :
  try_block wanted resp full m =
  (found <- found_of wanted resp ;; Normal (merge_found m found full)).
Proof.
  destruct resp; reflexivity.
Qed.

Lemma parse_valid (p : SpdxPackage) (nv : NameVersion) :
  parsePkgNameVersionFromSpdx p = Normal (Some nv) ->
  semver_valid (version nv) = true.
Proof.
  unfold parsePkgNameVersionFromSpdx.
  destruct (truthy (or_empty (p_name p)) && semver_valid (or_empty (p_versionInfo p)))
    eqn:E.
  - intros H. inversion H; subst. simpl. apply andb_true_iff in E. tauto.
  - destruct (find is_purl_ref (p_externalRefs p)) as [[t [purl|]]|];
      try discriminate.
    destruct (startsWith purl "pkg:npm/"); try discriminate.
    destruct (match_npm_purl purl) as [[m1 m2]|]; try discriminate.
    destruct (decodeURIComponent m1); simpl; try discriminate.
    destruct (semver_valid m2) eqn:E2; intros H; inversion H; subst.
    exact E2.
Qed.

Lemma scan_packages_spec (pkgs : list SpdxPackage) (f found : JsSet) :
  scan_packages wanted f pkgs = Normal found ->
  forall key, In key found <->
    In key f \/
    exists nv, discovered wanted pkgs nv /\
               key = keyNameVersion (name nv) (version nv).
Proof.
  revert f. induction pkgs as [|p pkgs IH]; intros f; simpl.
  - intros H key. inversion H; subst. split; auto.
    intros [H1|(nv & (p & [] & _) & _)]; trivial.
  - unfold scan_package at 1.
    destruct (parsePkgNameVersionFromSpdx p) as [[nv|]|e] eqn:Hp; simpl;
      try discriminate.
    + destruct (isAffected wanted nv) as [hit|e] eqn:Hhit; simpl;
        try discriminate.
      intros H key. rewrite (IH _ H key). destruct hit.
      * rewrite set_add_In. split.
        -- intros [[H1| ->]|(nv' & (q & Hq & Hd) & Hk)]; auto.
           ++ right. exists nv. split; trivial. exists p; repeat split; simpl; tauto.
           ++ right. exists nv'. split; trivial. exists q; repeat split; simpl; tauto.
        -- intros [H1|(nv' & (q & [<-|Hq] & Hq1 & Hq2) & Hk)]; auto.
           ++ left. right. congruence.
           ++ right. exists nv'. split; trivial. exists q; repeat split; simpl; tauto.
      * split.
        -- intros [H1|(nv' & (q & Hq & Hd) & Hk)]; auto.
           right. exists nv'. split; trivial. exists q; repeat split; simpl; tauto.
        -- intros [H1|(nv' & (q & [<-|Hq] & Hq1 & Hq2) & Hk)]; auto.
           ++ congruence.
           ++ right. exists nv'. split; trivial. exists q; repeat split; simpl; tauto.
    + intros H key. rewrite (IH _ H key). split.
      * intros [H1|(nv' & (q & Hq & Hd) & Hk)]; auto.
        right. exists nv'. split; trivial. exists q; repeat split; simpl; tauto.
      * intros [H1|(nv' & (q & [<-|Hq] & Hq1 & Hq2) & Hk)]; auto.
        -- congruence.
        -- right. exists nv'. split; trivial. exists q; repeat split; simpl; tauto.
Qed.

Lemma worker_never_rejects (idx : nat) (w : WorkerState) (sh sh' : Shared)
  (e : JsError) :
  worker_resume ORG wanted responses idx w sh <> (sh', Rejected e).
Proof.
  unfold worker_resume. destruct w as [repo|]; [|discriminate].
  destruct (try_block _ _ _ _) as [m|e']; [discriminate|].
  destruct (wants_backoff e'); discriminate.
Qed.

Lemma worker_resume_decreases (idx : nat) (w : WorkerState)
  (sh sh' : Shared) (w' : WorkerState) :
  worker_resume ORG wanted responses idx w sh = (sh', Pending w') ->
  (worker_size w' < worker_size w)%nat.
Proof.
  unfold worker_resume. destruct w as [repo|]; [|discriminate].
  destruct (try_block _ _ _ _) as [m|e']; [discriminate|].
  destruct (wants_backoff e'); intros H; inversion H; subst. simpl. lia.
Qed.

End WorkerProps.

(** ** The watch index: what the fold keeps *)

Lemma lower_char_idem (c : ascii) : lower_char (lower_char c) = lower_char c.
Proof.
  destruct c as [[] [] [] [] [] [] [] []]; reflexivity.
Qed.

Lemma toLowerCase_idem (s : string) : toLowerCase (toLowerCase s) = toLowerCase s.
Proof.
  induction s as [|c s IH]; simpl; trivial.
  rewrite lower_char_idem, IH. reflexivity.
Qed.

Section WatchIndexExtras.

Context {SV : SemverLib}.

Lemma wanted_loop_filter (m : JsMap string) (es : list NameVersion) :
  wanted_loop m (filter (fun e => semver_valid (version e)) es) = wanted_loop m es.
Proof.
  revert m. induction es as [|e es IH]; intros m; simpl; trivial.
  destruct (semver_valid (version e)) eqn:Hv; simpl.
  - destruct (wanted_step m e); simpl; auto.
  - unfold wanted_step. rewrite Hv. simpl. apply IH.
Qed.

(** X1.  The entries whose version is no semantic version play no part in
    the watch index: the index of a watch list is the index of its entries
    with a valid version. *)
Theorem invalid_entries_ignored (es : list NameVersion) :
  wantedMaxVersion (filter (fun e => semver_valid (version e)) es) =
  wantedMaxVersion es.
Proof.
  apply wanted_loop_filter.
Qed.

(** X2.  Every key of the watch index is in lower case, and every ceiling is
    a valid version, hence not empty and without [@]. *)
Theorem watch_index_keys_lowercase
  (es : list NameVersion) (m : JsMap string) (k v : string) :
  wantedMaxVersion es = Normal m ->
  map_get m k = Some v ->
  toLowerCase k = k /\ semver_valid v = true /\ v <> EmptyString /\
  contains_char "@"%char v = false.
Proof.
  intros Hm Hk.
  destruct (wantedMaxVersion_index es) as (m' & Hm' & Hi).
  assert (m' = m) by congruence. subst m'.
  destruct (idx_listed _ _ Hi k v Hk) as (e & _ & <- & _ & Hv).
  split; [apply toLowerCase_idem|]. split; trivial. split.
  - intros ->. unfold semver_valid in Hv. rewrite semver_parse_empty in Hv.
    discriminate.
  - apply semver_valid_parse in Hv as [x Hx].
    eapply semver_parse_no_at; eauto.
Qed.

End WatchIndexExtras.

Lemma watch_index_keys_lowercase_witness :
  toLowerCase "left-pad" = "left-pad" /\ semver_valid "1.3.0" = true /\
  "1.3.0" <> EmptyString /\ contains_char "@"%char "1.3.0" = false.
Proof.
  apply (watch_index_keys_lowercase
           [{| name := "Left-Pad"; version := "1.3.0" |}]
           [("left-pad", "1.3.0")] "left-pad" "1.3.0"); reflexivity.
Defined.

(** ** Match keys *)

(** X3.  For names of ASCII characters and versions that hold no [@], two
    pairs have the same match key exactly when their names agree up to case
    and their versions are equal. *)
Theorem match_key_injective (n v n' v' : string) :
  ascii_only n = true -> ascii_only n' = true ->
  contains_char "@"%char v = false -> contains_char "@"%char v' = false ->
  (keyNameVersion n v = keyNameVersion n' v' <->
   toLowerCase n = toLowerCase n' /\ v = v').
Proof.
  intros _ _ Hv Hv'. split.
  - intros H.
    destruct (key_split (toLowerCase n) v Hv) as [H1 H2].
    destruct (key_split (toLowerCase n') v' Hv') as [H1' H2'].
    unfold keyNameVersion in H. rewrite H in H1, H2. split; congruence.
  - intros [H ->]. unfold keyNameVersion. rewrite H. reflexivity.
Qed.

Lemma match_key_injective_witness :
  keyNameVersion "Left-Pad" "1.1.0" = keyNameVersion "left-pad" "1.1.0" <->
  toLowerCase "Left-Pad" = toLowerCase "left-pad" /\ "1.1.0" = "1.1.0".
Proof.
  apply (match_key_injective "Left-Pad" "1.1.0" "left-pad" "1.1.0");
    reflexivity.
Defined.

(** ** The record parser *)

Lemma decodeFrom_throws_URIError (n : nat) :
  forall (s : string) (pend : nat) (lo hi : N) (e : JsError),
    (String.length s <= n)%nat ->
    decodeFrom pend lo hi s = Throw e -> e = URIError.
Proof.
  induction n as [|n IH]; intros s pend lo hi e Hlen.
  - destruct s; [|simpl in Hlen; lia].
    destruct pend; simpl; congruence.
  - destruct pend as [|pend]; destruct s as [|c s]; simpl; try congruence.
    + destruct (Ascii.eqb c percent).
      * destruct s as [|h1 [|h2 rest]]; try congruence.
        destruct (hexval h1), (hexval h2); try congruence.
        destruct (_ <? 128)%N.
        -- destruct (decodeFrom 0 0 0 rest) eqn:E; simpl; try congruence.
           intros H. inversion H; subst.
           eapply IH; [|exact E]. simpl in Hlen. lia.
        -- destruct (utf8_lead _) as [[[k lo'] hi']|]; try congruence.
           destruct (decodeFrom k lo' hi' rest) eqn:E; simpl; try congruence.
           intros H. inversion H; subst.
           eapply IH; [|exact E]. simpl in Hlen. lia.
      * destruct (decodeFrom 0 0 0 s) eqn:E; simpl; try congruence.
        intros H. inversion H; subst.
        eapply IH; [|exact E]. simpl in Hlen. lia.
    + destruct s as [|h1 [|h2 rest]]; try congruence.
      destruct (Ascii.eqb c percent); try congruence.
      destruct (hexval h1), (hexval h2); try congruence.
      destruct (_ && _)%bool; try congruence.
      destruct (decodeFrom pend 128 191 rest) eqn:E; simpl; try congruence.
      intros H. inversion H; subst.
      eapply IH; [|exact E]. simpl in Hlen. lia.
Qed.

Lemma decode_without_percent (s : string) :
  contains_char percent s = false -> decodeURIComponent s = Normal s.
Proof.
  unfold decodeURIComponent. induction s as [|c s IH]; simpl; trivial.
  intros H. apply orb_false_iff in H as [Hc Hs].
  rewrite Hc, (IH Hs). reflexivity.
Qed.

Lemma decode_nonempty (s r : string) :
  s <> EmptyString -> decodeURIComponent s = Normal r -> r <> EmptyString.
Proof.
  unfold decodeURIComponent. destruct s as [|c s]; [congruence|]. intros _.
  simpl. destruct (Ascii.eqb c percent).
  - destruct s as [|h1 [|h2 rest]]; try discriminate.
    destruct (hexval h1), (hexval h2); try discriminate.
    destruct (_ <? 128)%N.
    + destruct (decodeFrom 0 0 0 rest); simpl; intros H; inversion H;
        discriminate.
    + destruct (utf8_lead _) as [[[k lo'] hi']|]; try discriminate.
      destruct (decodeFrom k lo' hi' rest); simpl; intros H; inversion H;
        discriminate.
  - destruct (decodeFrom 0 0 0 s); simpl; intros H; inversion H; discriminate.
Qed.

Lemma contains_substring (c : ascii) (s : string) (n m : nat) :
  contains_char c (substring n m s) = true -> contains_char c s = true.
Proof.
  revert n m. induction s as [|d s IH]; intros n m.
  - destruct n, m; simpl; trivial.
  - destruct n as [|n].
    + destruct m as [|m]; simpl; [discriminate|].
      intros H. apply orb_true_iff in H as [H|H].
      * rewrite H. reflexivity.
      * rewrite (IH _ _ H). apply orb_true_r.
    + simpl. intros H. rewrite (IH _ _ H). apply orb_true_r.
Qed.

Lemma substring_length_le (s : string) (n m : nat) :
  (String.length (substring n m s) <= String.length s)%nat.
Proof.
  revert n m. induction s as [|d s IH]; intros n m.
  - destruct n, m; simpl; lia.
  - destruct n as [|n].
    + destruct m as [|m]; simpl; [lia|]. specialize (IH 0%nat m). lia.
    + simpl. specialize (IH n m). lia.
Qed.

Lemma lastIndexOf_from_bound (c : ascii) (s : string) (i acc : Z) :
  lastIndexOf_from c s i acc = acc \/
  (i <= lastIndexOf_from c s i acc < i + strlen s).
Proof.
  revert i acc. induction s as [|d s IH]; intros i acc; simpl; auto.
  assert (Hlen : strlen (String d s) = 1 + strlen s)
    by (unfold strlen; simpl String.length; lia).
  assert (Hs : 0 <= strlen s) by (unfold strlen; lia).
  rewrite Hlen.
  destruct (IH (i + 1) (if Ascii.eqb d c then i else acc)) as [H|H].
  - rewrite H. destruct (Ascii.eqb d c); auto. right. lia.
  - right. lia.
Qed.

Lemma lastIndexOf_bound (c : ascii) (s : string) :
  -1 <= lastIndexOf c s < strlen s.
Proof.
  unfold lastIndexOf.
  assert (Hs : 0 <= strlen s) by (unfold strlen; lia).
  destruct (lastIndexOf_from_bound c s 0 (-1)) as [H|H]; lia.
Qed.

Lemma match_npm_purl_parts (purl m1 m2 : string) :
  match_npm_purl purl = Some (m1, m2) ->
  m1 <> EmptyString /\
  forall c, contains_char c m1 = true -> contains_char c purl = true.
Proof.
  unfold match_npm_purl.
  destruct (prefix "pkg:npm/" purl); try discriminate.
  set (rest := slice_from purl 8).
  destruct (has_line_terminator rest); try discriminate.
  set (at_ := lastIndexOf "@"%char (slice rest 0 (strlen rest - 1))).
  destruct (at_ <=? 0) eqn:Hat; try discriminate.
  apply Z.leb_gt in Hat.
  intros H. inversion H; subst m1 m2. clear H. split.
  - pose proof (lastIndexOf_bound "@"%char (slice rest 0 (strlen rest - 1))) as Hb.
    fold at_ in Hb.
    assert (Hle : strlen (slice rest 0 (strlen rest - 1)) <= strlen rest).
    { unfold slice, strlen.
      pose proof (substring_length_le rest
        (Z.to_nat (rel_index (Z.of_nat (String.length rest)) 0))
        (Z.to_nat (rel_index (Z.of_nat (String.length rest))
                     (Z.of_nat (String.length rest) - 1)
                   - rel_index (Z.of_nat (String.length rest)) 0))).
      lia. }
    unfold slice, rel_index.
    replace (0 <? 0) with false by reflexivity.
    replace (at_ <? 0) with false by (symmetry; apply Z.ltb_ge; lia).
    replace (Z.to_nat (Z.min 0 (strlen rest))) with 0%nat
      by (unfold strlen; lia).
    destruct rest as [|c rest']; [unfold strlen in *; simpl in *; lia|].
    destruct (Z.to_nat (Z.min at_ (strlen (String c rest'))
                        - Z.min 0 (strlen (String c rest')))) eqn:E.
    + unfold strlen in *. simpl String.length in *. lia.
    + simpl. discriminate.
  - intros c Hc. unfold slice in Hc. apply contains_substring in Hc.
    unfold rest, slice_from, slice in Hc. apply contains_substring in Hc.
    exact Hc.
Qed.

Lemma find_app_first {A : Type} (f : A -> bool) (pre rest : list A) (r : A) :
  (forall x, In x pre -> f x = false) -> f r = true ->
  find f (pre ++ r :: rest) = Some r.
Proof.
  intros Hpre Hr. induction pre as [|x pre IH]; simpl.
  - rewrite Hr. reflexivity.
  - rewrite (Hpre x (or_introl eq_refl)). apply IH.
    intros y Hy. apply Hpre. right. exact Hy.
Qed.

Section ParserExtras.

Context {SV : SemverLib}.

(** When the parser throws on a record, it throws [URIError] and the first
    purl reference of the record is an npm locator with a percent sign. *)
Lemma parser_throws_spec (p : SpdxPackage) (e : JsError) :
  parsePkgNameVersionFromSpdx p = Throw e ->
  e = URIError /\
  exists r purl,
    find is_purl_ref (p_externalRefs p) = Some r /\
    referenceLocator r = Some purl /\
    startsWith purl "pkg:npm/" = true /\
    contains_char percent purl = true.
Proof.
  unfold parsePkgNameVersionFromSpdx.
  destruct (truthy _ && semver_valid _); try discriminate.
  destruct (find is_purl_ref (p_externalRefs p)) as [[t [purl|]]|];
    try discriminate.
  destruct (startsWith purl "pkg:npm/") eqn:Hs; try discriminate.
  destruct (match_npm_purl purl) as [[m1 m2]|] eqn:Hm; try discriminate.
  destruct (decodeURIComponent m1) as [r|e'] eqn:Hd; simpl.
  - destruct (semver_valid m2); discriminate.
  - intros H. inversion H; subst e'. split.
    + eapply decodeFrom_throws_URIError; [apply Nat.le_refl | exact Hd].
    + exists {| referenceType := t; referenceLocator := Some purl |}, purl.
      repeat split; trivial.
      destruct (match_npm_purl_parts purl m1 m2 Hm) as [_ Hsub].
      apply Hsub.
      destruct (contains_char percent m1) eqn:Hc; trivial.
      rewrite (decode_without_percent m1 Hc) in Hd. discriminate.
Qed.

(** X4.  On an element of [sbom.packages] that is [null] or an object whose
    name and version are strings or missing, the record parser throws in two
    cases only: the [TypeError] of reading a property of [null], and
    [URIError] for a record whose first purl reference is an npm locator
    that holds a percent sign. *)
Theorem parser_throws_on_null_or_percent
  (p : option SpdxPackage) (e : JsError) :
  parseElement p = Throw e ->
  (p = None /\ e = null_element_error) \/
  (e = URIError /\
   exists q r purl,
     p = Some q /\
     find is_purl_ref (p_externalRefs q) = Some r /\
     referenceLocator r = Some purl /\
     startsWith purl "pkg:npm/" = true /\
     contains_char percent purl = true).
Proof.
  destruct p as [q|]; simpl.
  - intros H. right.
    destruct (parser_throws_spec q e H) as (He & r & purl & Hr).
    split; trivial. exists q, r, purl. split; trivial.
  - intros H. injection H as <-. left. split; reflexivity.
Qed.

(** X5.  Every pair the record parser returns has a name that is not empty
    and a version that is a valid semantic version without [@]. *)
Theorem parser_result_well_formed (p : SpdxPackage) (nv : NameVersion) :
  parsePkgNameVersionFromSpdx p = Normal (Some nv) ->
  name nv <> EmptyString /\ semver_valid (version nv) = true /\
  contains_char "@"%char (version nv) = false.
Proof.
  intros H. pose proof (parse_valid p nv H) as Hv.
  split; [|split; trivial].
  - revert H. unfold parsePkgNameVersionFromSpdx.
    destruct (truthy (or_empty (p_name p)) && semver_valid _) eqn:E.
    + intros H. inversion H; subst. simpl.
      apply andb_true_iff in E as [E _]. intros Hn. rewrite Hn in E.
      discriminate.
    + destruct (find is_purl_ref (p_externalRefs p)) as [[t [purl|]]|];
        try discriminate.
      destruct (startsWith purl "pkg:npm/"); try discriminate.
      destruct (match_npm_purl purl) as [[m1 m2]|] eqn:Hm; try discriminate.
      destruct (decodeURIComponent m1) as [r|e'] eqn:Hd; simpl;
        try discriminate.
      destruct (semver_valid m2); intros H; inversion H; subst. simpl.
      eapply decode_nonempty; [|exact Hd].
      apply (match_npm_purl_parts purl m1 m2 Hm).
  - apply semver_valid_parse in Hv as [x Hx].
    eapply semver_parse_no_at; eauto.
Qed.

(** X6.  The fallback looks at one reference only, the first of type [purl]:
    the references before it and after it do not change the result, also
    when that first one is no npm locator and a later one is. *)
Theorem parser_reads_first_purl_only
  (n v : option string) (pre rest : list ExternalRef) (r : ExternalRef) :
  (forall x, In x pre -> is_purl_ref x = false) ->
  is_purl_ref r = true ->
  parsePkgNameVersionFromSpdx
    {| p_name := n; p_versionInfo := v; p_externalRefs := pre ++ r :: rest |} =
  parsePkgNameVersionFromSpdx
    {| p_name := n; p_versionInfo := v; p_externalRefs := [r] |}.
Proof.
  intros Hpre Hr. unfold parsePkgNameVersionFromSpdx. simpl p_name.
  simpl p_versionInfo. simpl p_externalRefs.
  rewrite (find_app_first is_purl_ref pre rest r Hpre Hr).
  simpl find. rewrite Hr. reflexivity.
Qed.

End ParserExtras.

Lemma parser_throws_on_null_or_percent_witness :
  (Some {| p_name := None; p_versionInfo := None;
           p_externalRefs := [purl_ref "pkg:npm/%@1.0.0"] |} = None /\
   URIError = null_element_error) \/
  (URIError = URIError /\
   exists q r purl,
     Some {| p_name := None; p_versionInfo := None;
             p_externalRefs := [purl_ref "pkg:npm/%@1.0.0"] |} = Some q /\
     find is_purl_ref (p_externalRefs q) = Some r /\
     referenceLocator r = Some purl /\
     startsWith purl "pkg:npm/" = true /\
     contains_char percent purl = true).
Proof.
  apply (parser_throws_on_null_or_percent
           (Some {| p_name := None; p_versionInfo := None;
                    p_externalRefs := [purl_ref "pkg:npm/%@1.0.0"] |})
           URIError).
  reflexivity.
Defined.

Lemma parser_result_well_formed_witness :
  "@scope/name" <> EmptyString /\ semver_valid "1.2.3" = true /\
  contains_char "@"%char "1.2.3" = false.
Proof.
  apply (parser_result_well_formed
           {| p_name := None; p_versionInfo := None;
              p_externalRefs := [purl_ref "pkg:npm/%40scope/name@1.2.3"] |}
           {| name := "@scope/name"; version := "1.2.3" |}).
  reflexivity.
Defined.

Lemma parser_reads_first_purl_only_witness :
  parsePkgNameVersionFromSpdx
    {| p_name := None; p_versionInfo := None;
       p_externalRefs :=
         [{| referenceType := Some "cpe23Type"; referenceLocator := None |};
          purl_ref "pkg:pypi/left-pad@1.0.0";
          purl_ref "pkg:npm/left-pad@1.0.0"] |} =
  parsePkgNameVersionFromSpdx
    {| p_name := None; p_versionInfo := None;
       p_externalRefs := [purl_ref "pkg:pypi/left-pad@1.0.0"] |}.
Proof.
  apply (parser_reads_first_purl_only None None
           [{| referenceType := Some "cpe23Type"; referenceLocator := None |}]
           [purl_ref "pkg:npm/left-pad@1.0.0"]
           (purl_ref "pkg:pypi/left-pad@1.0.0")).
  - intros x [<-|[]]. reflexivity.
  - reflexivity.
Defined.

(** ** The scan: what the accumulated map holds *)

Lemma event_fields {W R Sh : Type} (s s' : PoolState W R Sh)
  (k idx : nat) (w : W) (sh : Sh) (o : Outcome W R) :
  nth_error (active s) k = Some (idx, w) ->
  s' =
    match o with
    | Pending w' =>
        {| pc := pc s; next := next s;
           active := replace_nth k (idx, w') (active s);
           results := results s; shared := sh |}
    | Fulfilled r =>
        {| pc := wake_pc (pc s) WokenOk; next := next s;
           active := remove_nth k (active s);
           results := (results s ++ [(idx, r)])%list; shared := sh |}
    | Rejected e =>
        {| pc := wake_pc (pc s) (WokenErr e); next := next s;
           active := remove_nth k (active s);
           results := results s; shared := sh |}
    end ->
  exists l1 l2,
    active s = (l1 ++ (idx, w) :: l2)%list /\
    next s' = next s /\ shared s' = sh /\
    match o with
    | Pending w' => active s' = (l1 ++ (idx, w') :: l2)%list
    | _ => active s' = (l1 ++ l2)%list
    end.
Proof.
  intros Hk ->.
  destruct (remove_nth_split _ _ _ Hk) as (l1 & l2 & Ha & Hrem & Hrep).
  exists l1, l2. destruct o; simpl; rewrite ?Hrem, ?Hrep; auto.
Qed.

Lemma requesting_spawn (act : list (nat * WorkerState)) (n i : nat) (it : Repo) :
  requesting (act ++ [(n, AwaitRequest it)]) i <-> requesting act i \/ i = n.
Proof.
  unfold requesting. split.
  - intros (repo & Hin). apply in_app_iff in Hin as [Hin|[Hin|[]]]; eauto.
    inversion Hin. auto.
  - intros [(repo & Hin)| ->].
    + exists repo. apply in_app_iff. auto.
    + exists it. apply in_app_iff. simpl. auto.
Qed.

Lemma requesting_event (l1 l2 act' : list (nat * WorkerState)) (idx : nat)
  (w : WorkerState) :
  NoDup (map fst (l1 ++ (idx, w) :: l2)) ->
  act' = (l1 ++ l2)%list \/ act' = (l1 ++ (idx, AwaitSleep) :: l2)%list ->
  forall i, requesting act' i <->
            requesting (l1 ++ (idx, w) :: l2) i /\ i <> idx.
Proof.
  intros Hnd Hact i. rewrite map_app in Hnd. simpl in Hnd.
  pose proof (NoDup_remove_2 _ _ _ Hnd) as Hnot.
  assert (Hfresh : forall v, ~ In (idx, v) (l1 ++ l2)).
  { intros v Hin. apply Hnot. rewrite <- map_app.
    change idx with (fst (idx, v)). apply in_map, Hin. }
  unfold requesting. split.
  - intros (repo & Hin). split.
    + exists repo. destruct Hact as [-> | ->];
        apply in_app_iff in Hin as [Hin|Hin]; apply in_app_iff; simpl; auto.
      destruct Hin as [Hin|Hin]; [discriminate | auto].
    + intros ->. apply (Hfresh (AwaitRequest repo)).
      destruct Hact as [-> | ->]; trivial.
      apply in_app_iff in Hin as [Hin|[Hin|Hin]]; apply in_app_iff; auto.
      discriminate.
  - intros [(repo & Hin) Hne]. exists repo.
    apply in_app_iff in Hin as [Hin|[Hin|Hin]].
    + destruct Hact as [-> | ->]; apply in_app_iff; auto.
    + congruence.
    + destruct Hact as [-> | ->]; apply in_app_iff; simpl; auto.
Qed.

Section ScanProps.

Context {SV : SemverLib}.
Variable cfg : Config.
Variable repos : list Repo.
Variable responses : nat -> Response.
Variable wanted : JsMap string.

Local Abbreviation rts := (reposToScan cfg repos).
Local Abbreviation reaches := (scan_reaches cfg repos responses wanted).

Lemma scan_settled (s : ScanState) :
  reaches scan_init s ->
  Permutation (map fst (results s) ++ map fst (active s)) (seq 0 (next s)) /\
  no_failure (pc s).
Proof.
  intros Hr.
  apply (settled_inv_reaches Repo WorkerState unit Shared worker_start
           (worker_resume (ORG cfg) wanted responses) rts (CONCURRENCY cfg)
           (worker_never_rejects (ORG cfg) wanted responses) _ s Hr).
Qed.

Lemma scan_active_nodup (s : ScanState) :
  reaches scan_init s ->
  NoDup (map fst (active s)) /\
  forall idx w, In (idx, w) (active s) -> (idx < next s)%nat.
Proof.
  intros Hr. destruct (scan_settled s Hr) as [Hperm _].
  assert (Hnd : NoDup (map fst (results s) ++ map fst (active s))).
  { eapply Permutation_NoDup; [apply Permutation_sym, Hperm | apply seq_NoDup]. }
  split.
  - eapply NoDup_app_remove_l, Hnd.
  - intros idx w Hin.
    assert (H : In idx (seq 0 (next s))).
    { eapply Permutation_in; [exact Hperm|]. apply in_app_iff. right.
      change idx with (fst (idx, w)). apply in_map, Hin. }
    apply in_seq in H. lia.
Qed.

Lemma scan_inv_reaches (s : ScanState) :
  reaches scan_init s -> scan_inv cfg repos responses wanted s.
Proof.
  intros Hr. induction Hr as [|s1 s2 Hst Hr IH].
  - split; simpl.
    + split; [constructor | discriminate].
    + tauto.
    + intros key full. split.
      * intros (r & H & _). discriminate.
      * intros (idx & repo & found & [Hlt _] & _). simpl in Hlt. lia.
    + intros idx repo e [Hlt _]. simpl in Hlt. lia.
  - destruct (scan_active_nodup s1 Hr) as [Hnd Hlt].
    destruct IH as [Hwf Hact Hmem Hcon].
    destruct (step_inv _ _ _ _ _ _ _ _ _ _ Hst).
    + subst s2. split; assumption.
    + subst s2. unfold worker_start.
      assert (Hproc : forall i, processed (runOne worker_start it s1) i <->
                                processed s1 i).
      { intros i. unfold processed. cbn [runOne next active].
        unfold worker_start. rewrite requesting_spawn. split.
        - intros [Hi Hn]. split; [|tauto].
          destruct (Nat.eq_dec i (next s1)); [tauto | lia].
        - intros [Hi Hn]. split; [lia|]. intros [H|H]; [tauto | lia]. }
      split; cbn [runOne shared active]; trivial.
      * intros idx repo Hin. apply in_app_iff in Hin as [Hin|[Hin|[]]]; auto.
        inversion Hin; subst. exact Hit.
      * intros key full. rewrite Hmem. unfold hit.
        split; intros (idx & repo & found & Hp & H); exists idx, repo, found;
          (split; [apply Hproc, Hp | exact H]).
      * intros idx repo e Hp. apply Hcon, Hproc, Hp.
    + destruct (event_fields s1 s2 k idx w sh o Hk Hs)
        as (l1 & l2 & Ha & Hnext & Hsh & Hact').
      rewrite Ha in Hnd.
      assert (Hidx : (idx < next s1)%nat).
      { apply (Hlt idx w). rewrite Ha. apply in_app_iff. simpl. auto. }
      assert (Hreq : forall i, requesting (active s2) i <->
                               requesting (active s1) i /\ i <> idx).
      { rewrite Ha. apply (requesting_event l1 l2 (active s2) idx w Hnd).
        unfold worker_resume in Hr0. destruct w as [repo|].
        - destruct (try_block _ _ _ _) as [m|e'].
          + inversion Hr0; subst o. auto.
          + destruct (wants_backoff e'); inversion Hr0; subst o; auto.
        - inversion Hr0; subst o. auto. }
      assert (Hkeep : forall i, processed s1 i -> processed s2 i).
      { intros i [Hi Hn]. split; [lia|]. rewrite Hreq. tauto. }
      assert (Hback : forall i, processed s2 i -> processed s1 i \/ i = idx).
      { intros i [Hi Hn]. rewrite Hreq in Hn.
        destruct (Nat.eq_dec i idx); auto. left. split; [lia|tauto]. }
      assert (Hact2 : forall i repo, In (i, AwaitRequest repo) (active s2) ->
                                     nth_error rts i = Some repo).
      { intros i repo Hin. apply Hact.
        assert (H : requesting (active s2) i) by (exists repo; exact Hin).
        rewrite Ha. clear H.
        destruct o; rewrite Hact' in Hin;
          apply in_app_iff in Hin as [Hin|Hin]; apply in_app_iff; simpl; auto.
        destruct Hin as [Hin|Hin]; auto.
        inversion Hin; subst.
        unfold worker_resume in Hr0. destruct w as [repo'|].
        - destruct (try_block _ _ _ _) as [m|e'].
          + inversion Hr0.
          + destruct (wants_backoff e'); inversion Hr0.
        - inversion Hr0. }
      unfold worker_resume in Hr0. destruct w as [repo|].
      * assert (Hrepo : nth_error rts idx = Some repo).
        { apply Hact. rewrite Ha. apply in_app_iff. simpl. auto. }
        assert (Hnew : processed s2 idx).
        { split; [lia|]. rewrite Hreq. tauto. }
        assert (Hold : ~ processed s1 idx).
        { intros [_ Hn]. apply Hn. exists repo. rewrite Ha.
          apply in_app_iff. simpl. auto. }
        rewrite try_block_found in Hr0.
        destruct (found_of wanted (responses idx)) as [found|e'] eqn:Hf;
          simpl in Hr0.
        -- injection Hr0 as <- <-.
           split; rewrite ?Hsh; cbn [affectedMap console]; trivial.
           ++ apply merge_found_wf, Hwf.
           ++ intros key full. rewrite merge_found_member, Hmem. unfold hit.
              split.
              ** intros [(i & r & f & Hp & H)|[Hin ->]].
                 --- exists i, r, f. split; auto.
                 --- exists idx, repo, found. auto.
              ** intros (i & r & f & Hp & Hr1 & Hf1 & Hin & Hfull).
                 destruct (Hback i Hp) as [Hp1| ->].
                 --- left. exists i, r, f. auto.
                 --- right. split; congruence.
           ++ intros i r e Hp Hr1 Hf1.
              destruct (Hback i Hp) as [Hp1| ->]; [eauto | congruence].
        -- assert (Hsh' : sh = {| affectedMap := affectedMap (shared s1);
                                  console := app (console (shared s1))
                                               [failure_line cfg repo e'] |}).
           { destruct (wants_backoff e'); inversion Hr0; reflexivity. }
           clear Hr0.
           split; rewrite ?Hsh, ?Hsh'; cbn [affectedMap console]; trivial.
           ++ intros key full. rewrite Hmem. unfold hit. split.
              ** intros (i & r & f & Hp & H). exists i, r, f. split; auto.
              ** intros (i & r & f & Hp & Hr1 & Hf1 & H).
                 destruct (Hback i Hp) as [Hp1| ->]; [|congruence].
                 exists i, r, f. auto.
           ++ intros i r e Hp Hr1 Hf1. apply in_app_iff.
              destruct (Hback i Hp) as [Hp1| ->]; [left; eauto|].
              right. simpl. left. congruence.
      * injection Hr0 as <- <-.
        assert (Hsame : forall i, processed s2 i -> processed s1 i).
        { intros i Hp. destruct (Hback i Hp) as [Hp1| ->]; trivial.
          split; trivial. intros (repo & Hin).
          rewrite Ha in Hin. rewrite map_app in Hnd. simpl in Hnd.
          apply NoDup_remove_2 in Hnd. apply Hnd. rewrite <- map_app.
          apply in_app_iff in Hin as [Hin|[Hin|Hin]]; try discriminate;
            change idx with (fst (idx, AwaitRequest repo));
            apply in_map, in_app_iff; auto. }
        split; rewrite ?Hsh; trivial.
        -- intros key full. rewrite Hmem. unfold hit.
           split; intros (i & r & f & Hp & H); exists i, r, f; split; auto.
        -- intros i r e Hp. apply Hcon, Hsame, Hp.
Qed.

End ScanProps.

(** ** The scan of one SBOM, against the watch index *)

Section ScanSpec.

Context {SV : SemverLib}.
Variable wanted : JsMap string.


Hypothesis wanted_valid : all_valid wanted.

Lemma isAffected_spec (nv : NameVersion) :
  semver_valid (version nv) = true ->
  exists hit, isAffected wanted nv = Normal hit /\
    (hit = true <->
     exists V, map_get wanted (toLowerCase (name nv)) = Some V /\
               semver_le (version nv) V).
Proof.
  intros Hv. unfold isAffected.
  destruct (map_get wanted (toLowerCase (name nv))) as [V|] eqn:Hget.
  - pose proof (wanted_valid _ _ Hget) as HV.
    rewrite (semver_valid_truthy V HV). simpl.
    destruct (semver_lte_spec (version nv) V Hv HV) as (r & Hr & Hiff).
    exists r. split; trivial. rewrite Hiff. split.
    + intros Hle. exists V. auto.
    + intros (V' & E & Hle). congruence.
  - exists false. split; trivial.
    split; [discriminate | intros (V & E & _); discriminate].
Qed.

Lemma discovered_expected (pkgs : list SpdxPackage) (nv : NameVersion) :
  discovered wanted pkgs nv <-> expected wanted pkgs nv.
Proof.
  unfold discovered, expected. split; intros (p & Hin & Hp & H); exists p;
    (split; [exact Hin|]); (split; [exact Hp|]);
    destruct (isAffected_spec nv (parse_valid p nv Hp)) as (hit & Hhit & Hiff).
  - apply Hiff. congruence.
  - rewrite Hhit. f_equal. apply Hiff, H.
Qed.

Lemma scan_packages_total (pkgs : list SpdxPackage) (f : JsSet) :
  parsed_cleanly pkgs -> exists found, scan_packages wanted f pkgs = Normal found.
Proof.
  revert f. induction pkgs as [|p pkgs IH]; intros f Hc; simpl; eauto.
  assert (Hstep : exists f', scan_package wanted f p = Normal f').
  { unfold scan_package.
    destruct (parsePkgNameVersionFromSpdx p) as [[nv|]|e] eqn:Hp; simpl.
    - destruct (isAffected_spec nv (parse_valid p nv Hp)) as (hit & -> & _).
      simpl. eauto.
    - eauto.
    - exfalso. apply (Hc p (or_introl eq_refl) e Hp). }
  destruct Hstep as [f' ->]. simpl. apply IH.
  intros q Hq. apply Hc. right. exact Hq.
Qed.


End ScanSpec.

Section CleanRecords.

Context {SV : SemverLib}.

Lemma no_escape_clean (pkgs : list SpdxPackage) :
  (forall p, In p pkgs -> no_escape p) -> parsed_cleanly pkgs.
Proof.
  intros H p Hin e He.
  destruct (parser_throws_spec p e He) as (_ & r & purl & Hr & Hl & _ & Hc).
  rewrite (H p Hin r purl Hr Hl) in Hc. discriminate.
Qed.

End CleanRecords.

(** ** Claims about the pool and the scan *)

Lemma pool_run_reaches {Item W R Sh : Type} (start : Item -> nat -> W)
  (resume : nat -> W -> Sh -> Sh * Outcome W R) (items : list Item)
  (limit : JsNumber) (sched : list (option nat)) (s s' : PoolState W R Sh) :
  pool_run start resume items limit sched s = Some s' ->
  pool_reaches start resume items limit s s'.
Proof.
  revert s. induction sched as [|[k|] sched IH]; intros s; simpl.
  - intros H. inversion H. constructor.
  - destruct (event_step resume k s) as [s1|] eqn:E; [|discriminate].
    intros H. eapply reaches_trans; [|apply IH, H].
    econstructor; [|constructor]. right. exists k. exact E.
  - destruct (main_step start items limit s) as [s1|] eqn:E; [|discriminate].
    intros H. eapply reaches_trans; [|apply IH, H].
    econstructor; [|constructor]. left. exact E.
Qed.

(** C10, amended.  For a non-empty item list the pool goes one of two ways,
    by whether [0 < limit] holds.  When it does not (the limit is 0,
    negative or NaN), every state the pool reaches has started no worker
    (the index is still 0 and nothing is pending), is at one of the three
    tests of the main loop (never at an [await], never returned), and has a
    successor: the loop goes round for ever.  When it does (any positive
    limit, also below 1), the first two moves start the first worker, no run
    goes on for ever, and every run can be carried on to the end of the
    pool.  The workers are such that each resumption that does not settle
    brings the worker nearer to its settlement. *)
Theorem pool_without_capacity_spins {Item W R Sh : Type}
  (start : Item -> nat -> W) (resume : nat -> W -> Sh -> Sh * Outcome W R)
  (items : list Item) (limit : JsNumber) (sh0 : Sh) (wsize : W -> nat) :
  items <> [] ->
  (forall idx w sh sh' w',
     resume idx w sh = (sh', Pending w') -> (wsize w' < wsize w)%nat) ->
  (no_capacity limit <-> size_lt 0 limit = false) /\
  (size_lt 0 limit = true ->
   exists it,
     nth_error items 0 = Some it /\
     pool_run start resume items limit [None; None] (pool_init sh0) =
       Some {| pc := InnerTest; next := 1;
               active := [(0%nat, start it 0%nat)];
               results := []; shared := sh0 |}) /\
  forall s, pool_reaches start resume items limit (pool_init sh0) s ->
    (no_capacity limit ->
     next s = 0%nat /\ active s = [] /\
     (pc s = OuterTest \/ pc s = InnerTest \/ pc s = IfActive) /\
     exists s', pool_step start resume items limit s s') /\
    (size_lt 0 limit = true ->
     Acc (fun s2 s1 => pool_step start resume items limit s1 s2) s /\
     exists f, pool_reaches start resume items limit s f /\ final (pc f)).
Proof.
  intros Hitems Hdec. split; [apply size_lt_zero|]. split.
  - intros Hcap. destruct items as [|it items']; [congruence|].
    exists it. split; [reflexivity|].
    unfold pool_run, main_step. cbn. rewrite Hcap. reflexivity.
  - intros s Hr. split.
    + intros Hcap.
      pose proof (spinning_reaches Item W R Sh start resume items limit sh0 s
                    Hitems Hcap Hr) as Hspin.
      destruct (spinning_steps Item W R Sh start resume items limit sh0 s
                  Hitems Hcap Hspin) as [s' Hs'].
      destruct Hspin as (Hn & Ha & _ & _ & Hpc). eauto.
    + intros Hcap. split.
      * apply (runs_finite Item W R Sh start resume items limit wsize Hdec
                 Hcap sh0 s Hr).
      * apply (run_completes Item W R Sh start resume items limit wsize Hdec
                 Hcap sh0 s Hr).
Qed.

Section ScanClaims.

Context {SV : SemverLib}.
Variable cfg : Config.
Variable repos : list Repo.
Variable responses : nat -> Response.
Variable wanted : JsMap string.

Local Abbreviation rts := (reposToScan cfg repos).
Local Abbreviation reaches := (scan_reaches cfg repos responses wanted).

(** C9, amended.  In every state the scan reaches, whatever the limit: a
    worker is started only while the number pending is below the limit, so
    the pending set is empty or its size less one is below the limit (for a
    natural limit [N], at most [N] are pending); the main coroutine is
    asleep in the main loop with a non-empty queue only when the pool is
    full (for a natural limit, exactly [N] pending); when a pending
    operation then settles, the next three moves of the main coroutine
    start the next repository of the queue; the pool never fails, whatever
    the outcome of an operation; when the pool has returned, every
    repository of the list has been started and its operation has settled,
    each exactly once; and for a limit above 0 no run goes on for ever and
    every run can be carried on to the return. *)
Theorem pool_bounded_concurrency (s : ScanState) :
  reaches scan_init s ->
  (active s = [] \/
   size_lt (pred (length (active s))) (CONCURRENCY cfg) = true) /\
  (forall N : nat, CONCURRENCY cfg = Finite (inject_Z (Z.of_nat N)) ->
     (length (active s) <= N)%nat /\
     (pc s = AwaitRace Asleep -> (next s < length rts)%nat ->
      length (active s) = N)) /\
  (pc s = AwaitRace Asleep -> (next s < length rts)%nat ->
   size_lt (length (active s)) (CONCURRENCY cfg) = false) /\
  (forall k s1,
     pc s = AwaitRace Asleep -> (next s < length rts)%nat ->
     event_step (worker_resume (ORG cfg) wanted responses) k s = Some s1 ->
     (length (active s1) < length (active s))%nat ->
     exists repo,
       nth_error rts (next s) = Some repo /\
       pool_run worker_start (worker_resume (ORG cfg) wanted responses) rts
         (CONCURRENCY cfg) [None; None; None] s1 =
       Some {| pc := InnerTest; next := S (next s);
               active :=
                 (active s1 ++ [(next s, worker_start repo (next s))])%list;
               results := results s1; shared := shared s1 |}) /\
  (forall e, pc s <> Failed e) /\
  (pc s = Returned ->
   next s = length rts /\ active s = [] /\
   Permutation (map fst (results s)) (seq 0 (length rts))) /\
  (size_lt 0 (CONCURRENCY cfg) = true ->
   Acc (fun s2 s1 => scan_step cfg repos responses wanted s1 s2) s /\
   exists final, reaches s final /\ pc final = Returned).
Proof.
  intros Hr.
  pose proof (main_inv_reaches Repo WorkerState unit Shared worker_start
                (worker_resume (ORG cfg) wanted responses) rts
                (CONCURRENCY cfg) _ s Hr) as [Hn Hmain].
  destruct (cap_inv_reaches Repo WorkerState unit Shared worker_start
              (worker_resume (ORG cfg) wanted responses) rts
              (CONCURRENCY cfg) _ s Hr) as [Hbound _].
  destruct (scan_settled cfg repos responses wanted s Hr) as [Hperm Hnf].
  assert (Hfull : pc s = AwaitRace Asleep -> (next s < length rts)%nat ->
            size_lt (length (active s)) (CONCURRENCY cfg) = false).
  { intros Hpc Hq. rewrite Hpc in Hmain. destruct Hmain as [_ Hf]. auto. }
  split; [exact Hbound|]. split; [|split; [exact Hfull|split; [|split; [|split]]]].
  - intros N Hlimit.
    assert (Hle : (length (active s) <= N)%nat).
    { destruct Hbound as [->|Hb]; [simpl; lia|].
      rewrite Hlimit, size_lt_nat in Hb. apply Nat.ltb_lt in Hb. lia. }
    split; trivial. intros Hpc Hq. specialize (Hfull Hpc Hq).
    rewrite Hlimit, size_lt_nat in Hfull. apply Nat.ltb_ge in Hfull. lia.
  - intros k s1 Hpc Hq Hev Hlt.
    assert (Hr1 : reaches scan_init s1).
    { econstructor; [|exact Hr]. right. exists k. exact Hev. }
    assert (Hs1 : pc s1 = AwaitRace WokenOk /\ next s1 = next s).
    { unfold event_step in Hev. rewrite Hpc in Hev. cbn [awaiting] in Hev.
      destruct (nth_error (active s) k) as [[idx w]|]; [|discriminate].
      destruct (worker_resume (ORG cfg) wanted responses idx w (shared s))
        as [sh o] eqn:Hres.
      destruct o as [w'|r|e]; inversion Hev; subst s1; cbn in *.
      - rewrite replace_nth_length in Hlt. lia.
      - auto.
      - exfalso.
        apply (worker_never_rejects (ORG cfg) wanted responses idx w
                 (shared s) sh e Hres). }
    destruct Hs1 as [Hpc1 Hn1].
    destruct (refill Repo WorkerState unit Shared worker_start
                (worker_resume (ORG cfg) wanted responses) rts
                (CONCURRENCY cfg) _ s1 Hr1 Hpc1) as (repo & Hit & Hrun).
    { rewrite Hn1. exact Hq. }
    rewrite Hn1 in Hit, Hrun. exists repo. split; trivial.
  - intros e Hpc. rewrite Hpc in Hnf. exact Hnf.
  - intros Hpc. rewrite Hpc in Hmain. destruct Hmain as [Hnext Hact].
    rewrite Hact, Hnext, app_nil_r in Hperm. auto.
  - intros Hcap. split.
    + apply (runs_finite Repo WorkerState unit Shared worker_start
               (worker_resume (ORG cfg) wanted responses) rts (CONCURRENCY cfg)
               worker_size (worker_resume_decreases (ORG cfg) wanted responses)
               Hcap _ s Hr).
    + destruct (run_completes Repo WorkerState unit Shared worker_start
                  (worker_resume (ORG cfg) wanted responses) rts
                  (CONCURRENCY cfg) worker_size
                  (worker_resume_decreases (ORG cfg) wanted responses)
                  Hcap _ s Hr) as (final & Hrf & Hfin).
      exists final. split; trivial.
      destruct Hfin as [Hfin|[e Hfin]]; trivial.
      assert (Hr' : reaches scan_init final).
      { eapply reaches_trans; eauto. }
      destruct (scan_settled cfg repos responses wanted final Hr') as [_ Hnf'].
      rewrite Hfin in Hnf'. contradiction.
Qed.

(** At the return of the pool every index has been processed. *)
Lemma returned_processed (s : ScanState) (idx : nat) :
  reaches scan_init s -> pc s = Returned ->
  (processed s idx <-> (idx < length rts)%nat).
Proof.
  intros Hr Hpc.
  pose proof (main_inv_reaches Repo WorkerState unit Shared worker_start
                (worker_resume (ORG cfg) wanted responses) rts
                (CONCURRENCY cfg) _ s Hr) as [_ Hmain].
  rewrite Hpc in Hmain. destruct Hmain as [Hnext Hact].
  unfold processed, requesting. rewrite Hnext, Hact. simpl.
  split; [tauto|]. intros H. split; trivial. intros [repo []].
Qed.

Lemma returned_member (s : ScanState) (key full : string) :
  reaches scan_init s -> pc s = Returned ->
  (member (affectedMap (shared s)) key full <->
   exists idx repo found,
     nth_error rts idx = Some repo /\
     found_of wanted (responses idx) = Normal found /\
     In key found /\ full = full_of (ORG cfg) repo).
Proof.
  intros Hr Hpc.
  rewrite (inv_member _ _ _ _ _ (scan_inv_reaches cfg repos responses wanted s Hr)).
  unfold hit. split.
  - intros (idx & repo & found & _ & H). eauto.
  - intros (idx & repo & found & Hn & H). exists idx, repo, found.
    split; [|tauto]. apply returned_processed; trivial.
    apply nth_error_Some. congruence.
Qed.

End ScanClaims.

Lemma build_matches_In (lc : string -> string -> comparison)
  (m : JsMap JsSet) (r : MatchRecord.t) :
  In r (build_matches lc m) <->
  exists key repos, In (key, repos) m /\ r = record_of (key, repos).
Proof.
  unfold build_matches. split.
  - intros H. eapply Permutation_in in H; [|apply Permutation_sym, sortBy_perm].
    apply in_map_iff in H as ([key repos] & <- & Hin). eauto.
  - intros (key & repos & Hin & ->).
    eapply Permutation_in; [apply sortBy_perm|]. apply in_map, Hin.
Qed.

Lemma sort_default_In (l : list string) (x : string) :
  In x (sort_default l) <-> In x l.
Proof.
  split; intros H.
  - eapply Permutation_in; [apply Permutation_sym, sort_default_perm | exact H].
  - eapply Permutation_in; [apply sort_default_perm | exact H].
Qed.

Section ReportClaims.

Context {SV : SemverLib}.
Variable localeCompare : string -> string -> comparison.
Variable cfg : Config.
Variable text : string.
Variable repos : list Repo.
Variable responses : nat -> Response.

Local Abbreviation rts := (reposToScan cfg repos).


(** X22.  In the report that the program writes, every repository list has
    no duplicate and is sorted by code unit.  A list of records in which no
    purl that the fallback reads holds a percent sign never makes the parser
    throw.  For a repository whose SBOM was fetched and none of whose
    records makes the parser throw, and for a pair that the parser makes of
    one of its records (any number of times) and that the index covers, the
    report has a record for that pair in which the full name of the
    repository occurs exactly once. *)
Theorem repositories_deduplicated (out : Output) :
  writes localeCompare cfg text repos responses out ->
  exists wanted,
    wantedMaxVersion (entries text) = Normal wanted /\
    (forall r, In r (matches out) ->
       NoDup (MatchRecord.repositories r) /\
       StronglySorted (le_by String.compare) (MatchRecord.repositories r)) /\
    (forall pkgs, (forall p, In p pkgs -> no_escape p) -> parsed_cleanly pkgs) /\
    (forall idx repo pkgs nv,
       nth_error rts idx = Some repo ->
       responses idx = SbomOk pkgs ->
       parsed_cleanly pkgs ->
       expected wanted pkgs nv ->
       exists r, In r (matches out) /\
         MatchRecord.package r = toLowerCase (name nv) /\
         MatchRecord.version r = version nv /\
         count_occ string_dec (MatchRecord.repositories r)
           (full_of (ORG cfg) repo) = 1%nat).
Proof.
  intros (wanted & s & Hw & Hr & Hpc & ->).
  exists wanted. split; trivial.
  destruct (wantedMaxVersion_index (entries text)) as (wanted' & Hw' & Hidx).
  assert (wanted' = wanted) by congruence. subst wanted'.
  pose proof (idx_valid _ _ Hidx) as Hvalid.
  pose proof (scan_inv_reaches cfg repos responses wanted s Hr) as Hinv.
  destruct (inv_wf _ _ _ _ _ Hinv) as [Hnd Hsets].
  assert (Hrec : forall key set, In (key, set) (affectedMap (shared s)) ->
            NoDup (sort_default set)).
  { intros key set Hin.
    eapply Permutation_NoDup; [apply sort_default_perm|].
    apply (Hsets key), In_map_get; trivial. }
  split; [|split].
  - intros r Hin. simpl in Hin.
    apply build_matches_In in Hin as (key & set & Hin & ->). simpl.
    split; [eapply Hrec; eauto | apply sort_default_sorted].
  - apply no_escape_clean.
  - intros idx repo pkgs nv Hn Hresp Hclean Hexp.
    set (key := keyNameVersion (name nv) (version nv)).
    destruct (scan_packages_total wanted Hvalid pkgs [] Hclean) as [found Hfound].
    assert (Hdisc : discovered wanted pkgs nv)
      by (apply (discovered_expected wanted Hvalid), Hexp).
    assert (Hkey : In key found).
    { apply (scan_packages_spec wanted pkgs [] found Hfound). right. eauto. }
    assert (Hm : member (affectedMap (shared s)) key (full_of (ORG cfg) repo)).
    { apply (returned_member cfg repos responses wanted s); trivial.
      exists idx, repo, found. unfold found_of. rewrite Hresp. auto. }
    destruct Hm as (set & Hget & Hin).
    exists (record_of (key, set)). split.
    + simpl. apply build_matches_In. exists key, set. split; trivial.
      apply map_get_In, Hget.
    + assert (Hv : contains_char "@"%char (version nv) = false).
      { destruct Hdisc as (p & _ & Hp & _). apply parse_valid in Hp.
        apply semver_valid_parse in Hp as [x Hx].
        eapply semver_parse_no_at; eauto. }
      unfold key. rewrite (record_of_key _ _ _ Hv). simpl.
      repeat split.
      apply NoDup_count_occ'.
      * eapply Hrec, map_get_In, Hget.
      * apply sort_default_In, Hin.
Qed.

(** C2, amended.  In every state the scan reaches, each key of the
    accumulated map is the lowercased name of a discovered pair, an [@] and
    the exact discovered version, and the record built from it carries that
    lowercased name and that version.  When [localeCompare] is antisymmetric,
    the matches array holds the records of the map in the order of the
    comparator: by lowercased name and, for equal names, by version, both
    under [localeCompare]. *)
Theorem match_records_lowercased (wanted : JsMap string) (s : ScanState) :
  (forall a b, localeCompare b a = CompOpp (localeCompare a b)) ->
  scan_reaches cfg repos responses wanted scan_init s ->
  (forall key repos_of_key,
     In (key, repos_of_key) (affectedMap (shared s)) ->
     exists idx repo pkgs nv,
       nth_error rts idx = Some repo /\ responses idx = SbomOk pkgs /\
       discovered wanted pkgs nv /\
       key = toLowerCase (name nv) ++ "@" ++ version nv /\
       record_of (key, repos_of_key) =
         {| MatchRecord.package := toLowerCase (name nv);
            MatchRecord.version := version nv;
            MatchRecord.repositories := sort_default repos_of_key |}) /\
  Permutation (map record_of (affectedMap (shared s)))
    (build_matches localeCompare (affectedMap (shared s))) /\
  Sorted (le_by (compare_matches localeCompare))
    (build_matches localeCompare (affectedMap (shared s))).
Proof.
  intros Hanti Hr.
  pose proof (scan_inv_reaches cfg repos responses wanted s Hr) as Hinv.
  destruct (inv_wf _ _ _ _ _ Hinv) as [Hnd Hsets].
  split; [|split].
  - intros key set Hin.
    pose proof (In_map_get _ _ _ Hnd Hin) as Hget.
    destruct (Hsets _ _ Hget) as [_ Hne].
    destruct set as [|full set]; [congruence|].
    assert (Hm : member (affectedMap (shared s)) key full).
    { exists (full :: set). split; simpl; auto. }
    apply (inv_member _ _ _ _ _ Hinv) in Hm
      as (idx & repo & found & _ & Hn & Hf & Hkey & _).
    unfold found_of in Hf.
    destruct (responses idx) as [pkgs|e] eqn:Hresp; [|discriminate].
    apply (scan_packages_spec wanted pkgs [] found Hf) in Hkey
      as [[]|(nv & Hdisc & ->)].
    exists idx, repo, pkgs, nv. repeat split; trivial.
    apply record_of_key.
    destruct Hdisc as (p & _ & Hp & _). apply parse_valid in Hp.
    apply semver_valid_parse in Hp as [x Hx].
    eapply semver_parse_no_at; eauto.
  - apply sortBy_perm.
  - apply sortBy_sorted. intros a b. unfold compare_matches.
    rewrite (String.eqb_sym (MatchRecord.package b)).
    destruct (String.eqb (MatchRecord.package a) (MatchRecord.package b));
      apply Hanti.
Qed.

End ReportClaims.

(** ** A malformed purl aborts the scan of its repository *)

Section MalformedPurl.

Context {SV : SemverLib}.

Lemma scan_packages_app (wanted : JsMap string) (f : JsSet)
  (pkgs1 pkgs2 : list SpdxPackage) :
  scan_packages wanted f (pkgs1 ++ pkgs2) =
  (f1 <- scan_packages wanted f pkgs1 ;; scan_packages wanted f1 pkgs2).
Proof.
  revert f. induction pkgs1 as [|p pkgs1 IH]; intros f; simpl; trivial.
  destruct (scan_package wanted f p); simpl; auto.
Qed.

(** C3, the failing input.  A record whose declared pair is not valid and
    whose purl has a malformed percent escape before the [@] makes the parser
    throw [URIError] instead of returning no result.  The exception leaves
    the loop over the packages, so the records after it are not processed and
    the matches found before it are dropped: the worker only writes its line
    to the error stream. *)
Theorem malformed_purl_aborts_repository
  (n v : option string) (rest : list ExternalRef)
  (ORG : string) (wanted : JsMap string) (responses : nat -> Response)
  (idx : nat) (repo : Repo) (sh : Shared)
  (pkgs1 pkgs2 : list SpdxPackage) (found1 : JsSet) :
  let bad := {| p_name := n; p_versionInfo := v;
                p_externalRefs := purl_ref "pkg:npm/%@1.0.0" :: rest |} in
  truthy (or_empty n) && semver_valid (or_empty v) = false ->
  scan_packages wanted [] pkgs1 = Normal found1 ->
  responses idx = SbomOk (pkgs1 ++ bad :: pkgs2) ->
  parsePkgNameVersionFromSpdx bad = Throw URIError /\
  worker_resume ORG wanted responses idx (AwaitRequest repo) sh =
    ({| affectedMap := affectedMap sh;
        console := app (console sh)
          ["SBOM fetch failed for " ++ full_of ORG repo ++ ": URI malformed"] |},
     Fulfilled tt).
Proof.
  intros bad Hprim H1 Hresp.
  assert (Hbad : parsePkgNameVersionFromSpdx bad = Throw URIError).
  { unfold parsePkgNameVersionFromSpdx, bad. simpl p_name.
    simpl p_versionInfo. rewrite Hprim. cbv -[semver_valid]. reflexivity. }
  split; trivial.
  unfold worker_resume, try_block. rewrite Hresp, scan_packages_app, H1.
  simpl. unfold scan_package. rewrite Hbad. reflexivity.
Qed.

End MalformedPurl.

(** ** The claims on a concrete run *)

Lemma final0_run : scan_run cfg0 [repoA] responses0 wanted0 sched0 = Some final0.
Proof. reflexivity. Qed.

Lemma final0_reached :
  scan_reaches cfg0 [repoA] responses0 wanted0 scan_init final0.
Proof.
  apply (pool_run_reaches _ _ _ _ sched0). exact final0_run.
Qed.

Lemma out0_written : writes String.compare cfg0 text0 [repoA] responses0 out0.
Proof.
  exists wanted0, final0. repeat split.
  apply final0_reached.
Qed.

(** C2 as stated fails: the package is discovered as [Left-Pad], and the
    record of the report carries [left-pad]. *)
Lemma match_record_loses_declared_case :
  parsePkgNameVersionFromSpdx pkg_Left_Pad
    = Normal (Some {| name := "Left-Pad"; version := "1.1.0" |}) /\
  writes String.compare cfg0 text0 [repoA] responses0 out0 /\
  map MatchRecord.package (matches out0) = ["left-pad"] /\
  map MatchRecord.package (matches out0) <> ["Left-Pad"].
Proof.
  split; [reflexivity|]. split; [exact out0_written|].
  split; [reflexivity | discriminate].
Qed.

Lemma match_records_lowercased_witness :
  (forall key repos_of_key,
     In (key, repos_of_key) (affectedMap (shared final0)) ->
     exists idx repo pkgs nv,
       nth_error (reposToScan cfg0 [repoA]) idx = Some repo /\
       responses0 idx = SbomOk pkgs /\
       discovered wanted0 pkgs nv /\
       key = toLowerCase (name nv) ++ "@" ++ version nv /\
       record_of (key, repos_of_key) =
         {| MatchRecord.package := toLowerCase (name nv);
            MatchRecord.version := version nv;
            MatchRecord.repositories := sort_default repos_of_key |}) /\
  Permutation (map record_of (affectedMap (shared final0)))
    (build_matches String.compare (affectedMap (shared final0))) /\
  Sorted (le_by (compare_matches String.compare))
    (build_matches String.compare (affectedMap (shared final0))).
Proof.
  apply (match_records_lowercased String.compare cfg0 [repoA] responses0
           wanted0 final0).
  - intros a b. apply String.compare_antisym.
  - apply (pool_run_reaches _ _ _ _ sched0). reflexivity.
Defined.

Lemma repositories_deduplicated_witness :
  exists wanted,
    wantedMaxVersion (entries text0) = Normal wanted /\
    (forall r, In r (matches out0) ->
       NoDup (MatchRecord.repositories r) /\
       StronglySorted (le_by String.compare) (MatchRecord.repositories r)) /\
    (forall pkgs, (forall p, In p pkgs -> no_escape p) -> parsed_cleanly pkgs) /\
    (forall idx repo pkgs nv,
       nth_error (reposToScan cfg0 [repoA]) idx = Some repo ->
       responses_dup idx = SbomOk pkgs ->
       parsed_cleanly pkgs ->
       expected wanted pkgs nv ->
       exists r, In r (matches out0) /\
         MatchRecord.package r = toLowerCase (name nv) /\
         MatchRecord.version r = version nv /\
         count_occ string_dec (MatchRecord.repositories r)
           (full_of (ORG cfg0) repo) = 1%nat).
Proof.
  apply (repositories_deduplicated String.compare cfg0 text0 [repoA]
           responses_dup out0).
  exists wanted0, final0. repeat split.
  apply (pool_run_reaches _ _ _ _ sched0). reflexivity.
Defined.

(** C7, the failing input.  The SBOM lists [Left-Pad 1.1.0] twice and the
    index covers it, but a third record has a purl with a malformed percent
    escape.  The parser throws on it, the exception leaves the loop over the
    packages before the merge, and the report has no record at all: the
    repository does not occur once in the list of that pair, it occurs in
    none. *)
Lemma duplicate_pair_lost_after_malformed_purl :
  expected wanted0 [pkg_Left_Pad; pkg_Left_Pad; pkg_bad_purl]
    {| name := "Left-Pad"; version := "1.1.0" |} /\
  writes String.compare cfg0 text0 [repoA] responses_dup_bad out_lost /\
  matches out_lost = [].
Proof.
  split; [|split; [|reflexivity]].
  - exists pkg_Left_Pad. split; [simpl; auto|]. split; [reflexivity|].
    exists "1.3.0". split; [reflexivity|].
    eexists. eexists. repeat split; try reflexivity. discriminate.
  - exists wanted0, final_lost. repeat split.
    apply (pool_run_reaches _ _ _ _ sched0). reflexivity.
Qed.


Lemma pool_bounded_concurrency_witness :
  (active full2 = [] \/
   size_lt (pred (length (active full2))) (CONCURRENCY cfg2) = true) /\
  (forall N : nat, CONCURRENCY cfg2 = Finite (inject_Z (Z.of_nat N)) ->
     (length (active full2) <= N)%nat /\
     (pc full2 = AwaitRace Asleep ->
      (next full2 < length (reposToScan cfg2 [repoA; repoB; repoC]))%nat ->
      length (active full2) = N)) /\
  (pc full2 = AwaitRace Asleep ->
   (next full2 < length (reposToScan cfg2 [repoA; repoB; repoC]))%nat ->
   size_lt (length (active full2)) (CONCURRENCY cfg2) = false) /\
  (forall k s1,
     pc full2 = AwaitRace Asleep ->
     (next full2 < length (reposToScan cfg2 [repoA; repoB; repoC]))%nat ->
     event_step (worker_resume (ORG cfg2) wanted0 responses0) k full2
       = Some s1 ->
     (length (active s1) < length (active full2))%nat ->
     exists repo,
       nth_error (reposToScan cfg2 [repoA; repoB; repoC]) (next full2)
         = Some repo /\
       pool_run worker_start (worker_resume (ORG cfg2) wanted0 responses0)
         (reposToScan cfg2 [repoA; repoB; repoC])
         (CONCURRENCY cfg2) [None; None; None] s1 =
       Some {| pc := InnerTest; next := S (next full2);
               active :=
                 (active s1
                  ++ [(next full2, worker_start repo (next full2))])%list;
               results := results s1; shared := shared s1 |}) /\
  (forall e, pc full2 <> Failed e) /\
  (pc full2 = Returned ->
   next full2 = length (reposToScan cfg2 [repoA; repoB; repoC]) /\
   active full2 = [] /\
   Permutation (map fst (results full2))
     (seq 0 (length (reposToScan cfg2 [repoA; repoB; repoC])))) /\
  (size_lt 0 (CONCURRENCY cfg2) = true ->
   Acc (fun s2 s1 =>
          scan_step cfg2 [repoA; repoB; repoC] responses0 wanted0 s1 s2)
     full2 /\
   exists final,
     scan_reaches cfg2 [repoA; repoB; repoC] responses0 wanted0 full2 final /\
     pc final = Returned).
Proof.
  apply (pool_bounded_concurrency cfg2 [repoA; repoB; repoC] responses0
           wanted0 full2).
  apply (pool_run_reaches _ _ _ _ [None; None; None; None; None]).
  reflexivity.
Defined.

(** C9 as stated fails for a limit that is no whole number: with the limit
    1.5 and two repositories the main coroutine goes to sleep with two
    operations pending. *)
Lemma fractional_limit_admits_two :
  pool_run worker_start (worker_resume "org" wanted0 responses0) two_repos
    (Finite (3 # 2)) [None; None; None; None; None]
    (pool_init {| affectedMap := []; console := [] |}) = Some waiting2 /\
  length (active waiting2) = 2%nat /\
  ~ (inject_Z 2 <= 3 # 2)%Q.
Proof.
  split; [reflexivity|]. split; [reflexivity|].
  intros H. unfold Qle in H. simpl in H. lia.
Qed.

Lemma pool_without_capacity_spins_witness :
  (no_capacity NaN <-> size_lt 0 NaN = false) /\
  (size_lt 0 NaN = true ->
   exists it,
     nth_error [repoA] 0 = Some it /\
     pool_run worker_start (worker_resume "org" wanted0 responses0) [repoA]
       NaN [None; None] (pool_init {| affectedMap := []; console := [] |}) =
       Some {| pc := InnerTest; next := 1;
               active := [(0%nat, worker_start it 0%nat)];
               results := [];
               shared := {| affectedMap := []; console := [] |} |}) /\
  forall s,
    pool_reaches worker_start (worker_resume "org" wanted0 responses0)
      [repoA] NaN (pool_init {| affectedMap := []; console := [] |}) s ->
    (no_capacity NaN ->
     next s = 0%nat /\ active s = [] /\
     (pc s = OuterTest \/ pc s = InnerTest \/ pc s = IfActive) /\
     exists s',
       pool_step worker_start (worker_resume "org" wanted0 responses0)
         [repoA] NaN s s') /\
    (size_lt 0 NaN = true ->
     Acc (fun s2 s1 =>
            pool_step worker_start (worker_resume "org" wanted0 responses0)
              [repoA] NaN s1 s2) s /\
     exists f,
       pool_reaches worker_start (worker_resume "org" wanted0 responses0)
         [repoA] NaN s f /\ final (pc f)).
Proof.
  apply (pool_without_capacity_spins worker_start
           (worker_resume "org" wanted0 responses0) [repoA] NaN
           {| affectedMap := []; console := [] |} worker_size).
  - discriminate.
  - apply worker_resume_decreases.
Defined.

(** C10 as stated fails for a positive limit below 1: with the limit 0.5
    the pool starts the worker, and the run of [sched0] ends in the return
    of the pool. *)
Lemma pool_returns_with_limit_below_one :
  ~ (1 <= 1 # 2)%Q /\
  pool_run worker_start (worker_resume "org" wanted0 responses0) [repoA]
    (Finite (1 # 2)) sched0
    (pool_init {| affectedMap := []; console := [] |}) = Some final0 /\
  pc final0 = Returned.
Proof.
  split; [|split; reflexivity].
  intros H. unfold Qle in H. simpl in H. lia.
Qed.

Lemma malformed_purl_aborts_repository_witness :
  let bad := {| p_name := None; p_versionInfo := None;
                p_externalRefs := [purl_ref "pkg:npm/%@1.0.0"] |} in
  parsePkgNameVersionFromSpdx bad = Throw URIError /\
  worker_resume "org" wanted0 (fun _ => SbomOk [pkg_Left_Pad; bad]) 0
    (AwaitRequest repoA) {| affectedMap := []; console := [] |} =
    ({| affectedMap := [];
        console := ["SBOM fetch failed for org/repoA: URI malformed"] |},
     Fulfilled tt).
Proof.
  apply (malformed_purl_aborts_repository None None [] "org" wanted0
           (fun _ => SbomOk
              [pkg_Left_Pad;
               {| p_name := None; p_versionInfo := None;
                  p_externalRefs := [purl_ref "pkg:npm/%@1.0.0"] |}])
           0 repoA {| affectedMap := []; console := [] |}
           [pkg_Left_Pad] [] ["left-pad@1.1.0"]); reflexivity.
Defined.

(** ** The promise pool *)

Section PoolExtras.

Variables Item W R Sh : Type.
Variable start : Item -> nat -> W.
Variable resume : nat -> W -> Sh -> Sh * Outcome W R.
Variable limit : JsNumber.

Lemma empty_pool_inv (sh0 : Sh) (s : PoolState W R Sh) :
  pool_reaches start resume [] limit (pool_init sh0) s ->
  next s = 0%nat /\ active s = [] /\ results s = [] /\ shared s = sh0 /\
  (pc s = OuterTest \/ pc s = DrainTest \/ pc s = Returned).
Proof.
  intros Hr. induction Hr as [|s1 s2 Hst Hr IH].
  - simpl. repeat split; auto.
  - destruct IH as (Hn & Ha & Hres & Hsh & Hpc).
    destruct (step_inv _ _ _ _ _ _ _ _ _ _ Hst).
    + unfold main_step in Hm. rewrite Ha, Hn in Hm. simpl in Hm.
      destruct Hpc as [Hpc|[Hpc|Hpc]]; rewrite Hpc in Hm; inversion Hm; subst;
        simpl; repeat split; auto.
    + rewrite Hn in Hit. discriminate.
    + destruct Hpc as [Hpc|[Hpc|Hpc]]; rewrite Hpc in Hpc0; discriminate.
Qed.

Variable items : list Item.

Hypothesis room_for_all :
  forall k, (k < length items)%nat -> size_lt k limit = true.

Lemma fan_out_inv_reaches (sh0 : Sh) (s : PoolState W R Sh) :
  pool_reaches start resume items limit (pool_init sh0) s ->
  fan_out_inv items s.
Proof.
  intros Hr. induction Hr as [|s1 s2 Hst Hr IH].
  - split; simpl; trivial.
  - pose proof (main_inv_reaches _ _ _ _ start resume items limit sh0 s1 Hr)
      as [Hle _].
    destruct IH as [Hact IH]. destruct (step_inv _ _ _ _ _ _ _ _ _ _ Hst).
    + subst s2. split; [exact Hact|]. cbn [pc set_pc].
      unfold main_step in Hm. destruct (pc s1) eqn:Hpc.
      * destruct (next s1 <? length items)%nat; inversion Hm; exact I.
      * destruct (size_lt (length (active s1)) limit) eqn:E1; simpl in Hm.
        -- destruct (next s1 <? length items)%nat eqn:E2; simpl in Hm.
           ++ destruct (nth_error items (next s1)); [|discriminate].
              apply (f_equal (option_map next)) in Hm. simpl in Hm.
              inversion Hm. lia.
           ++ inversion Hm. apply Nat.ltb_ge in E2. simpl. lia.
        -- inversion Hm. simpl.
           destruct (Nat.lt_ge_cases (next s1) (length items)) as [Hlt|Hge];
             [|lia].
           rewrite room_for_all in E1 by lia. discriminate.
      * destruct (length (active s1) =? 0)%nat; inversion Hm; simpl; trivial.
      * destruct w; simpl in Hm; inversion Hm; exact I.
      * destruct (length (active s1) =? 0)%nat; inversion Hm; exact I.
      * destruct w; simpl in Hm; inversion Hm; exact I.
      * discriminate.
      * discriminate.
    + subst s2. split; simpl.
      * rewrite length_app. simpl. lia.
      * rewrite Hpc. exact I.
    + pose proof (remove_nth_length _ _ _ Hk) as Hlen.
      assert (Hnext : next s2 = next s1) by (subst; destruct o; reflexivity).
      split.
      * rewrite Hnext. subst s2.
        destruct o; simpl; rewrite ?replace_nth_length; lia.
      * rewrite Hnext.
        destruct (pc s1) eqn:Hpc1; try discriminate; subst s2; destruct o;
          simpl; rewrite ?Hpc1; simpl; trivial.
Qed.

End PoolExtras.

(** X7.  For an empty list of items the pool returns at once, whatever the
    limit (also 0 or NaN) and the worker: two moves of the main coroutine
    lead to the return, and no state it reaches has started a worker or
    changed the shared state. *)
Theorem pool_of_nothing_returns {Item W R Sh : Type}
  (start : Item -> nat -> W) (resume : nat -> W -> Sh -> Sh * Outcome W R)
  (limit : JsNumber) (sh0 : Sh) :
  pool_run start resume [] limit [None; None] (pool_init sh0) =
    Some {| pc := Returned; next := 0; active := []; results := [];
            shared := sh0 |} /\
  forall s, pool_reaches start resume [] limit (pool_init sh0) s ->
    next s = 0%nat /\ active s = [] /\ results s = [] /\ shared s = sh0 /\
    (pc s = OuterTest \/ pc s = DrainTest \/ pc s = Returned).
Proof.
  split; [reflexivity|]. apply empty_pool_inv.
Qed.

(** X8.  When the limit leaves room for every item (it exceeds every size
    below the number of items), the pool never waits with items left in the
    queue: whenever the main coroutine is suspended, all workers have been
    started. *)
Theorem pool_starts_all_before_waiting {Item W R Sh : Type}
  (start : Item -> nat -> W) (resume : nat -> W -> Sh -> Sh * Outcome W R)
  (items : list Item) (limit : JsNumber) (sh0 : Sh) (s : PoolState W R Sh) :
  (forall k, (k < length items)%nat -> size_lt k limit = true) ->
  pool_reaches start resume items limit (pool_init sh0) s ->
  awaiting (pc s) = true -> next s = length items.
Proof.
  intros Hroom Hr Hw.
  pose proof (fan_out_inv_reaches Item W R Sh start resume limit items Hroom
                sh0 s Hr) as [_ Hfan].
  pose proof (main_inv_reaches _ _ _ _ start resume items limit sh0 s Hr)
    as [_ Hmain].
  destruct (pc s) as [| | |w| |w| |]; try discriminate; trivial.
  destruct w; tauto.
Qed.

Lemma pool_starts_all_before_waiting_witness :
  next waiting2 = length two_repos.
Proof.
  apply (pool_starts_all_before_waiting worker_start
           (worker_resume "org" wanted0 responses0) two_repos (Finite 6)
           {| affectedMap := []; console := [] |} waiting2).
  - intros k Hk. simpl in Hk.
    destruct k as [|[|k]]; [reflexivity | reflexivity | lia].
  - apply (pool_run_reaches _ _ _ _ [None; None; None; None; None]).
    reflexivity.
  - reflexivity.
Defined.

(** ** The report *)

Section ReportLemmas.

Context {SV : SemverLib}.
Variable cfg : Config.
Variable repos : list Repo.
Variable responses : nat -> Response.
Variable wanted : JsMap string.

Local Abbreviation rts := (reposToScan cfg repos).
Local Abbreviation reaches := (scan_reaches cfg repos responses wanted).

Lemma semver_lte_true (a b : string) :
  semver_lte a b = Normal true -> semver_le a b.
Proof.
  unfold semver_lte, semver_le.
  destruct (semver_parse a) as [x|]; [|discriminate].
  destruct (semver_parse b) as [y|]; [|discriminate].
  intros H. exists x, y. repeat split; trivial.
  destruct (semver_compare x y); congruence.
Qed.

Lemma isAffected_true (nv : NameVersion) :
  isAffected wanted nv = Normal true ->
  exists V, map_get wanted (toLowerCase (name nv)) = Some V /\
            semver_le (version nv) V.
Proof.
  unfold isAffected.
  destruct (map_get wanted (toLowerCase (name nv))) as [V|]; [|discriminate].
  destruct (truthy V); simpl; [|discriminate].
  intros H. exists V. split; trivial. apply semver_lte_true, H.
Qed.

(** Where an entry of the accumulated map comes from. *)
Lemma affected_entry_origin (s : ScanState) (key : string) (set : JsSet) :
  reaches scan_init s ->
  In (key, set) (affectedMap (shared s)) ->
  set <> [] /\
  (exists nv idx repo pkgs,
     key = keyNameVersion (name nv) (version nv) /\
     contains_char "@"%char (version nv) = false /\
     nth_error rts idx = Some repo /\ responses idx = SbomOk pkgs /\
     discovered wanted pkgs nv) /\
  (forall full, In full set ->
     exists idx repo,
       nth_error rts idx = Some repo /\ full = full_of (ORG cfg) repo).
Proof.
  intros Hr Hin.
  pose proof (scan_inv_reaches cfg repos responses wanted s Hr) as Hinv.
  destruct (inv_wf _ _ _ _ _ Hinv) as [Hnd Hsets].
  pose proof (In_map_get _ _ _ Hnd Hin) as Hget.
  destruct (Hsets _ _ Hget) as [_ Hne].
  assert (Horigin : forall full, In full set ->
            exists idx repo found,
              nth_error rts idx = Some repo /\
              found_of wanted (responses idx) = Normal found /\
              In key found /\ full = full_of (ORG cfg) repo).
  { intros full Hfull.
    assert (Hm : member (affectedMap (shared s)) key full)
      by (exists set; auto).
    apply (inv_member _ _ _ _ _ Hinv) in Hm
      as (idx & repo & found & _ & H). eauto. }
  split; trivial. split.
  - destruct set as [|full set]; [congruence|].
    destruct (Horigin full (or_introl eq_refl))
      as (idx & repo & found & Hn & Hf & Hkey & _).
    unfold found_of in Hf.
    destruct (responses idx) as [pkgs|e] eqn:Hresp; [|discriminate].
    apply (scan_packages_spec wanted pkgs [] found Hf) in Hkey
      as [[]|(nv & Hdisc & ->)].
    exists nv, idx, repo, pkgs. repeat split; trivial.
    destruct Hdisc as (p & _ & Hp & _). apply parse_valid in Hp.
    apply semver_valid_parse in Hp as [x Hx].
    eapply semver_parse_no_at; eauto.
  - intros full Hfull.
    destruct (Horigin full Hfull) as (idx & repo & found & Hn & _ & _ & Hf).
    eauto.
Qed.

(** Every line of the error stream is the line of a failed repository. *)
Lemma console_inv_reaches (s : ScanState) :
  reaches scan_init s ->
  forall line, In line (console (shared s)) ->
    exists idx repo e,
      processed s idx /\ nth_error rts idx = Some repo /\
      found_of wanted (responses idx) = Throw e /\
      line = failure_line cfg repo e.
Proof.
  intros Hr. induction Hr as [|s1 s2 Hst Hr IH].
  - intros line [].
  - destruct (scan_active_nodup cfg repos responses wanted s1 Hr) as [Hnd Hlt].
    pose proof (inv_active _ _ _ _ _
                  (scan_inv_reaches cfg repos responses wanted s1 Hr)) as Hact.
    destruct (step_inv _ _ _ _ _ _ _ _ _ _ Hst).
    + subst s2. exact IH.
    + subst s2. cbn [runOne shared]. intros line Hin.
      destruct (IH line Hin) as (idx & repo & e & [Hi Hn] & H).
      exists idx, repo, e. split; [|exact H].
      split; cbn [runOne next active]; [lia|].
      unfold worker_start. rewrite requesting_spawn. intros [Hq|Hq]; [tauto|lia].
    + destruct (event_fields s1 s2 k idx w sh o Hk Hs)
        as (l1 & l2 & Ha & Hnext & Hsh & Hact').
      rewrite Ha in Hnd.
      assert (Hreq : forall i, requesting (active s2) i <->
                               requesting (active s1) i /\ i <> idx).
      { rewrite Ha. apply (requesting_event l1 l2 (active s2) idx w Hnd).
        unfold worker_resume in Hr0. destruct w as [repo|].
        - destruct (try_block _ _ _ _) as [m|e'].
          + inversion Hr0; subst o. auto.
          + destruct (wants_backoff e'); inversion Hr0; subst o; auto.
        - inversion Hr0; subst o. auto. }
      assert (Hkeep : forall i, processed s1 i -> processed s2 i).
      { intros i [Hi Hn]. split; [lia|]. rewrite Hreq. tauto. }
      assert (Hold : forall line, In line (console (shared s1)) ->
                exists idx repo e,
                  processed s2 idx /\ nth_error rts idx = Some repo /\
                  found_of wanted (responses idx) = Throw e /\
                  line = failure_line cfg repo e).
      { intros line Hin. destruct (IH line Hin) as (i & r & e & Hp & H).
        exists i, r, e. split; auto. }
      rewrite Hsh. unfold worker_resume in Hr0. destruct w as [repo|].
      * rewrite try_block_found in Hr0.
        destruct (found_of wanted (responses idx)) as [found|e'] eqn:Hf;
          simpl in Hr0.
        -- injection Hr0 as <- <-. exact Hold.
        -- assert (Hsh' : sh = {| affectedMap := affectedMap (shared s1);
                                  console := app (console (shared s1))
                                               [failure_line cfg repo e'] |}).
           { destruct (wants_backoff e'); inversion Hr0; reflexivity. }
           rewrite Hsh'. cbn [console]. intros line Hin.
           apply in_app_iff in Hin as [Hin|[<-|[]]]; [auto|].
           exists idx, repo, e'. repeat split; trivial.
           ++ rewrite Hnext. apply (Hlt idx (AwaitRequest repo)).
              rewrite Ha. apply in_app_iff. simpl. auto.
           ++ rewrite Hreq. tauto.
           ++ apply Hact. rewrite Ha. apply in_app_iff. simpl. auto.
      * injection Hr0 as <- <-. exact Hold.
Qed.

End ReportLemmas.

Section ReportExtras.

Context {SV : SemverLib}.
Variable localeCompare : string -> string -> comparison.
Variable cfg : Config.
Variable text : string.
Variable repos : list Repo.
Variable responses : nat -> Response.

Local Abbreviation rts := (reposToScan cfg repos).

(** X9.  Every record of the report is backed by the watch list: its package
    is a key of the watch index, the lowercased name of a listed entry whose
    version is the ceiling, its version is at most that ceiling, and its
    repository list is not empty. *)
Theorem report_is_sound (out : Output) :
  writes localeCompare cfg text repos responses out ->
  exists index,
    wantedMaxVersion (entries text) = Normal index /\
    forall r, In r (matches out) ->
      MatchRecord.repositories r <> [] /\
      exists V,
        map_get index (MatchRecord.package r) = Some V /\
        listed (entries text) (MatchRecord.package r) V /\
        semver_le (MatchRecord.version r) V.
Proof.
  intros (wanted & s & Hw & Hr & Hpc & ->).
  exists wanted. split; trivial. intros r Hin. simpl in Hin.
  apply build_matches_In in Hin as (key & set & Hin & ->).
  destruct (affected_entry_origin cfg repos responses wanted s key set Hr Hin)
    as (Hne & (nv & idx & repo & pkgs & -> & Hat & _ & _ & Hdisc) & _).
  rewrite (record_of_key _ _ _ Hat). simpl. split.
  - intros Hnil. apply Hne.
    apply Permutation_nil. rewrite <- Hnil.
    apply Permutation_sym, sort_default_perm.
  - destruct Hdisc as (p & _ & _ & Haff).
    destruct (isAffected_true wanted nv Haff) as (V & Hget & Hle).
    exists V. repeat split; trivial.
    destruct (wantedMaxVersion_index (entries text)) as (m & Hm & Hi).
    assert (m = wanted) by congruence. subst m.
    apply (idx_listed _ _ Hi), Hget.
Qed.

(** X10.  The report lists no package and version twice: the pairs of package
    and version of its records are pairwise distinct. *)
Theorem report_has_no_duplicate (out : Output) :
  writes localeCompare cfg text repos responses out ->
  NoDup (map (fun r => (MatchRecord.package r, MatchRecord.version r))
           (matches out)).
Proof.
  intros (wanted & s & Hw & Hr & Hpc & ->). simpl.
  set (affected := affectedMap (shared s)).
  apply Permutation_NoDup
    with (l := map (fun r => (MatchRecord.package r, MatchRecord.version r))
                 (map record_of affected)).
  { apply Permutation_map, sortBy_perm. }
  apply NoDup_map_inv with (f := fun pv => fst pv ++ "@" ++ snd pv).
  rewrite !map_map.
  rewrite (map_ext_in _ fst).
  - apply (inv_wf _ _ _ _ _ (scan_inv_reaches cfg repos responses wanted s Hr)).
  - intros [key set] Hin.
    destruct (affected_entry_origin cfg repos responses wanted s key set Hr Hin)
      as (_ & (nv & idx & repo & pkgs & -> & Hat & _) & _).
    rewrite (record_of_key _ _ _ Hat). reflexivity.
Qed.

(** X11.  Every repository name in the report is the full name of a
    repository of the listing that was selected for the scan: no fork is
    named unless forks are included, no archived repository unless archived
    ones are. *)
Theorem report_names_scanned_repos (out : Output) :
  writes localeCompare cfg text repos responses out ->
  forall r full,
    In r (matches out) -> In full (MatchRecord.repositories r) ->
    exists repo,
      In repo repos /\ full = full_of (ORG cfg) repo /\
      (fork repo = true -> INCLUDE_FORKS cfg = true) /\
      (archived repo = true -> INCLUDE_ARCHIVED cfg = true).
Proof.
  intros (wanted & s & Hw & Hr & Hpc & ->) r full Hin Hfull. simpl in Hin.
  apply build_matches_In in Hin as (key & set & Hin & ->).
  simpl in Hfull. apply (proj1 (sort_default_In _ _)) in Hfull.
  destruct (affected_entry_origin cfg repos responses wanted s key set Hr Hin)
    as (_ & _ & Horigin).
  destruct (Horigin full Hfull) as (idx & repo & Hn & ->).
  apply nth_error_In in Hn. unfold reposToScan in Hn.
  apply filter_In in Hn as [Hrepo Hsel].
  exists repo. repeat split; trivial.
  - intros Hf. rewrite Hf in Hsel.
    destruct (INCLUDE_FORKS cfg); [trivial | discriminate].
  - intros Ha. rewrite Ha in Hsel.
    destruct (INCLUDE_ARCHIVED cfg); trivial.
    destruct (negb (INCLUDE_FORKS cfg) && fork repo); discriminate.
Qed.

(** X12.  In every state the scan reaches, each line of the error stream is
    the failure line of a repository whose request failed or whose scan
    threw: a repository that is scanned without an exception writes
    nothing. *)
Theorem console_lines_are_failures
  (wanted : JsMap string) (s : ScanState) (line : string) :
  scan_reaches cfg repos responses wanted scan_init s ->
  In line (console (shared s)) ->
  exists idx repo e,
    nth_error rts idx = Some repo /\
    found_of wanted (responses idx) = Throw e /\
    line = failure_line cfg repo e.
Proof.
  intros Hr Hin.
  destruct (console_inv_reaches cfg repos responses wanted s Hr line Hin)
    as (idx & repo & e & _ & H).
  eauto.
Qed.

End ReportExtras.

Lemma report_is_sound_witness :
  exists index,
    wantedMaxVersion (entries text0) = Normal index /\
    forall r, In r (matches out0) ->
      MatchRecord.repositories r <> [] /\
      exists V,
        map_get index (MatchRecord.package r) = Some V /\
        listed (entries text0) (MatchRecord.package r) V /\
        semver_le (MatchRecord.version r) V.
Proof.
  apply (report_is_sound String.compare cfg0 text0 [repoA] responses0 out0).
  exists wanted0, final0. repeat split.
  apply (pool_run_reaches _ _ _ _ sched0). reflexivity.
Defined.

Lemma report_has_no_duplicate_witness :
  NoDup (map (fun r => (MatchRecord.package r, MatchRecord.version r))
           (matches out0)).
Proof.
  apply (report_has_no_duplicate String.compare cfg0 text0 [repoA] responses0
           out0).
  exists wanted0, final0. repeat split.
  apply (pool_run_reaches _ _ _ _ sched0). reflexivity.
Defined.

Lemma report_names_scanned_repos_witness :
  exists repo,
    In repo [repoA] /\ "org/repoA" = full_of (ORG cfg0) repo /\
    (fork repo = true -> INCLUDE_FORKS cfg0 = true) /\
    (archived repo = true -> INCLUDE_ARCHIVED cfg0 = true).
Proof.
  apply (report_names_scanned_repos String.compare cfg0 text0 [repoA]
           responses0 out0)
    with (r := {| MatchRecord.package := "left-pad";
                  MatchRecord.version := "1.1.0";
                  MatchRecord.repositories := ["org/repoA"] |}).
  - exists wanted0, final0. repeat split.
    apply (pool_run_reaches _ _ _ _ sched0). reflexivity.
  - simpl. auto.
  - simpl. auto.
Defined.

Lemma console_lines_are_failures_witness :
  exists idx repo e,
    nth_error (reposToScan cfg0 [repoA]) idx = Some repo /\
    found_of wanted0 (responses_404 idx) = Throw e /\
    "SBOM fetch failed for org/repoA: 404" = failure_line cfg0 repo e.
Proof.
  apply (console_lines_are_failures cfg0 [repoA] responses_404 wanted0 failed0).
  - apply (pool_run_reaches _ _ _ _ sched0). reflexivity.
  - simpl. auto.
Defined.

(** ** The watch list *)

Lemma string_app_assoc (a b c : string) : (a ++ b) ++ c = a ++ (b ++ c).
Proof.
  induction a as [|x a IH]; simpl; congruence.
Qed.

Lemma string_app_nil_r (a : string) : a ++ EmptyString = a.
Proof.
  induction a as [|x a IH]; simpl; congruence.
Qed.

Lemma contains_app (c : ascii) (a b : string) :
  contains_char c (a ++ b) = contains_char c a || contains_char c b.
Proof.
  induction a as [|x a IH]; simpl; trivial.
  rewrite IH. apply orb_assoc.
Qed.

Lemma blank_app (a b : string) :
  blank (a ++ b) = blank a && blank b.
Proof.
  unfold blank. induction a as [|x a IH]; simpl; trivial.
  rewrite IH. apply andb_assoc.
Qed.

Lemma blank_contains (c : ascii) (w : string) :
  is_ws c = false -> blank w = true -> contains_char c w = false.
Proof.
  intros Hc. unfold blank. induction w as [|x w IH]; simpl; trivial.
  intros H. apply andb_true_iff in H as [Hx Hw].
  rewrite (IH Hw), orb_false_r.
  destruct (Ascii.eqb x c) eqn:E; trivial.
  apply Ascii.eqb_eq in E. congruence.
Qed.

Lemma trimEnd_cons (c : ascii) (s : string) :
  trimEnd (String c s) =
  match trimEnd s with
  | EmptyString => if is_ws c then EmptyString else String c EmptyString
  | t => String c t
  end.
Proof. reflexivity. Qed.

Lemma trimStart_lead (s : string) : lead_ok (trimStart s) = true.
Proof.
  induction s as [|c s IH]; simpl; trivial.
  destruct (is_ws c) eqn:E; trivial. simpl. rewrite E. reflexivity.
Qed.

Lemma trimStart_fixed (s : string) : lead_ok s = true -> trimStart s = s.
Proof.
  destruct s as [|c s]; simpl; trivial.
  destruct (is_ws c); [discriminate | trivial].
Qed.

Lemma trimEnd_lead (s : string) : lead_ok s = true -> lead_ok (trimEnd s) = true.
Proof.
  destruct s as [|c s]; trivial. rewrite trimEnd_cons. simpl.
  intros H. destruct (trimEnd s); [|exact H].
  destruct (is_ws c) eqn:E; [discriminate|]. simpl. rewrite E. reflexivity.
Qed.

Lemma trimEnd_idem (s : string) : trimEnd (trimEnd s) = trimEnd s.
Proof.
  induction s as [|c s IH]; trivial.
  rewrite trimEnd_cons. destruct (trimEnd s) as [|d t] eqn:E.
  - destruct (is_ws c) eqn:W; trivial.
    rewrite trimEnd_cons. simpl. rewrite W. reflexivity.
  - rewrite trimEnd_cons, IH. reflexivity.
Qed.

Lemma trim_lead (s : string) : lead_ok (trim s) = true.
Proof. apply trimEnd_lead, trimStart_lead. Qed.

Lemma trim_idem (s : string) : trim (trim s) = trim s.
Proof.
  unfold trim at 1. rewrite (trimStart_fixed _ (trim_lead s)).
  apply trimEnd_idem.
Qed.

Lemma trim_fixed (s : string) :
  trim s = s -> lead_ok s = true /\ trimEnd s = s.
Proof.
  intros H. split.
  - rewrite <- H. apply trim_lead.
  - rewrite <- H at 1. unfold trim. rewrite trimEnd_idem. exact H.
Qed.

Lemma blank_trimStart (w s : string) :
  blank w = true -> trimStart (w ++ s) = trimStart s.
Proof.
  unfold blank. induction w as [|c w IH]; simpl; trivial.
  intros H. apply andb_true_iff in H as [Hc Hw]. rewrite Hc. auto.
Qed.

Lemma trimEnd_blank (w : string) : blank w = true -> trimEnd w = EmptyString.
Proof.
  unfold blank. induction w as [|c w IH]; trivial.
  simpl NodeSemver.forall_chars.
  intros H. apply andb_true_iff in H as [Hc Hw].
  rewrite trimEnd_cons, (IH Hw), Hc. reflexivity.
Qed.

Lemma trimEnd_app_blank (s w : string) :
  blank w = true -> trimEnd (s ++ w) = trimEnd s.
Proof.
  intros Hw. induction s as [|c s IH].
  - simpl. apply trimEnd_blank, Hw.
  - change (String c s ++ w) with (String c (s ++ w)).
    rewrite !trimEnd_cons, IH. reflexivity.
Qed.

Lemma trimEnd_app_fixed (a b : string) :
  b <> EmptyString -> trimEnd b = b -> trimEnd (a ++ b) = a ++ b.
Proof.
  intros Hb Hfix. induction a as [|c a IH]; trivial.
  change (String c a ++ b) with (String c (a ++ b)).
  rewrite trimEnd_cons, IH.
  destruct (a ++ b) eqn:E; trivial.
  destruct a; simpl in E; congruence.
Qed.

Lemma trim_app_blank (l w : string) :
  blank w = true -> trim (l ++ w) = trim l.
Proof.
  intros Hw. unfold trim. induction l as [|c l IH].
  - simpl. rewrite <- (string_app_nil_r w), (blank_trimStart w _ Hw).
    reflexivity.
  - simpl. destruct (is_ws c); trivial.
    apply (trimEnd_app_blank (String c l) w Hw).
Qed.

Lemma trimStart_split (s : string) :
  exists w, blank w = true /\ s = w ++ trimStart s.
Proof.
  induction s as [|c s (w & Hw & IH)].
  - exists EmptyString. split; reflexivity.
  - simpl. destruct (is_ws c) eqn:E.
    + exists (String c w). split.
      * unfold blank in *. simpl. rewrite E, Hw. reflexivity.
      * simpl. congruence.
    + exists EmptyString. split; reflexivity.
Qed.

Lemma trimEnd_split (s : string) :
  exists w, blank w = true /\ s = trimEnd s ++ w.
Proof.
  induction s as [|c s (w & Hw & IH)].
  - exists EmptyString. split; reflexivity.
  - rewrite trimEnd_cons. destruct (trimEnd s) as [|d t].
    + destruct (is_ws c) eqn:E.
      * exists (String c w). split.
        -- unfold blank in *. simpl. rewrite E, Hw. reflexivity.
        -- simpl in *. congruence.
      * exists w. split; trivial. simpl in *. congruence.
    + exists w. split; trivial. simpl in *. congruence.
Qed.

Lemma contains_split (c : ascii) (s : string) :
  contains_char c s = true ->
  exists a b, s = a ++ String c b /\ contains_char c b = false.
Proof.
  induction s as [|d s IH]; simpl; [discriminate|].
  destruct (contains_char c s) eqn:E.
  - intros _. destruct (IH eq_refl) as (a & b & -> & Hb).
    exists (String d a), b. split; trivial.
  - rewrite orb_false_r. intros Hd. apply Ascii.eqb_eq in Hd. subst d.
    exists EmptyString, s. split; trivial.
Qed.

Lemma lastIndexOf_app (c : ascii) (a b : string) :
  contains_char c b = false -> lastIndexOf c (a ++ String c b) = strlen a.
Proof.
  intros Hb. unfold lastIndexOf.
  rewrite (lastIndexOf_from_last c a b 0 (-1) Hb). lia.
Qed.

Lemma lastIndexOf_split (c : ascii) (s : string) :
  0 <= lastIndexOf c s ->
  exists a b, s = a ++ String c b /\ contains_char c b = false.
Proof.
  intros H. apply contains_split.
  destruct (contains_char c s) eqn:E; trivial.
  unfold lastIndexOf in H. rewrite lastIndexOf_from_absent in H by trivial.
  lia.
Qed.

Lemma prefix_one (c d : ascii) (s t : string) :
  prefix (String c EmptyString) (String d s) =
  prefix (String c EmptyString) (String d t).
Proof.
  simpl. destruct (ascii_dec c d); trivial. destruct s, t; reflexivity.
Qed.

Lemma strlen_pos (s : string) : s <> EmptyString -> 0 < strlen s.
Proof.
  destruct s; [congruence|]. unfold strlen. simpl. lia.
Qed.

Lemma strlen_zero (s : string) : strlen s <= 0 -> s = EmptyString.
Proof.
  destruct s; trivial. unfold strlen. simpl. lia.
Qed.

(** A line of a name, an [@] and a version with white space around them is
    read as that name and that version. *)
Lemma parseLine_build (w1 n w2 w3 v w4 : string) :
  blank w1 = true -> blank w2 = true -> blank w3 = true -> blank w4 = true ->
  canonical_entry {| name := n; version := v |} ->
  parseLine (line_of w1 n w2 w3 v w4) = Some {| name := n; version := v |}.
Proof.
  intros H1 H2 H3 H4 (Hn & Htn & Hhash & Hv & Htv & Hat). simpl in *.
  destruct (trim_fixed n Htn) as [Hln Hen].
  destruct (trim_fixed v Htv) as [Hlv Hev].
  assert (Hs : trim (line_of w1 n w2 w3 v w4) = (n ++ w2) ++ "@" ++ (w3 ++ v)).
  { unfold line_of, trim. rewrite (blank_trimStart w1 _ H1).
    rewrite trimStart_fixed.
    2:{ destruct n; [congruence | exact Hln]. }
    replace (n ++ w2 ++ "@" ++ w3 ++ v ++ w4)
      with (((n ++ w2 ++ "@" ++ w3) ++ v) ++ w4)
      by (rewrite !string_app_assoc; reflexivity).
    rewrite (trimEnd_app_blank _ w4 H4), (trimEnd_app_fixed _ v Hv Hev).
    rewrite !string_app_assoc. reflexivity. }
  assert (Hno : contains_char "@"%char (w3 ++ v) = false).
  { rewrite contains_app, Hat, (blank_contains "@"%char w3); trivial. }
  unfold parseLine. rewrite Hs.
  destruct n as [|c n']; [congruence|].
  replace (startsWith ((String c n' ++ w2) ++ "@" ++ w3 ++ v) "#")
    with false.
  2:{ symmetry. etransitivity; [|exact Hhash].
      unfold startsWith. apply prefix_one. }
  cbn [truthy negb orb append].
  change (String c ((n' ++ w2) ++ String "@"%char (w3 ++ v)))
    with ((String c n' ++ w2) ++ "@" ++ (w3 ++ v)).
  set (a := String c n' ++ w2) in *.
  replace (lastIndexOf "@"%char (a ++ "@" ++ w3 ++ v)) with (strlen a)
    by (symmetry; apply lastIndexOf_app, Hno).
  pose proof (key_split a (w3 ++ v) Hno) as [Ha Hb]. cbv zeta in Ha, Hb.
  change ("@" ++ w3 ++ v) with (String "@"%char (w3 ++ v)) in *.
  rewrite (lastIndexOf_app "@"%char a (w3 ++ v) Hno) in Ha, Hb.
  rewrite Ha, Hb.
  assert (Hpos : 0 < strlen a) by (apply strlen_pos; discriminate).
  replace (strlen a <=? 0) with false by (symmetry; apply Z.leb_gt; lia).
  assert (Hta : trim a = String c n').
  { unfold a. rewrite (trim_app_blank _ w2 H2). exact Htn. }
  assert (Htb : trim (w3 ++ v) = v).
  { unfold trim. rewrite (blank_trimStart w3 v H3). exact Htv. }
  rewrite Hta, Htb. destruct v; [congruence | reflexivity].
Qed.

(** Every line that [parseLine] accepts has that form. *)
Lemma parseLine_inv (l : string) (e : NameVersion) :
  parseLine l = Some e ->
  canonical_entry e /\
  exists w1 w2 w3 w4,
    blank w1 = true /\ blank w2 = true /\ blank w3 = true /\ blank w4 = true /\
    l = line_of w1 (name e) w2 w3 (version e) w4.
Proof.
  intros Hp. pose proof (parseLine_nonempty l e Hp) as [Hne Hve].
  revert Hp. unfold parseLine.
  destruct (negb (truthy (trim l)) || startsWith (trim l) "#") eqn:Hc;
    try discriminate.
  apply orb_false_iff in Hc as [_ Hhash].
  destruct (lastIndexOf "@" (trim l) <=? 0) eqn:Hat; try discriminate.
  apply Z.leb_gt in Hat.
  destruct (lastIndexOf_split "@"%char (trim l)) as (a & b & Hs & Hb); [lia|].
  pose proof (key_split a b Hb) as [Ha' Hb']. cbv zeta in Ha', Hb'.
  change ("@" ++ b) with (String "@"%char b) in *.
  rewrite Hs, Ha', Hb'. rewrite Hs in Hat, Hhash.
  rewrite (lastIndexOf_app "@"%char a b Hb) in Hat.
  destruct (negb (truthy (trim a)) || negb (truthy (trim b)));
    try discriminate.
  intros He. injection He as <-. cbn [name version] in *.
  assert (Hla : lead_ok a = true).
  { pose proof (trim_lead l) as H. rewrite Hs in H.
    destruct a; [unfold strlen in Hat; simpl in Hat; lia | exact H]. }
  assert (Hta : trim a = trimEnd a)
    by (unfold trim; rewrite (trimStart_fixed a Hla); reflexivity).
  split.
  - unfold canonical_entry. cbn [name version].
    split; [exact Hne|]. split; [apply trim_idem|]. split; [|split; [exact Hve|]].
    2:{ split; [apply trim_idem|]. rewrite contains_trim; trivial. }
    rewrite Hta. destruct a as [|c a']; [reflexivity|].
      rewrite trimEnd_cons.
      simpl in Hla. apply negb_true_iff in Hla. rewrite Hla.
      etransitivity; [|exact Hhash]. unfold startsWith.
      destruct (trimEnd a'); apply prefix_one.
  - destruct (trimStart_split l) as (w1 & H1 & El).
    destruct (trimEnd_split (trimStart l)) as (w4 & H4 & El').
    fold (trim l) in El'. rewrite Hs in El'.
    destruct (trimEnd_split a) as (w2 & H2 & Ea). rewrite <- Hta in Ea.
    destruct (trimStart_split b) as (w3 & H3 & Eb).
    destruct (trimEnd_split (trimStart b)) as (w5 & H5 & Eb').
    fold (trim b) in Eb'.
    exists w1, w2, w3, (w5 ++ w4). repeat split; trivial.
    + rewrite blank_app, H5, H4. reflexivity.
    + unfold line_of. rewrite El at 1. f_equal. rewrite El'.
      rewrite Ea at 1. rewrite Eb at 1. rewrite Eb' at 1.
      change (String "@"%char (w3 ++ trim b ++ w5))
        with ("@" ++ w3 ++ trim b ++ w5).
      rewrite !string_app_assoc. reflexivity.
Qed.

(** X13.  For a line of ASCII characters, [parseLine] accepts exactly the
    lines made of a name, an [@] and a version with optional white space
    around each of them, where the name and the version are trimmed and not
    empty, the name does not begin with [#] and the version holds no [@]; it
    returns that name and version. *)
Theorem parse_line_accepts (l : string) (e : NameVersion) :
  ascii_only l = true ->
  (parseLine l = Some e <-> watch_line l (name e) (version e)).
Proof.
  intros _. unfold watch_line. destruct e as [n v]. cbn [name version]. split.
  - apply parseLine_inv.
  - intros (Hc & w1 & w2 & w3 & w4 & H1 & H2 & H3 & H4 & ->).
    apply parseLine_build; trivial.
Qed.

Lemma parse_line_accepts_witness :
  parseLine "  @Scope/Left-Pad @ 1.3.0 " =
    Some {| name := "@Scope/Left-Pad"; version := "1.3.0" |} <->
  watch_line "  @Scope/Left-Pad @ 1.3.0 " "@Scope/Left-Pad" "1.3.0".
Proof.
  apply (parse_line_accepts "  @Scope/Left-Pad @ 1.3.0 "
           {| name := "@Scope/Left-Pad"; version := "1.3.0" |}).
  reflexivity.
Defined.

Lemma parses_watch_line (l : string) :
  parses l = true <-> exists n v, watch_line l n v.
Proof.
  unfold parses, watch_line. split.
  - destruct (parseLine l) as [[n v]|] eqn:E; [|discriminate].
    intros _. exists n, v. apply (parseLine_inv l _ E).
  - intros (n & v & Hc & w1 & w2 & w3 & w4 & H1 & H2 & H3 & H4 & ->).
    rewrite parseLine_build; trivial.
Qed.


(** X14.  Writing an accepted entry back as [name@version] and reading that
    line gives the same entry. *)
Theorem parse_line_round_trip (l : string) (e : NameVersion) :
  parseLine l = Some e ->
  parseLine (name e ++ "@" ++ version e) = Some e.
Proof.
  intros Hp. destruct (parseLine_inv l e Hp) as [Hc _].
  destruct e as [n v].
  pose proof (parseLine_build "" n "" "" v "" eq_refl eq_refl eq_refl eq_refl Hc)
    as H.
  unfold line_of in H. simpl in H. rewrite string_app_nil_r in H. exact H.
Qed.

Lemma parse_line_round_trip_witness :
  parseLine ("@Scope/Left-Pad" ++ "@" ++ "1.3.0") =
  Some {| name := "@Scope/Left-Pad"; version := "1.3.0" |}.
Proof.
  apply (parse_line_round_trip "  @Scope/Left-Pad @ 1.3.0 "
           {| name := "@Scope/Left-Pad"; version := "1.3.0" |}).
  reflexivity.
Defined.

(** *** Lines *)

Lemma is_lf_eq (c : ascii) : is_lf c = Ascii.eqb c "010"%char.
Proof.
  unfold is_lf. destruct (Ascii.eqb c "010"%char) eqn:E.
  - apply Ascii.eqb_eq in E. subst c. reflexivity.
  - apply Nat.eqb_neq. intros H. apply Ascii.eqb_neq in E. apply E.
    rewrite <- (ascii_nat_embedding c), H. reflexivity.
Qed.

Lemma is_cr_eq (c : ascii) : is_cr c = true -> c = "013"%char.
Proof.
  unfold is_cr. intros H. apply Nat.eqb_eq in H.
  rewrite <- (ascii_nat_embedding c), H. reflexivity.
Qed.

Lemma splitLines_cons (c : ascii) (s' : string) :
  splitLines (String c s') =
  if is_lf c then EmptyString :: splitLines s'
  else
    match s' with
    | String d s'' =>
        if is_cr c && is_lf d then EmptyString :: splitLines s''
        else
          match splitLines s' with
          | l :: ls => String c l :: ls
          | [] => [String c EmptyString]
          end
    | EmptyString => [String c EmptyString]
    end.
Proof. destruct s'; reflexivity. Qed.

Lemma split_on_cons (c d : ascii) (s : string) :
  NodeSemver.split_on c (String d s) =
  if Ascii.eqb d c then EmptyString :: NodeSemver.split_on c s
  else
    match NodeSemver.split_on c s with
    | l :: ls => String d l :: ls
    | [] => [String d EmptyString]
    end.
Proof. reflexivity. Qed.

Lemma split_on_nonempty (c : ascii) (s : string) :
  NodeSemver.split_on c s <> [].
Proof.
  destruct s as [|d s]; [discriminate|]. rewrite split_on_cons.
  destruct (Ascii.eqb d c); [discriminate|].
  destruct (NodeSemver.split_on c s); discriminate.
Qed.

Lemma split_on_app (c : ascii) (a b : string) :
  NodeSemver.split_on c (a ++ String c b) =
  app (NodeSemver.split_on c a) (NodeSemver.split_on c b).
Proof.
  induction a as [|d a IH].
  - simpl. rewrite Ascii.eqb_refl. reflexivity.
  - change (String d a ++ String c b) with (String d (a ++ String c b)).
    rewrite !split_on_cons, IH.
    destruct (Ascii.eqb d c); trivial.
    pose proof (split_on_nonempty c a).
    destruct (NodeSemver.split_on c a); [congruence | reflexivity].
Qed.

Lemma cr_rel_cons (c : ascii) (l l' : string) :
  cr_rel l l' -> cr_rel (String c l) (String c l').
Proof.
  intros [->| ->]; [left | right]; reflexivity.
Qed.

Lemma splitLines_split_on_aux (n : nat) (s : string) :
  (String.length s <= n)%nat ->
  Forall2 cr_rel (splitLines s) (NodeSemver.split_on "010"%char s).
Proof.
  revert s. induction n as [|n IH]; intros [|c s'] Hlen;
    try (simpl in Hlen; lia);
    try (repeat constructor; fail).
  simpl in Hlen. rewrite splitLines_cons, split_on_cons, <- is_lf_eq.
  destruct (is_lf c) eqn:Hc.
  - constructor; [left; reflexivity | apply IH; lia].
  - destruct s' as [|d s''].
    + repeat constructor.
    + destruct (is_cr c && is_lf d) eqn:Hcr.
      * apply andb_true_iff in Hcr as [Hcr Hd].
        rewrite split_on_cons, <- is_lf_eq, Hd.
        apply is_cr_eq in Hcr. subst c.
        constructor; [right; reflexivity | apply IH; simpl in Hlen; lia].
      * assert (H : Forall2 cr_rel (splitLines (String d s''))
                      (NodeSemver.split_on "010"%char (String d s'')))
          by (apply IH; lia).
        destruct H as [|l l' ls ls' Hl Hls].
        -- repeat constructor.
        -- constructor; trivial. apply cr_rel_cons, Hl.
Qed.

Lemma splitLines_split_on (s : string) :
  Forall2 cr_rel (splitLines s) (NodeSemver.split_on "010"%char s).
Proof. apply (splitLines_split_on_aux (String.length s)). lia. Qed.

Lemma parseLine_cr_rel (l l' : string) :
  cr_rel l l' -> parseLine l = parseLine l'.
Proof.
  intros [->| ->]; trivial. unfold parseLine.
  rewrite (trim_app_blank l CR eq_refl). reflexivity.
Qed.

Lemma entries_of_lines_cr_rel (ls ls' : list string) :
  Forall2 cr_rel ls ls' -> entries_of_lines ls = entries_of_lines ls'.
Proof.
  unfold entries_of_lines. induction 1 as [|l l' ls ls' Hl _ IH]; trivial.
  simpl. rewrite (parseLine_cr_rel l l' Hl), IH. reflexivity.
Qed.

Lemma entries_split_on (s : string) :
  entries s = entries_of_lines (NodeSemver.split_on "010"%char s).
Proof. apply entries_of_lines_cr_rel, splitLines_split_on. Qed.

Lemma filter_some_app {A : Type} (l l' : list (option A)) :
  filter_some (app l l') = app (filter_some l) (filter_some l').
Proof.
  induction l as [|[a|] l IH]; simpl; congruence.
Qed.

Lemma split_on_cr (a : string) :
  Forall2 cr_rel (NodeSemver.split_on "010"%char a)
    (NodeSemver.split_on "010"%char (a ++ CR)).
Proof.
  induction a as [|d a IH].
  - constructor; [right; reflexivity | constructor].
  - change (String d a ++ CR) with (String d (a ++ CR)).
    rewrite !split_on_cons. destruct (Ascii.eqb d "010"%char).
    + constructor; [left; reflexivity | exact IH].
    + destruct IH as [|l l' ls ls' Hl Hls].
      * repeat constructor.
      * constructor; trivial. apply cr_rel_cons, Hl.
Qed.

(** X15.  The watch list is read line by line: the entries of two texts
    joined by a line feed, or by a carriage return and a line feed, are the
    entries of the first followed by the entries of the second. *)
Theorem entries_of_joined_texts (a b : string) :
  entries (a ++ LF ++ b) = app (entries a) (entries b) /\
  entries (a ++ CRLF ++ b) = app (entries a) (entries b).
Proof.
  assert (H : forall a, entries (a ++ LF ++ b) = app (entries a) (entries b)).
  { intros a'. rewrite !entries_split_on. unfold LF.
    change (String "010"%char "" ++ b) with (String "010"%char b).
    rewrite split_on_app. unfold entries_of_lines.
    rewrite map_app, filter_some_app. reflexivity. }
  split; [apply H|].
  replace (a ++ CRLF ++ b) with ((a ++ CR) ++ LF ++ b)
    by (rewrite string_app_assoc; reflexivity).
  rewrite H. f_equal. rewrite !entries_split_on. symmetry.
  apply entries_of_lines_cr_rel, split_on_cr.
Qed.

(** *** The count of the input entries *)

Lemma splitLines_one (l : string) :
  contains_char "010"%char l = false -> splitLines l = [l].
Proof.
  induction l as [|c l IH]; trivial. simpl contains_char.
  intros H. apply orb_false_iff in H as [Hc Hl].
  rewrite splitLines_cons, is_lf_eq, Hc.
  destruct l as [|d l']; trivial.
  simpl contains_char in Hl. apply orb_false_iff in Hl as [Hd Hl'].
  rewrite (is_lf_eq d), Hd, andb_false_r.
  rewrite IH; [reflexivity|]. simpl. rewrite Hd, Hl'. reflexivity.
Qed.

Lemma entries_joined (a b : string) :
  entries (a ++ LF ++ b) = app (entries a) (entries b).
Proof.
  rewrite !entries_split_on. unfold LF.
  change (String "010"%char "" ++ b) with (String "010"%char b).
  rewrite split_on_app. unfold entries_of_lines.
  rewrite map_app, filter_some_app. reflexivity.
Qed.

Section InputEntries.

Context {SV : SemverLib}.
Variable localeCompare : string -> string -> comparison.

(** C6, amended.  [input_entries] is the number of watch-list lines that
    [parseLine] accepts: for a text without line feed it is 1 or 0 as the
    text is accepted or not, and for two texts joined by a line feed it is
    the sum of their counts.  A line of ASCII characters is accepted
    exactly when it is a name, an [@] and a version with optional white
    space around each of them, the name and the version not empty, the name
    not beginning with [#] and the version without [@] (so the line is split
    at its last [@]; blank lines and comments are not of this form).
    Whether the version is a valid semantic version plays no part, so the
    entries with a valid version are at most [input_entries]. *)
Theorem input_entries_counts_parsed_lines
  (cfg : Config) (text : string) (repos : list Repo) (affected : JsMap JsSet) :
  input_entries (build_out localeCompare cfg text repos affected) =
    length (filter parses (splitLines text)) /\
  (contains_char "010"%char text = false ->
   input_entries (build_out localeCompare cfg text repos affected) =
     if parses text then 1%nat else 0%nat) /\
  (forall a b, text = a ++ LF ++ b ->
     input_entries (build_out localeCompare cfg text repos affected) =
     (input_entries (build_out localeCompare cfg a repos affected) +
      input_entries (build_out localeCompare cfg b repos affected))%nat) /\
  (forall l, ascii_only l = true ->
     (parses l = true <-> exists n v, watch_line l n v)) /\
  (forall e, In e (entries text) ->
     name e <> EmptyString /\ version e <> EmptyString) /\
  (length (filter (fun e => semver_valid (version e)) (entries text))
     <= input_entries (build_out localeCompare cfg text repos affected))%nat.
Proof.
  assert (Hcount : forall t,
            length (entries t) = length (filter parses (splitLines t))).
  { intros t. unfold entries, entries_of_lines. apply filter_some_length. }
  split; [|split; [|split; [|split; [|split]]]].
  - apply Hcount.
  - intros Hlf. cbn [input_entries build_out]. rewrite Hcount.
    rewrite (splitLines_one text Hlf). simpl.
    destruct (parses text); reflexivity.
  - intros a b ->. cbn [input_entries build_out].
    rewrite entries_joined, length_app. reflexivity.
  - intros l _. apply parses_watch_line.
  - intros e H. unfold entries, entries_of_lines in H.
    apply filter_some_In in H. apply in_map_iff in H as (l & Hl & _).
    apply (parseLine_nonempty l e Hl).
  - simpl. apply filter_length_le.
Qed.

End InputEntries.

(** ** The purl builder *)

Lemma hlt_cons (c : ascii) (s : string) :
  has_line_terminator (String c s) =
  is_lf c || is_cr c ||
  (match s with
   | String d (String e _) =>
       (nat_of_ascii c =? 226)%nat && (nat_of_ascii d =? 128)%nat &&
       ((nat_of_ascii e =? 168)%nat || (nat_of_ascii e =? 169)%nat)
   | _ => false
   end) ||
  has_line_terminator s.
Proof. reflexivity. Qed.

(** A character below 128 that ends no line cuts a string into two parts
    whose line terminators are those of the whole. *)
Lemma hlt_app_sep (c : ascii) (a b : string) :
  is_lf c = false -> is_cr c = false -> (nat_of_ascii c <? 128)%nat = true ->
  has_line_terminator (a ++ String c b) =
  has_line_terminator a || has_line_terminator b.
Proof.
  intros Hlf Hcr Hc. apply Nat.ltb_lt in Hc.
  assert (E128 : (nat_of_ascii c =? 128)%nat = false) by (apply Nat.eqb_neq; lia).
  assert (E168 : (nat_of_ascii c =? 168)%nat = false) by (apply Nat.eqb_neq; lia).
  assert (E169 : (nat_of_ascii c =? 169)%nat = false) by (apply Nat.eqb_neq; lia).
  assert (E226 : (nat_of_ascii c =? 226)%nat = false) by (apply Nat.eqb_neq; lia).
  assert (Hb : has_line_terminator (String c b) = has_line_terminator b).
  { rewrite hlt_cons, Hlf, Hcr, E226. destruct b as [|d [|e b']]; reflexivity. }
  induction a as [|x a IH].
  - exact Hb.
  - change (String x a ++ String c b) with (String x (a ++ String c b)).
    rewrite (hlt_cons x (a ++ String c b)), IH, (hlt_cons x a).
    destruct a as [|d [|e a']]; cbn [append].
    + destruct b as [|e b']; rewrite ?E128, ?andb_false_r, ?andb_false_l;
        cbn [has_line_terminator orb]; rewrite ?orb_false_r; reflexivity.
    + rewrite E168, E169, andb_false_r, !orb_false_r.
      rewrite !orb_assoc. reflexivity.
    + rewrite !orb_assoc. reflexivity.
Qed.

Lemma prefix_app (p s : string) : prefix p (p ++ s) = true.
Proof.
  induction p as [|c p IH]; simpl.
  - destruct s; reflexivity.
  - destruct (ascii_dec c c); [exact IH | congruence].
Qed.

Lemma slice_from_app (p s : string) :
  slice_from (p ++ s) (strlen p) = s.
Proof.
  unfold slice_from, slice, rel_index, strlen.
  rewrite string_length_app.
  replace (Z.of_nat (String.length p) <? 0) with false
    by (symmetry; apply Z.ltb_ge; lia).
  replace (Z.of_nat (String.length p + String.length s) <? 0) with false
    by (symmetry; apply Z.ltb_ge; lia).
  replace (Z.to_nat (Z.min (Z.of_nat (String.length p))
                       (Z.of_nat (String.length p + String.length s))))
    with (String.length p) by lia.
  replace (Z.to_nat _) with (String.length s) by lia.
  apply substring_suffix.
Qed.

Lemma substring_app_prefix (p v : string) (k : nat) :
  substring 0 (String.length p + k) (p ++ v) = p ++ substring 0 k v.
Proof.
  induction p as [|c p IH]; simpl; congruence.
Qed.

Lemma contains_substring_false (c : ascii) (s : string) (n m : nat) :
  contains_char c s = false -> contains_char c (substring n m s) = false.
Proof.
  intros H. destruct (contains_char c (substring n m s)) eqn:E; trivial.
  apply contains_substring in E. congruence.
Qed.

(** The purl of a path and a version is matched back into the two. *)
Lemma match_npm_purl_build (a v : string) :
  a <> EmptyString -> v <> EmptyString ->
  contains_char "@"%char v = false ->
  has_line_terminator (a ++ "@" ++ v) = false ->
  match_npm_purl ("pkg:npm/" ++ a ++ "@" ++ v) = Some (a, v).
Proof.
  intros Ha Hv Hat Hlt. unfold match_npm_purl.
  rewrite prefix_app.
  change 8 with (strlen "pkg:npm/"). rewrite slice_from_app, Hlt.
  set (rest := a ++ "@" ++ v).
  assert (Hcut : slice rest 0 (strlen rest - 1) =
                 a ++ String "@"%char (substring 0 (String.length v - 1) v)).
  { unfold slice, rel_index, strlen, rest.
    change ("@" ++ v) with (String "@"%char v).
    replace (a ++ String "@"%char v) with ((a ++ "@") ++ v)
      by (rewrite string_app_assoc; reflexivity).
    rewrite !string_length_app. simpl String.length.
    destruct v as [|x v]; [congruence|]. simpl String.length.
    replace (0 <? 0) with false by reflexivity.
    replace (Z.of_nat (String.length a + 1 + S (String.length v)) - 1 <? 0)
      with false by (symmetry; apply Z.ltb_ge; lia).
    replace (Z.to_nat (Z.min 0 _)) with 0%nat by lia.
    replace (Z.to_nat _)
      with (String.length (a ++ "@") + (S (String.length v) - 1))%nat
      by (rewrite string_length_app; simpl String.length; lia).
    rewrite substring_app_prefix, string_app_assoc. reflexivity. }
  rewrite Hcut, lastIndexOf_app by (apply contains_substring_false, Hat).
  assert (Hpos : 0 < strlen a) by (apply strlen_pos, Ha).
  replace (strlen a <=? 0) with false by (symmetry; apply Z.leb_gt; lia).
  pose proof (key_split a v Hat) as [H1 H2]. cbv zeta in H1, H2.
  fold rest in H1, H2. unfold rest in H1 at 2. unfold rest in H2 at 2.
  change ("@" ++ v) with (String "@"%char v) in H1, H2.
  rewrite (lastIndexOf_app "@"%char a v Hat) in H1, H2.
  rewrite H1, H2. reflexivity.
Qed.

Lemma split_on_absent (c : ascii) (s : string) :
  contains_char c s = false -> NodeSemver.split_on c s = [s].
Proof.
  induction s as [|d s IH]; trivial. simpl contains_char.
  intros H. apply orb_false_iff in H as [Hd Hs].
  rewrite split_on_cons, Hd, (IH Hs). reflexivity.
Qed.

Section PurlExtras.

Context {SV : SemverLib}.

Lemma semver_valid_no_at (v : string) :
  semver_valid v = true -> contains_char "@"%char v = false.
Proof.
  intros H. apply semver_valid_parse in H as [x Hx].
  apply (semver_parse_no_at v x Hx).
Qed.

(** What the parser makes of a record that falls back to a purl. *)
Lemma parser_of_purl (n v : option string) (rest : list ExternalRef)
  (path name version : string) :
  truthy (or_empty n) && semver_valid (or_empty v) = false ->
  semver_valid version = true ->
  path <> EmptyString ->
  has_line_terminator (path ++ "@" ++ version) = false ->
  decodeURIComponent path = Normal name ->
  parsePkgNameVersionFromSpdx
    {| p_name := n; p_versionInfo := v;
       p_externalRefs := purl_ref ("pkg:npm/" ++ path ++ "@" ++ version) :: rest |}
  = Normal (Some {| name := name; version := version |}).
Proof.
  intros Hprim Hv Hp Hlt Hdec. unfold parsePkgNameVersionFromSpdx.
  cbn [p_name p_versionInfo p_externalRefs]. rewrite Hprim.
  cbn [find is_purl_ref purl_ref referenceType referenceLocator].
  replace ("purl" =? "purl")%string with true by reflexivity.
  unfold purl_ref. cbv iota beta. unfold startsWith. rewrite prefix_app.
  rewrite match_npm_purl_build; trivial.
  - rewrite Hdec. simpl. rewrite Hv. reflexivity.
  - apply semver_valid_truthy in Hv. destruct version; [discriminate|congruence].
  - apply semver_valid_no_at, Hv.
Qed.

(** X16.  The purl that [npmPurl] builds is read back by the parser: for a
    valid version and a name without [%] and line terminators that is either
    unscoped or of the form [@scope/package], a record that falls back to
    the built purl parses to that name and version. *)
Theorem purl_builder_round_trip
  (name version : string) (n v : option string) (rest : list ExternalRef) :
  semver_valid version = true ->
  has_line_terminator version = false ->
  name <> EmptyString ->
  contains_char percent name = false ->
  has_line_terminator name = false ->
  (startsWith name "@" = true ->
   exists scope pkg,
     name = "@" ++ scope ++ "/" ++ pkg /\
     scope <> EmptyString /\ pkg <> EmptyString /\
     contains_char "/"%char scope = false /\
     contains_char "/"%char pkg = false) ->
  truthy (or_empty n) && semver_valid (or_empty v) = false ->
  exists purl,
    npmPurl name version = Some purl /\
    parsePkgNameVersionFromSpdx
      {| p_name := n; p_versionInfo := v;
         p_externalRefs := purl_ref purl :: rest |}
    = Normal (Some {| name := name; version := version |}).
Proof.
  intros Hv Hltv Hn Hpct Hltn Hscoped Hprim. unfold npmPurl.
  destruct (startsWith name "@") eqn:Hs.
  - destruct (Hscoped eq_refl) as (scope & pkg & -> & Hsc & Hpk & Hs1 & Hs2).
    change ("@" ++ scope ++ "/" ++ pkg) with ("@" ++ (scope ++ "/" ++ pkg)).
    change 1 with (strlen "@"). rewrite slice_from_app. unfold split.
    change (scope ++ "/" ++ pkg) with (scope ++ String "/"%char pkg).
    rewrite split_on_app, !split_on_absent by trivial.
    cbn [app]. destruct scope as [|c1 scope']; [congruence|].
    destruct pkg as [|c2 pkg']; [congruence|].
    cbn [truthy negb orb].
    set (scope := String c1 scope') in *. set (pkg := String c2 pkg') in *.
    eexists. split; [reflexivity|].
    replace ("pkg:npm/%40" ++ scope ++ "/" ++ pkg ++ "@" ++ version)
      with ("pkg:npm/" ++ ("%40" ++ scope ++ "/" ++ pkg) ++ "@" ++ version)
      by (rewrite !string_app_assoc; reflexivity).
    assert (Hparts : has_line_terminator scope = false /\
                     has_line_terminator pkg = false).
    { assert (E : has_line_terminator
                    ("" ++ String "@"%char (scope ++ String "/"%char pkg))
                  = false) by exact Hltn.
      rewrite !hlt_app_sep in E by reflexivity.
      apply orb_false_iff in E as [_ E].
      apply orb_false_iff in E. exact E. }
    destruct Hparts as [Hl1 Hl2].
    apply parser_of_purl; trivial.
    + discriminate.
    + rewrite !string_app_assoc.
      change ("%40" ++ scope ++ "/" ++ pkg ++ "@" ++ version)
        with ("%4" ++ String "0"%char
                (scope ++ String "/"%char (pkg ++ String "@"%char version))).
      rewrite !hlt_app_sep by reflexivity.
      rewrite Hl1, Hl2, Hltv. reflexivity.
    + change ("%40" ++ scope ++ "/" ++ pkg)
        with (String "%"%char (String "4"%char (String "0"%char
                (scope ++ String "/"%char pkg)))).
      unfold decodeURIComponent.
      change (decodeFrom 0 0 0
                (String "%"%char (String "4"%char (String "0"%char
                   (scope ++ String "/"%char pkg)))))
        with (r <- decodeURIComponent (scope ++ String "/"%char pkg) ;;
              Normal (String "@"%char r)).
      rewrite decode_without_percent; [reflexivity|].
      simpl in Hpct. exact Hpct.
  - eexists. split; [reflexivity|].
    apply parser_of_purl; trivial.
    + change (name ++ "@" ++ version) with (name ++ String "@"%char version).
      rewrite hlt_app_sep by reflexivity. rewrite Hltn, Hltv. reflexivity.
    + apply decode_without_percent, Hpct.
Qed.

End PurlExtras.

Lemma purl_builder_round_trip_witness :
  exists purl,
    npmPurl "@scope/name" "1.2.3" = Some purl /\
    parsePkgNameVersionFromSpdx
      {| p_name := None; p_versionInfo := None;
         p_externalRefs := [purl_ref purl] |}
    = Normal (Some {| name := "@scope/name"; version := "1.2.3" |}).
Proof.
  apply (purl_builder_round_trip "@scope/name" "1.2.3" None None []);
    try reflexivity; try discriminate.
  intros _. exists "scope", "name". repeat split; discriminate.
Defined.

(** ** The command line *)

Lemma indexOf_from_first (c : ascii) (a b : string) (i : Z) :
  contains_char c a = false ->
  indexOf_from c (a ++ String c b) i = i + strlen a.
Proof.
  revert i. induction a as [|d a IH]; intros i; simpl.
  - intros _. rewrite Ascii.eqb_refl. unfold strlen. simpl. lia.
  - intros H. apply orb_false_iff in H as [Hd Ha].
    rewrite Hd, (IH _ Ha). unfold strlen. simpl String.length. lia.
Qed.

Lemma indexOf_from_split (c : ascii) (s : string) (i : Z) :
  indexOf_from c s i <> -1 ->
  exists a b, s = a ++ String c b /\ contains_char c a = false.
Proof.
  revert i. induction s as [|d s IH]; intros i; simpl; [congruence|].
  destruct (Ascii.eqb d c) eqn:E.
  - intros _. apply Ascii.eqb_eq in E. subst d.
    exists EmptyString, s. split; reflexivity.
  - intros H. destruct (IH _ H) as (a & b & -> & Ha).
    exists (String d a), b. split; trivial. simpl. rewrite E. exact Ha.
Qed.

Lemma prefix_inv (p s : string) :
  prefix p s = true -> exists r, s = p ++ r.
Proof.
  revert s. induction p as [|c p IH]; intros s.
  - intros _. exists s. reflexivity.
  - destruct s as [|d s]; simpl; [discriminate|].
    destruct (ascii_dec c d) as [->|]; [|discriminate].
    intros H. destruct (IH s H) as [r ->]. exists r. reflexivity.
Qed.

Lemma slice_prefix (a b : string) : slice (a ++ b) 0 (strlen a) = a.
Proof.
  unfold slice, rel_index, strlen. rewrite string_length_app.
  replace (0 <? 0) with false by reflexivity.
  replace (Z.of_nat (String.length a) <? 0) with false
    by (symmetry; apply Z.ltb_ge; lia).
  replace (Z.to_nat (Z.min 0 _)) with 0%nat by lia.
  replace (Z.to_nat _) with (String.length a) by lia.
  apply substring_prefix.
Qed.

Lemma slice_from_sep (c : ascii) (a b : string) :
  slice_from (a ++ String c b) (strlen a + 1) = b.
Proof.
  replace (a ++ String c b) with ((a ++ String c EmptyString) ++ b)
    by (rewrite string_app_assoc; reflexivity).
  replace (strlen a + 1) with (strlen (a ++ String c EmptyString)).
  - apply slice_from_app.
  - unfold strlen. rewrite string_length_app. simpl. lia.
Qed.

Lemma args_of_snoc (argv : list string) (a : string) :
  args_of (app argv [a]) =
  map_set (args_of argv) (fst (parse_arg a)) (snd (parse_arg a)).
Proof.
  unfold args_of. rewrite fold_left_app. reflexivity.
Qed.

Lemma snoc_split {A : Type} (l pre post : list A) (x a : A) :
  app l [x] = app pre (a :: post) ->
  (post = [] /\ l = pre /\ x = a) \/
  (exists post', post = app post' [x] /\ l = app pre (a :: post')).
Proof.
  intros H. destruct (exists_last (l := a :: post)) as (q & y & E);
    [discriminate|].
  rewrite E, app_assoc in H. apply app_inj_tail in H as [Hl Hx]. subst y.
  destruct post as [|b post].
  - left. destruct q as [|? [|? ?]]; simpl in E; try discriminate.
    injection E as <-. rewrite app_nil_r in Hl. auto.
  - right. destruct (exists_last (l := b :: post)) as (q' & y' & E');
      [discriminate|].
    rewrite E' in E. change (a :: app q' [y']) with (app (a :: q') [y']) in E.
    apply app_inj_tail in E as [<- <-].
    exists q'. split; trivial.
Qed.

(** The entry of [args] for a key comes from the last argument that names
    the key. *)
Lemma args_lookup (argv : list string) (key : string) (val : ArgValue) :
  map_get (args_of argv) key = Some val <->
  exists pre a post,
    argv = app pre (a :: post) /\ parse_arg a = (key, val) /\
    forall b, In b post -> fst (parse_arg b) <> key.
Proof.
  induction argv as [|x argv IH] using rev_ind.
  - split; [discriminate|]. intros (pre & a & post & H & _).
    destruct pre; discriminate.
  - rewrite args_of_snoc, map_get_set.
    destruct (String.eqb_spec (fst (parse_arg x)) key) as [Hk|Hk].
    + split.
      * intros H. injection H as <-. exists argv, x, []. repeat split.
        -- rewrite <- Hk. apply surjective_pairing.
        -- intros b [].
      * intros (pre & a & post & H & Ha & Hpost).
        apply snoc_split in H as [(-> & -> & ->)|(post' & -> & ->)].
        -- rewrite Ha. reflexivity.
        -- exfalso. apply (Hpost x); trivial. apply in_or_app. simpl. auto.
    + rewrite IH. split.
      * intros (pre & a & post & -> & Ha & Hpost).
        exists pre, a, (app post [x]). repeat split; trivial.
        -- rewrite <- app_assoc. reflexivity.
        -- intros b Hb. apply in_app_or in Hb as [Hb|[<-|[]]]; auto.
      * intros (pre & a & post & H & Ha & Hpost).
        apply snoc_split in H as [(-> & -> & ->)|(post' & -> & ->)].
        -- rewrite Ha in Hk. simpl in Hk. congruence.
        -- exists pre, a, post'. repeat split; trivial.
           intros b Hb. apply Hpost. apply in_or_app. auto.
Qed.

(** X17.  An argument is read as a key and a value exactly when it is two
    dashes, a key that is not empty and holds no [=], an [=] and a value
    that holds no line terminator; the value may be empty. *)
Theorem key_value_argument (a k v : string) :
  match_arg a = Some (k, v) <->
  a = "--" ++ k ++ "=" ++ v /\ k <> EmptyString /\
  contains_char "="%char k = false /\ has_line_terminator v = false.
Proof.
  unfold match_arg. split.
  - destruct (prefix "--" a) eqn:Hp; [|discriminate].
    apply prefix_inv in Hp as [body ->].
    change 2 with (strlen "--"). rewrite slice_from_app.
    destruct (indexOf "="%char body <=? 0) eqn:Hi; [discriminate|].
    apply Z.leb_gt in Hi. unfold indexOf in *.
    destruct (indexOf_from_split "="%char body 0) as (k' & v' & -> & Hk); [lia|].
    rewrite (indexOf_from_first "="%char k' v' 0 Hk) in *.
    rewrite Z.add_0_l, slice_from_sep, slice_prefix.
    destruct (has_line_terminator v') eqn:Hv; [discriminate|].
    intros H. injection H as <- <-. repeat split; trivial.
    intros ->. unfold strlen in Hi. simpl in Hi. lia.
  - intros (-> & Hk & Hno & Hv).
    rewrite prefix_app. change 2 with (strlen "--"). rewrite slice_from_app.
    change ("=" ++ v) with (String "="%char v). unfold indexOf.
    rewrite (indexOf_from_first "="%char k v 0 Hno).
    rewrite Z.add_0_l, slice_from_sep, slice_prefix, Hv.
    pose proof (strlen_pos k Hk).
    replace (strlen k <=? 0) with false by (symmetry; apply Z.leb_gt; lia).
    reflexivity.
Qed.

(** X18.  The entry of [args] for a key is the one of the last argument that
    names the key: an earlier argument of the same key is overwritten. *)
Theorem last_argument_wins (argv : list string) (key : string) (val : ArgValue) :
  map_get (args_of argv) key = Some val <->
  exists pre a post,
    argv = app pre (a :: post) /\ parse_arg a = (key, val) /\
    forall b, In b post -> fst (parse_arg b) <> key.
Proof. apply args_lookup. Qed.

Section StartupExtras.

Variable Number_of_string : string -> JsNumber.

(** X19.  A bare [--org] names no organisation: when the last argument of
    key [org] is [--org] itself and the token is set, the scan starts for
    the organisation [true], whatever argument follows and whatever the
    environment gives for [ORG]. *)
Theorem bare_org_flag_is_true
  (argv pre post : list string) (env : Env) :
  argv = app pre ("--org" :: post) ->
  (forall b, In b post -> fst (parse_arg b) <> "org") ->
  truthy (or_empty (env_GITHUB_TOKEN env)) = true ->
  exists cfg IN OUT,
    startup Number_of_string argv env = Start cfg IN OUT /\ ORG cfg = "true".
Proof.
  intros Hargv Hpost Htok.
  assert (Horg : map_get (args_of argv) "org" = Some ArgTrue).
  { apply args_lookup. exists pre, "--org", post. repeat split; trivial. }
  unfold startup, arg_or at 1. rewrite Horg. cbn [truthy_arg negb].
  rewrite Htok. cbn [negb]. eauto.
Qed.


End StartupExtras.

Lemma bare_org_flag_is_true_witness :
  exists cfg IN OUT,
    startup (fun _ => NaN) ["--org"; "acme"; "--include-forks"]
      {| env_ORG := Some "acme"; env_GITHUB_TOKEN := Some "token" |}
    = Start cfg IN OUT /\ ORG cfg = "true".
Proof.
  apply (bare_org_flag_is_true (fun _ => NaN) _ [] ["acme"; "--include-forks"]).
  - reflexivity.
  - intros b [<-|[<-|[]]]; discriminate.
  - reflexivity.
Defined.


(** ** The version matcher *)

Section MatcherExtras.

Context {SV : SemverLib}.

Lemma semver_le_lte (a b : string) :
  semver_le a b -> semver_lte a b = Normal true.
Proof.
  intros (x & y & Hx & Hy & Hc). unfold semver_lte. rewrite Hx, Hy.
  destruct (semver_compare x y); congruence.
Qed.

(** X21.  Matching is closed downwards and blind to case: when a pair
    matches, every pair whose name agrees with it up to case and whose
    version is at most its version matches too. *)
Theorem matcher_downward_closed (wanted : JsMap string) (nv nv' : NameVersion) :
  isAffected wanted nv = Normal true ->
  toLowerCase (name nv') = toLowerCase (name nv) ->
  semver_le (version nv') (version nv) ->
  isAffected wanted nv' = Normal true.
Proof.
  unfold isAffected. intros H Hn Hle. rewrite Hn.
  destruct (map_get wanted (toLowerCase (name nv))) as [V|]; [|discriminate].
  destruct (truthy V); simpl in *; [|discriminate].
  apply semver_le_lte. apply (semver_le_trans _ (version nv)); trivial.
  apply semver_lte_true, H.
Qed.

End MatcherExtras.

Lemma matcher_downward_closed_witness :
  isAffected wanted0 {| name := "LEFT-PAD"; version := "1.0.0-rc.1" |} =
  Normal true.
Proof.
  apply (matcher_downward_closed wanted0
           {| name := "Left-Pad"; version := "1.1.0" |}).
  - reflexivity.
  - reflexivity.
  - eexists. eexists. repeat split; try reflexivity. discriminate.
Defined.
